(** * tmalign_parser: the parser/aggregator of [src/tmalign_parser.py]

    A shallow embedding of [parse_and_save] and of the library calls it
    relies on ([re.split], [re.search], [float], [max], [os.path],
    [DataFrame.sort_values], boolean-mask filtering, [pd.concat], [dict]),
    followed by the properties of the specification.

    Data model.  A Python [str] is a [string]; a character is the code point
    it denotes, in the range U+0000..U+00FF (TM-align reports are plain
    ASCII).  A Python [float] is an IEEE 754 binary64 value, a [spec_float]
    of the Standard Library with [prec = 53] and [emax = 1024]. *)

From Stdlib Require Import Bool Arith ZArith List String Ascii Lia.
From Stdlib Require Import Permutation.
From Stdlib Require Import SpecFloat.
Import ListNotations.
Open Scope string_scope.
Open Scope list_scope.
Open Scope nat_scope.

(* ===================================================================== *)
(** ** Character classes of [re] (str patterns, code points below 256)    *)
(* ===================================================================== *)

Module Chars.

Definition code (c : ascii) : nat := nat_of_ascii c.

(** [\s]: Unicode white space. Below U+0100 these are TAB..CR, FS..US,
    SPACE, NEL (U+0085) and NBSP (U+00A0). *)
Definition is_space (c : ascii) : bool :=
  let n := code c in
  ((9 <=? n) && (n <=? 13)) || ((28 <=? n) && (n <=? 32))
  || (n =? 133) || (n =? 160).

(** [\d]: Unicode decimal digits; below U+0100 only '0'..'9'. *)
Definition is_digit (c : ascii) : bool :=
  let n := code c in (48 <=? n) && (n <=? 57).

(** [.] without DOTALL: anything but a line feed. *)
Definition is_dot (c : ascii) : bool := negb (code c =? 10).

(** [\*] *)
Definition is_star (c : ascii) : bool := code c =? 42.

(** [[^\s(]] *)
Definition is_name_char (c : ascii) : bool :=
  negb (is_space c || (code c =? 40)).

(** [[\d\.]] *)
Definition is_num_char (c : ascii) : bool :=
  is_digit c || (code c =? 46).

Definition digit_value (c : ascii) : Z := Z.of_nat (code c - 48).

End Chars.

(* ===================================================================== *)
(** ** A backtracking matcher for the fragment of [re] the script uses    *)
(* ===================================================================== *)

Module Re.

Inductive greed := Greedy | Lazy.

(** Literal text, a repeated character class ([c*], [c+], [c*?]),
    the capture group, concatenation. *)
Inductive regex :=
| Lit (s : string)
| Rep (g : greed) (lo : nat) (c : ascii -> bool)
| Group (r : regex)
| Cat (r1 r2 : regex).

Declare Scope re_scope.
Delimit Scope re_scope with re.
Infix ";;" := Cat (at level 61, right associativity) : re_scope.

Definition star c := Rep Greedy 0 c.
Definition plus c := Rep Greedy 1 c.
Definition lazy_star c := Rep Lazy 0 c.

(** [lit p s]: the rest of [s] after the literal [p], if [s] starts
    with it. *)
Fixpoint lit (p s : string) : option string :=
  match p, s with
  | EmptyString, _ => Some s
  | String a p', String b s' => if Ascii.eqb a b then lit p' s' else None
  | String _ _, EmptyString => None
  end.

Section Matcher.
Context {R : Type}.

(** Greedy repetition: take a character when possible, give it back
    when the rest of the pattern fails. [n] counts consumed characters. *)
Fixpoint rep_greedy (c : ascii -> bool) (lo : nat) (s : string) (n : nat)
         (k : string -> nat -> option R) {struct s} : option R :=
  match s with
  | String a s' =>
      if c a then
        match rep_greedy c (pred lo) s' (S n) k with
        | Some r => Some r
        | None => match lo with 0 => k s n | S _ => None end
        end
      else match lo with 0 => k s n | S _ => None end
  | EmptyString => match lo with 0 => k s n | S _ => None end
  end.

(** Lazy repetition: try the rest of the pattern first. *)
Fixpoint rep_lazy (c : ascii -> bool) (lo : nat) (s : string) (n : nat)
         (k : string -> nat -> option R) {struct s} : option R :=
  match lo with
  | 0 =>
      match k s n with
      | Some r => Some r
      | None =>
          match s with
          | String a s' => if c a then rep_lazy c 0 s' (S n) k else None
          | EmptyString => None
          end
      end
  | S lo' =>
      match s with
      | String a s' => if c a then rep_lazy c lo' s' (S n) k else None
      | EmptyString => None
      end
  end.

(** [run r s n g k]: match [r] at the head of [s], [n] characters into
    the attempt, [g] the text of group 1 so far; [k] is the rest of
    the pattern. *)
Fixpoint run (r : regex) (s : string) (n : nat) (g : option string)
         (k : string -> nat -> option string -> option R) : option R :=
  match r with
  | Lit p =>
      match lit p s with
      | Some s' => k s' (n + String.length p) g
      | None => None
      end
  | Rep Greedy lo c => rep_greedy c lo s n (fun s' n' => k s' n' g)
  | Rep Lazy lo c => rep_lazy c lo s n (fun s' n' => k s' n' g)
  | Group r1 =>
      run r1 s n g (fun s' n' _ => k s' n' (Some (substring 0 (n' - n) s)))
  | Cat r1 r2 => run r1 s n g (fun s' n' g' => run r2 s' n' g' k)
  end.
End Matcher.

(** A match anchored at the head of [s]: its length and group 1. *)
Definition match_here (r : regex) (s : string) : option (nat * option string) :=
  run r s 0 None (fun _ n g => Some (n, g)).

(** [re.search]: the leftmost match; [(start, length, group 1)]. *)
Fixpoint search_from (r : regex) (s : string) (pos : nat)
  : option (nat * nat * option string) :=
  match match_here r s with
  | Some (n, g) => Some (pos, n, g)
  | None =>
      match s with
      | String _ s' => search_from r s' (S pos)
      | EmptyString => None
      end
  end.

Definition search (r : regex) (s : string) := search_from r s 0.

(** [m.group(1) if m else ''] *)
Definition group1_or_empty (m : option (nat * nat * option string)) : string :=
  match m with
  | Some (_, _, Some g) => g
  | _ => ""
  end.

(** The characters of [acc], last first, put in front of [tl]. *)
Fixpoint rev_string (acc : list ascii) (tl : string) : string :=
  match acc with
  | [] => tl
  | a :: acc' => rev_string acc' (String a tl)
  end.

(** [re.split] for a pattern without groups. [skip] characters are still
    inside the last match; [seg] is the current segment, reversed. A
    match of length 0 does not split here; the banner never has one
    (see [banner_match_nonempty]). *)
Fixpoint split_go (r : regex) (s : string) (skip : nat) (seg : list ascii)
  : list string :=
  match s with
  | EmptyString => [rev_string seg ""]
  | String a s' =>
      match skip with
      | S skip' => split_go r s' skip' seg
      | 0 =>
          match match_here r s with
          | Some (S n, _) => rev_string seg "" :: split_go r s' n []
          | _ => split_go r s' 0 (a :: seg)
          end
      end
  end.

Definition split (r : regex) (s : string) : list string := split_go r s 0 [].

End Re.

Import Re.

(* ===================================================================== *)
(** ** [float], [max] and the comparison of binary64 values               *)
(* ===================================================================== *)

Module PyFloat.

Definition prec : Z := 53.
Definition emax : Z := 1024.

Definition zero : spec_float := S754_zero false.

Definition ltb := SFltb.
Definition leb := SFleb.
Definition eqb := SFeqb.

Definition is_nan (x : spec_float) : bool :=
  match x with S754_nan => true | _ => false end.

(** The binary64 value nearest to [n / 10^k] (ties to even): the IEEE
    division of the two integers, which rounds once. *)
Definition of_decimal (n : Z) (k : nat) : spec_float :=
  match n with
  | Zpos p =>
      SFdiv prec emax (S754_finite false p 0)
                      (S754_finite false (Z.to_pos (10 ^ Z.of_nat k)) 0)
  | _ => zero
  end.

(** A run of decimal digits: the number read so far, how many digits
    were read, and what follows. *)
Fixpoint read_digits (s : string) (acc : Z) (cnt : nat) : Z * nat * string :=
  match s with
  | String c s' =>
      if Chars.is_digit c
      then read_digits s' (10 * acc + Chars.digit_value c)%Z (S cnt)
      else (acc, cnt, s)
  | EmptyString => (acc, cnt, s)
  end.

(** [float(s)] for a string over the digits and the point, which is all
    a [[\d\.]+] group can hold (see [tm_group_is_numeric]): [float]
    accepts digits with at most one point and at least one digit, and
    rounds to the nearest binary64; [None] is the [ValueError]. *)
Definition py_float (s : string) : option spec_float :=
  let '(ip, ni, rest) := read_digits s 0%Z 0 in
  match rest with
  | EmptyString => if ni =? 0 then None else Some (of_decimal ip 0)
  | String c rest' =>
      if Chars.code c =? 46 then
        let '(all, nf, rest'') := read_digits rest' ip 0 in
        match rest'' with
        | EmptyString => if ni + nf =? 0 then None else Some (of_decimal all nf)
        | String _ _ => None
        end
      else None
  end.

(** [max(a, b)]: [b] when [b > a], else [a]. *)
Definition py_max (a b : spec_float) : spec_float :=
  if ltb a b then b else a.

End PyFloat.

Import PyFloat.

(* ===================================================================== *)
(** ** [os.path.basename], [splitext], [join], [dirname] (posixpath)       *)
(* ===================================================================== *)

Module Path.

(** [s.rfind(c)], with -1 when [c] does not occur. *)
Fixpoint rfind_from (c : ascii) (s : string) (i last : Z) : Z :=
  match s with
  | EmptyString => last
  | String a s' =>
      rfind_from c s' (i + 1)%Z (if Ascii.eqb a c then i else last)
  end.

Definition rfind (c : ascii) (s : string) : Z := rfind_from c s 0%Z (-1)%Z.

(** [p[i:]] and [p[:i]] for [0 <= i]. *)
Fixpoint drop (i : nat) (s : string) : string :=
  match i, s with
  | S i', String _ s' => drop i' s'
  | _, _ => s
  end.

Definition take (i : nat) (s : string) : string := substring 0 i s.

(** [i = p.rfind('/') + 1; return p[i:]] *)
Definition basename (p : string) : string :=
  drop (Z.to_nat (rfind "/" p + 1)) p.

Fixpoint all_dots (s : string) : bool :=
  match s with
  | EmptyString => true
  | String a s' => Ascii.eqb a "." && all_dots s'
  end.

(** [splitext(p)[0]]: cut at the last point, unless that point is among
    the leading points of the file name. *)
Definition splitext_root (p : string) : string :=
  let sepIndex := rfind "/" p in
  let dotIndex := rfind "." p in
  if (sepIndex <? dotIndex)%Z then
    let filenameIndex := Z.to_nat (sepIndex + 1) in
    if all_dots (substring filenameIndex (Z.to_nat dotIndex - filenameIndex) p)
    then p
    else take (Z.to_nat dotIndex) p
  else p.

(** [b.startswith('/')] *)
Definition starts_with_sep (s : string) : bool :=
  match s with
  | String a _ => Ascii.eqb a "/"
  | EmptyString => false
  end.

(** [path.endswith('/')] *)
Fixpoint ends_with_sep (s : string) : bool :=
  match s with
  | EmptyString => false
  | String a EmptyString => Ascii.eqb a "/"
  | String _ s' => ends_with_sep s'
  end.

(** [os.path.join(a, b)]: a [b] that starts with the separator replaces
    [a]; otherwise a separator is put between the two, unless [a] is
    empty or ends with one. *)
Definition join (a b : string) : string :=
  if starts_with_sep b then b
  else if String.eqb a EmptyString || ends_with_sep a then (a ++ b)%string
  else (a ++ "/" ++ b)%string.

(** [head == sep * len(head)] *)
Fixpoint all_seps (s : string) : bool :=
  match s with
  | EmptyString => true
  | String a s' => Ascii.eqb a "/" && all_seps s'
  end.

(** [head.rstrip('/')] *)
Fixpoint rstrip_sep (s : string) : string :=
  match s with
  | EmptyString => EmptyString
  | String a s' =>
      match rstrip_sep s' with
      | EmptyString =>
          if Ascii.eqb a "/" then EmptyString else String a EmptyString
      | String _ _ as r => String a r
      end
  end.

(** [os.path.dirname(p)]: [head = p[:p.rfind('/') + 1]], without its
    trailing separators unless it holds nothing else. *)
Definition dirname (p : string) : string :=
  let i := Z.to_nat (rfind "/" p + 1) in
  let head := take i p in
  if negb (String.eqb head EmptyString) && negb (all_seps head)
  then rstrip_sep head
  else head.


End Path.

(* ===================================================================== *)
(** ** The patterns of [parse_and_save]                                   *)
(* ===================================================================== *)

Module Pat.
Import Chars.
Local Open Scope re_scope.

(** [\*+\s*TM-align.*?\*+] *)
Definition banner : regex :=
  plus is_star ;; star is_space ;; Lit "TM-align" ;; lazy_star is_dot ;;
  plus is_star.

(** [Name of Chain_2:\s*([^\s(]+)] *)
Definition name2 : regex :=
  Lit "Name of Chain_2:" ;; star is_space ;; Group (plus is_name_char).

(** [Length of Chain_1:\s*(\d+)] *)
Definition len1 : regex :=
  Lit "Length of Chain_1:" ;; star is_space ;; Group (plus is_digit).

(** [Length of Chain_2:\s*(\d+)] *)
Definition len2 : regex :=
  Lit "Length of Chain_2:" ;; star is_space ;; Group (plus is_digit).

(** [RMSD=\s*([\d\.]+)] *)
Definition rmsd : regex :=
  Lit "RMSD=" ;; star is_space ;; Group (plus is_num_char).

(** [Seq_ID=n_identical/n_aligned=\s*([\d\.]+)] *)
Definition seqid : regex :=
  Lit "Seq_ID=n_identical/n_aligned=" ;; star is_space ;;
  Group (plus is_num_char).

(** [TM-score=\s*([\d\.]+)\s*\(if normalized by length of Chain_N,.*?\)] *)
Definition tm (chain : string) : regex :=
  Lit "TM-score=" ;; star is_space ;; Group (plus is_num_char) ;;
  star is_space ;; Lit ("(if normalized by length of " ++ chain ++ ",")%string ;;
  lazy_star is_dot ;; Lit ")".

Definition tm1 : regex := tm "Chain_1".
Definition tm2 : regex := tm "Chain_2".

End Pat.

(* ===================================================================== *)
(** ** Records and the per-block field extraction                         *)
(* ===================================================================== *)

(** One row of the per-query table; the columns of the [DataFrame]. *)
Record record := mk_record {
  query : string;
  template : string;
  qlen : string;
  tlen : string;
  RMSD : string;
  ident : string;
  TM1 : string;
  TM2 : string;
  chosen : spec_float
}.

(** [blocks = re.split(banner, text)]; the loop runs over [blocks[1:]]. *)
Definition blocks (text : string) : list string :=
  tl (Re.split Pat.banner text).

(** [t_m.group(1) if t_m else ''] *)
Definition template_id (block : string) : string :=
  group1_or_empty (Re.search Pat.name2 block).

(** [m.group(1) if m else ''] for the match [m] of the pattern [r]. *)
Definition field (r : regex) (block : string) : string :=
  group1_or_empty (Re.search r block).

(** [float(score) if score else 0.0]; [None] when [float] raises. *)
Definition score_or_zero (score : string) : option spec_float :=
  match score with
  | EmptyString => Some zero
  | String _ _ => py_float score
  end.

(** The [try] body: both arguments are evaluated, left to right, before
    [max] is called. *)
Definition try_chosen (score1 score2 : string) : option spec_float :=
  match score_or_zero score1 with
  | Some a =>
      match score_or_zero score2 with
      | Some b => Some (py_max a b)
      | None => None
      end
  | None => None
  end.

(** [try: chosen = max(...)  except: chosen = 0.0] *)
Definition chosen_of (score1 score2 : string) : spec_float :=
  match try_chosen score1 score2 with
  | Some c => c
  | None => zero
  end.

(** The body of the loop over the blocks. *)
Definition parse_block (basename block : string) : record :=
  let query_file := (basename ++ ".pdb")%string in
  let template_file := (template_id block ++ ".pdb")%string in
  let score1 := field Pat.tm1 block in
  let score2 := field Pat.tm2 block in
  mk_record query_file template_file
            (field Pat.len1 block) (field Pat.len2 block)
            (field Pat.rmsd block) (field Pat.seqid block)
            score1 score2 (chosen_of score1 score2).

(** [basename = os.path.splitext(os.path.basename(alnfile))[0]] *)
Definition basename_of (alnfile : string) : string :=
  Path.splitext_root (Path.basename alnfile).

(** The list [records] built for one combined file. *)
Definition parse_records (basename text : string) : list record :=
  map (parse_block basename) (blocks text).

(* ===================================================================== *)
(** ** [numpy.argsort(kind='quicksort')]                                  *)
(* ===================================================================== *)

(** [DataFrame.sort_values] is called with its default [kind='quicksort'].
    pandas hands the key column to [nargsort], which calls NumPy's
    [argsort]. Which sort NumPy runs for that kind depends on its build
    and on the processor: for float keys it runs a vectorised sort where
    it has one for the processor, and its generic indirect introsort
    otherwise. Each of them returns the positions in ascending order of
    the keys ([SortSpec.sorts_ascending]); they differ in the order they
    give to equal keys, which [kind='quicksort'] leaves open.

    This module is the generic introsort ([aquicksort_] of
    npysort/quicksort.cpp): median-of-three quicksort on the index array
    [tosort] while a partition spans more than [SMALL_QUICKSORT]
    positions, insertion sort below that, heapsort for a partition popped
    after the depth limit ran out. Pointers into [tosort] are positions;
    the explicit stack of pending partitions is the recursion of
    [aq_loop]. *)

Module NpSort.

Section Argsort.
Variable K : Type.
Variable less : K -> K -> bool.
(** [dflt] stands for a key outside the array, which the sort never
    reads. *)
Variable dflt : K.
(** The array [v] of keys; [tosort] holds indices into it. *)
Variable v : list K.

Definition val (i : nat) : K := nth i v dflt.

Definition get (a : list nat) (p : nat) : nat := nth p a 0.

Fixpoint set (a : list nat) (p x : nat) : list nat :=
  match a, p with
  | [], _ => []
  | _ :: t, 0 => x :: t
  | h :: t, S p' => h :: set t p' x
  end.

(** [INTP_SWAP] of the entries at positions [p] and [q]. *)
Definition swap (a : list nat) (p q : nat) : list nat :=
  let x := get a p in
  let y := get a q in
  set (set a p y) q x.

Definition SMALL_QUICKSORT : nat := 16.

(** [if (less(v[a[p]], v[a[q]])) INTP_SWAP(a[p], a[q])] *)
Definition swap_if_less (a : list nat) (p q : nat) : list nat :=
  if less (val (get a p)) (val (get a q)) then swap a p q else a.

(** [while (pj > pl && less(vp, v[a[pk]])) { a[pj--] = a[pk--]; }  a[pj] = vi;] *)
Fixpoint ins_shift (a : list nat) (pl pj vi : nat) {struct pj} : list nat :=
  match pj with
  | S pk =>
      if (pl <? pj) && less (val vi) (val (get a pk))
      then ins_shift (set a pj (get a pk)) pl pk vi
      else set a pj vi
  | 0 => set a pj vi
  end.

(** [for (pi = pl + 1; pi <= pr; ++pi)], [n] iterations left. *)
Fixpoint ins_loop (n : nat) (a : list nat) (pl pi : nat) : list nat :=
  match n with
  | 0 => a
  | S n' => ins_loop n' (ins_shift a pl pi (get a pi)) pl (S pi)
  end.

Definition insertion_sort (a : list nat) (pl pr : nat) : list nat :=
  ins_loop (pr - pl) a pl (S pl).

(** [do { ++pi; } while (less(v[a[pi]], vp));] The pivot parked at
    [pr - 1] stops the scan; [bound] is the span of the partition. *)
Fixpoint scan_up (bound : nat) (a : list nat) (pi : nat) (vp : K) : nat :=
  match bound with
  | 0 => S pi
  | S b =>
      if less (val (get a (S pi))) vp then scan_up b a (S pi) vp else S pi
  end.

(** [do { --pj; } while (less(vp, v[a[pj]]));] The median-of-three
    leaves a key not above the pivot at [pl]. *)
Fixpoint scan_down (bound : nat) (a : list nat) (pj : nat) (vp : K) : nat :=
  match bound with
  | 0 => pj - 1
  | S b =>
      if less vp (val (get a (pj - 1))) then scan_down b a (pj - 1) vp
      else pj - 1
  end.

(** [for (;;) { scan up; scan down; if (pi >= pj) break; swap }] *)
Fixpoint part_loop (fuel bound : nat) (a : list nat) (pi pj : nat) (vp : K)
  : list nat * nat :=
  let pi' := scan_up bound a pi vp in
  let pj' := scan_down bound a pj vp in
  if pj' <=? pi' then (a, pi')
  else
    match fuel with
    | 0 => (a, pi')
    | S f => part_loop f bound (swap a pi' pj') pi' pj' vp
    end.

(** One quicksort partition of [pl..pr]; returns the array and the
    final position [pi] of the pivot. *)
Definition partition (a : list nat) (pl pr : nat) : list nat * nat :=
  let pm := pl + Nat.div2 (pr - pl) in
  let a := swap_if_less a pm pl in
  let a := swap_if_less a pr pm in
  let a := swap_if_less a pm pl in
  let vp := val (get a pm) in
  let pj := pr - 1 in
  let a := swap a pm pj in
  let '(a, pi) := part_loop (pr - pl) (pr - pl) a pl pj vp in
  (swap a pi (pr - 1), pi).

(** [aheapsort_(vv, tosort + base, n)]: [a = tosort - 1], so the heap
    is indexed from 1. *)
Definition hget (a : list nat) (base i : nat) : nat := get a (base + i - 1).
Definition hset (a : list nat) (base i x : nat) : list nat :=
  set a (base + i - 1) x.

(** The sift-down loop [for (i, j; j <= n;) {...}  a[i] = tmp;] *)
Fixpoint sift (fuel : nat) (a : list nat) (base n i j tmp : nat) : list nat :=
  match fuel with
  | 0 => hset a base i tmp
  | S f =>
      if j <=? n then
        let j :=
          if (j <? n) && less (val (hget a base j)) (val (hget a base (j + 1)))
          then j + 1 else j in
        if less (val tmp) (val (hget a base j))
        then sift f (hset a base i (hget a base j)) base n j (j + j) tmp
        else hset a base i tmp
      else hset a base i tmp
  end.

(** [for (l = n >> 1; l > 0; --l)] *)
Fixpoint heapify (l : nat) (a : list nat) (base n : nat) : list nat :=
  match l with
  | 0 => a
  | S l' => heapify l' (sift n a base n l (2 * l) (hget a base l)) base n
  end.

(** [for (; n > 1;)] *)
Fixpoint extract (n : nat) (a : list nat) (base : nat) : list nat :=
  match n with
  | S (S _ as n') =>
      let tmp := hget a base n in
      let a := hset a base n (hget a base 1) in
      extract n' (sift n' a base n' 1 2 tmp) base
  | _ => a
  end.

Definition aheapsort (a : list nat) (base n : nat) : list nat :=
  extract n (heapify (Nat.div2 n) a base n) base.

(** The loop [while ((pr - pl) > SMALL_QUICKSORT)] and the insertion
    sort after it. The larger side of each partition is pushed with
    the decremented depth and sorted when popped: by heapsort if that
    depth is negative, by this loop otherwise. The loop goes on with
    the smaller side, so [fuel] can be the span of the partition. *)
Fixpoint aq_loop (fuel : nat) (a : list nat) (pl pr : nat) (cdepth : Z)
  : list nat :=
  match fuel with
  | 0 => insertion_sort a pl pr
  | S f =>
      if SMALL_QUICKSORT <? pr - pl then
        let '(a, pi) := partition a pl pr in
        let cdepth := (cdepth - 1)%Z in
        let popped (a : list nat) (pl pr : nat) :=
          if (cdepth <? 0)%Z then aheapsort a pl (pr - pl + 1)
          else aq_loop f a pl pr cdepth in
        if pi - pl <? pr - pi
        then popped (aq_loop f a pl (pi - 1) cdepth) (pi + 1) pr
        else popped (aq_loop f a (pi + 1) pr cdepth) pl (pi - 1)
      else insertion_sort a pl pr
  end.

(** [aquicksort_(v, tosort, num)] on [tosort = arange(num)];
    [cdepth = npy_get_msb(num) * 2]. *)
Definition argsort : list nat :=
  let num := List.length v in
  let cdepth := (2 * Z.log2 (Z.of_nat num))%Z in
  aq_loop num (seq 0 num) 0 (num - 1) cdepth.

End Argsort.

End NpSort.

(* ===================================================================== *)
(** ** The pandas calls: sorting, filtering, concatenation                *)
(* ===================================================================== *)

Module Pandas.

Definition table := list record.

Definition empty_record : record :=
  mk_record "" "" "" "" "" "" "" "" S754_nan.

(** [items[mask]] for a boolean mask. *)
Fixpoint select {A : Type} (mask : list bool) (items : list A) : list A :=
  match mask, items with
  | b :: mask', x :: items' =>
      if b then x :: select mask' items' else select mask' items'
  | _, _ => []
  end.

(** [nargsort(items, kind='quicksort', ascending=False, na_position='last')]:
    the keys that are not missing are reversed, sorted ascending by
    NumPy, and the result reversed again; the positions of the missing
    keys follow, in their original order. The sort is NumPy's generic
    introsort here; [nargsort_desc_with] leaves it open. *)
Definition nargsort_desc (items : list spec_float) : list nat :=
  let idx := seq 0 (List.length items) in
  let mask := map is_nan items in
  let non_nans := rev (select (map negb mask) items) in
  let non_nan_idx := rev (select (map negb mask) idx) in
  let nan_idx := select mask idx in
  let sorter := NpSort.argsort spec_float PyFloat.ltb zero non_nans in
  let indexer := rev (map (fun p => nth p non_nan_idx 0) sorter) in
  indexer ++ nan_idx.

(** [df.take(indexer)] *)
Definition take (df : table) (indexer : list nat) : table :=
  map (fun i => nth i df empty_record) indexer.

(** [df.sort_values('chosen', ascending=False)]. The column already
    holds floats, so [pd.to_numeric(..., errors='coerce')] leaves it
    as it is. *)
Definition sort_values (df : table) : table :=
  take df (nargsort_desc (map chosen df)).

(** [nargsort] with the sort that NumPy runs as a parameter: [argsort]
    stands for [numpy.argsort(kind='quicksort')] on the keys that are not
    missing. *)
Definition nargsort_desc_with (argsort : list spec_float -> list nat)
           (items : list spec_float) : list nat :=
  let idx := seq 0 (List.length items) in
  let mask := map is_nan items in
  let non_nans := rev (select (map negb mask) items) in
  let non_nan_idx := rev (select (map negb mask) idx) in
  let nan_idx := select mask idx in
  let sorter := argsort non_nans in
  let indexer := rev (map (fun p => nth p non_nan_idx 0) sorter) in
  indexer ++ nan_idx.

Definition sort_values_with (argsort : list spec_float -> list nat)
           (df : table) : table :=
  take df (nargsort_desc_with argsort (map chosen df)).

(** NumPy's generic introsort on float keys: [sort_values] is
    [sort_values_with generic_argsort]. *)
Definition generic_argsort (keys : list spec_float) : list nat :=
  NpSort.argsort spec_float PyFloat.ltb zero keys.

(** [df[df['chosen'] >= threshold]]; a comparison with a missing value
    is false. *)
Definition at_least (threshold : spec_float) (df : table) : table :=
  filter (fun r => PyFloat.leb threshold (chosen r)) df.

Inductive exn := ValueError (msg : string).

(** [pd.concat(frames, ignore_index=True)] *)
Definition concat (frames : list table) : exn + table :=
  match frames with
  | [] => inl (ValueError "No objects to concatenate")
  | _ :: _ => inr (List.concat frames)
  end.

End Pandas.

(* ===================================================================== *)
(** ** [parse_and_save]                                                   *)
(* ===================================================================== *)

(** The module-level parameters of the script. [date_str] is read from
    the clock when the module is loaded. *)
Record config := mk_config {
  analysis_name : string;
  date_str : string;
  score_threshold : spec_float
}.

(** The literal [0.6]. *)
Definition threshold_0_6 : spec_float := Eval cbv in of_decimal 6 1.

Definition default_config (date : string) : config :=
  mk_config "my_job" date threshold_0_6.

(** A [dict] with [str] keys: assignment to a key that is present keeps
    its position, a new key goes last. *)
Module Dict.
Definition dict (V : Type) := list (string * V).

Fixpoint set {V : Type} (d : dict V) (k : string) (v : V) : dict V :=
  match d with
  | [] => [(k, v)]
  | (k', v') :: d' =>
      if String.eqb k' k then (k', v) :: d' else (k', v') :: set d' k v
  end.

Fixpoint get {V : Type} (d : dict V) (k : string) : option V :=
  match d with
  | [] => None
  | (k', v') :: d' => if String.eqb k' k then Some v' else get d' k
  end.

Definition items {V : Type} (d : dict V) : list (string * V) := d.
Definition keys {V : Type} (d : dict V) : list string := map fst d.
End Dict.

(** What [to_csv] leaves on disk: the path, whether a header row is
    written, and the rows. ([create_folder] only makes directories and is
    not recorded.) *)
Inductive fs_write :=
| WriteTable (path : string) (header : bool) (rows : Pandas.table)
| WriteCounts (path : string) (rows : list (string * nat)).

(** The variables of [parse_and_save] that live across the loop. *)
Record state := mk_state {
  all_summary : list Pandas.table;
  stack_counts : Dict.dict nat;
  written : list fs_write
}.

Definition init_state : state := mk_state [] [] [].

Definition stack_path (basename : string) : string :=
  ("tm-stacks/" ++ basename ++ ".tab")%string.

(** The three tables of one combined file. *)
Definition sorted_table (basename text : string) : Pandas.table :=
  Pandas.sort_values (parse_records basename text).

Definition stack_table (cfg : config) (basename text : string) : Pandas.table :=
  Pandas.at_least (score_threshold cfg) (sorted_table basename text).

(** One iteration of [for alnfile in glob.glob('c-tm/all/*.aln')], on the
    file [alnfile] whose content is [text]. *)
Definition process_file (cfg : config) (st : state) (alnfile text : string)
  : state :=
  let basename := basename_of alnfile in
  let tab_out := ("c-tm/all_tab/" ++ basename ++ ".tab")%string in
  let df := parse_records basename text in
  let w1 := WriteTable tab_out true df in
  let df_sorted := Pandas.sort_values df in
  let sorted_out := ("c-tm/all_tab_sorted/" ++ basename ++ "_sorted.tab")%string in
  let w2 := WriteTable sorted_out true df_sorted in
  let stack := Pandas.at_least (score_threshold cfg) df_sorted in
  let w3 :=
    match stack with
    | [] => []
    | _ :: _ => [WriteTable (stack_path basename) false stack]
    end in
  mk_state (all_summary st ++ [df_sorted])
           (Dict.set (stack_counts st) basename (List.length stack))
           (written st ++ [w1; w2] ++ w3).

Definition process_files (cfg : config) (st : state)
           (files : list (string * string)) : state :=
  fold_left (fun st f => process_file cfg st (fst f) (snd f)) files st.

(** The outcome of a run: the files written, and the exception that ended
    it, if any. *)
Record outcome := mk_outcome {
  files_written : list fs_write;
  raised : option Pandas.exn
}.

Definition summary_path (cfg : config) (what : string) : string :=
  (analysis_name cfg ++ what ++ date_str cfg ++ ".tab")%string.

(** [parse_and_save()], on the files that [glob] lists, in its order. *)
Definition parse_and_save (cfg : config) (files : list (string * string))
  : outcome :=
  let st := process_files cfg init_state files in
  match Pandas.concat (all_summary st) with
  | inl e => mk_outcome (written st) (Some e)
  | inr combo =>
      let sc := Dict.items (stack_counts st) in
      mk_outcome
        (written st ++
           [WriteTable (summary_path cfg "_all_results_") true combo;
            WriteCounts (summary_path cfg "_stack_counts_") sc])
        None
  end.

(** What one combined file [(alnfile, text)] adds to [all_summary] and to
    [stack_counts]. *)
Definition base_of (f : string * string) : string := basename_of (fst f).

Definition sorted_of (f : string * string) : Pandas.table :=
  sorted_table (base_of f) (snd f).

Definition count_of (cfg : config) (f : string * string) : string * nat :=
  (base_of f, List.length (stack_table cfg (base_of f) (snd f))).

(* ===================================================================== *)
(** ** The paths of [parse_and_save]                                      *)
(* ===================================================================== *)

(** [tab_out] and [sorted_out] of the loop, and the path a [to_csv]
    call writes to. *)
Definition tab_path (basename : string) : string :=
  ("c-tm/all_tab/" ++ basename ++ ".tab")%string.

Definition sorted_path (basename : string) : string :=
  ("c-tm/all_tab_sorted/" ++ basename ++ "_sorted.tab")%string.

Definition path_of (w : fs_write) : string :=
  match w with
  | WriteTable path _ _ => path
  | WriteCounts path _ => path
  end.

(** What one combined file adds to the files written. *)
Definition writes_of (cfg : config) (f : string * string) : list fs_write :=
  written (process_file cfg init_state (fst f) (snd f)).

(* ===================================================================== *)
(** ** [create_folder], [run_tm_align] and [main]                         *)
(* ===================================================================== *)

(** What these functions do to their environment: the directories they
    ask for and the command lines they hand to the shell. Whether the
    operating system makes a directory, which paths [glob] lists and
    what the shell then does with a command line are given from outside
    (see [make_folder], [run_tm_align] and [Sh]). *)
Inductive action :=
| MakeDirs (path : string)
| System (command : string).

(** [os.makedirs(path, exist_ok=True)]: the request. [make_folder] adds
    the exception that the call may raise. *)
Definition create_folder (path : string) : list action := [MakeDirs path].

(** The folders [parse_and_save] asks for: three before the loop, and
    [os.path.dirname(sorted_out)] in every turn of it. *)
Definition folders_of_parse_and_save (files : list (string * string))
  : list action :=
  create_folder "c-tm/all_tab" ++ create_folder "c-tm/all_tab_sorted"
  ++ create_folder "tm-stacks"
  ++ flat_map (fun f => create_folder (Path.dirname (sorted_path (base_of f))))
              files.

(** [outfile] of [run_tm_align]. *)
Definition outfile (query templ out_dir : string) : string :=
  let qname := Path.basename query in
  let tname := Path.basename templ in
  Path.join out_dir
    (Path.splitext_root qname ++ "_" ++ Path.splitext_root tname ++ ".aln").

(** [f"TMalign {query} {templ} > {outfile}"] *)
Definition tmalign_command (query templ out_dir : string) : string :=
  ("TMalign " ++ query ++ " " ++ templ ++ " > "
     ++ outfile query templ out_dir)%string.

(** The exceptions that end a run of these functions. *)
Inductive error :=
| FileNotFoundError
| OSError
| EmbeddedNullByte.

(** What a run did to its environment, and the exception that ended
    it, if any. *)
Record progress := mk_progress {
  actions : list action;
  failure : option error
}.

(** One statement after another: an exception ends the run. *)
Definition and_then (r next : progress) : progress :=
  match failure r with
  | Some _ => r
  | None => mk_progress (actions r ++ actions next) (failure next)
  end.

(** [for x in l: body(x)] *)
Fixpoint for_each {A : Type} (body : A -> progress) (l : list A) : progress :=
  match l with
  | [] => mk_progress [] None
  | x :: l' => and_then (body x) (for_each body l')
  end.

(** [create_folder(path)] as a step of a run. [os.makedirs('')] raises
    [FileNotFoundError]; for any other path [os_says] is the answer of
    the operating system to the call, [None] when it returns. *)
Definition make_folder (os_says : string -> option error) (path : string)
  : progress :=
  mk_progress (create_folder path)
              (if String.eqb path "" then Some FileNotFoundError
               else os_says path).

Fixpoint has_nul (s : string) : bool :=
  match s with
  | EmptyString => false
  | String a s' => (Chars.code a =? 0) || has_nul s'
  end.

(** [os.system(command)]: the command line goes to [sh -c]; the exit
    status is not looked at. A command line with a NUL character raises
    [ValueError: embedded null byte] and no shell is started. *)
Definition system (command : string) : progress :=
  if has_nul command then mk_progress [] (Some EmbeddedNullByte)
  else mk_progress [System command] None.

(** [run_tm_align(query, template_dir, out_dir)]. [glob] answers
    [glob.glob] for the directories as they are at the call: the list of
    paths, or the exception it raises. *)
Definition run_tm_align (os_says : string -> option error)
           (glob : string -> error + list string)
           (query template_dir out_dir : string) : progress :=
  and_then (make_folder os_says out_dir)
    match glob (Path.join template_dir "*.pdb") with
    | inl e => mk_progress [] (Some e)
    | inr templs =>
        for_each (fun templ => system (tmalign_command query templ out_dir))
                 templs
    end.

(** [os.path.splitext(os.path.basename(query))[0]] *)
Definition query_root (query : string) : string :=
  Path.splitext_root (Path.basename query).

(** [f'c-tm/{root}'], the [out_dir] that [main] passes. *)
Definition out_dir_of (query : string) : string :=
  ("c-tm/" ++ query_root query)%string.

(** The last field of the command line of [cat]. It is the file that
    the shell redirects to when [sh] takes the root of the query as one
    plain word (see [Sh.parse]). *)
Definition combined_path (query : string) : string :=
  ("c-tm/all/" ++ query_root query ++ ".aln")%string.

(** [f"cat c-tm/{root}/*.aln > c-tm/all/{root}.aln"] *)
Definition cat_command (query : string) : string :=
  ("cat c-tm/" ++ query_root query ++ "/*.aln > " ++ combined_path query)%string.

(** One turn of the loop of [main]. *)
Definition main_step (os_says : string -> option error)
           (glob : string -> error + list string) (query : string)
  : progress :=
  and_then (run_tm_align os_says glob query "t" (out_dir_of query))
           (system (cat_command query)).

(** [main()]: the commands, then [parse_and_save], which is reached only
    if nothing was raised before. [glob0] answers [glob.glob('q/*.pdb')]
    at the start, [glob_at query] answers the calls made in the turn of
    [query], and [files] are the combined files that [parse_and_save]
    then finds, with their content. *)
Definition main (os_says : string -> option error)
           (glob0 : string -> error + list string)
           (glob_at : string -> string -> error + list string)
           (cfg : config) (files : list (string * string))
  : progress * option outcome :=
  let commands :=
    and_then (make_folder os_says "c-tm/all")
      match glob0 "q/*.pdb" with
      | inl e => mk_progress [] (Some e)
      | inr queries =>
          for_each (fun query => main_step os_says (glob_at query) query)
                   queries
      end in
  (commands,
   match failure commands with
   | Some _ => None
   | None => Some (parse_and_save cfg files)
   end).

(* ===================================================================== *)
(** ** Notions used to state the properties                               *)
(* ===================================================================== *)

Module FloatDefs.

(** Zero, a positive finite number or plus infinity. *)
Definition nonneg (x : spec_float) : Prop :=
  match x with
  | S754_zero false | S754_infinity false | S754_finite false _ _ => True
  | _ => False
  end.

(** The value of one score string when a failed [float] counts as 0.0
    for that string alone. *)
Definition value_or_zero (score : string) : spec_float :=
  match score_or_zero score with
  | Some x => x
  | None => zero
  end.

(** The chosen score as the specification words it: the larger of the
    two per-string values. *)
Definition spec_chosen (score1 score2 : string) : spec_float :=
  py_max (value_or_zero score1) (value_or_zero score2).

(** How many characters of [s] are in the class [c]. *)
Fixpoint count_chars (c : ascii -> bool) (s : string) : nat :=
  match s with
  | EmptyString => 0
  | String a s' => (if c a then 1 else 0) + count_chars c s'
  end.

Definition is_point (a : ascii) : bool := Chars.code a =? 46.

(** More than one point, or no digit. *)
Definition ill_formed (s : string) : bool :=
  (1 <? count_chars is_point s) || (count_chars Chars.is_digit s =? 0).

End FloatDefs.

(** What the patterns denote, and where a text is cut. *)
Module ReSpec.

(** Every character of [w] is in the class [c]. *)
Fixpoint all_chars (c : ascii -> bool) (w : string) : bool :=
  match w with
  | EmptyString => true
  | String a w' => c a && all_chars c w'
  end.

(** [denote r w g g']: the text [w] is matched by [r], and group 1,
    which held [g] before, holds [g'] after. *)
Fixpoint denote (r : regex) (w : string) (g g' : option string) : Prop :=
  match r with
  | Lit p => w = p /\ g' = g
  | Rep _ lo c => all_chars c w = true /\ lo <= String.length w /\ g' = g
  | Group r1 => (exists g1, denote r1 w g g1) /\ g' = Some w
  | Cat r1 r2 =>
      exists w1 w2 g1,
        w = (w1 ++ w2)%string /\ denote r1 w1 g g1 /\ denote r2 w2 g1 g'
  end.

(** A match found one position further to the right. *)
Definition shift (m : nat * nat * option string) : nat * nat * option string :=
  let '(i, n, g) := m in (S i, n, g).

(** [needle in hay] *)
Fixpoint contains (needle hay : string) : bool :=
  match lit needle hay with
  | Some _ => true
  | None =>
      match hay with
      | String _ hay' => contains needle hay'
      | EmptyString => false
      end
  end.

(** [Segments r text first others]: [text] is cut at the leftmost
    match of [r], [first] is what precedes that match, and what follows
    it is cut in the same way into [others]; a text without a match is
    one segment. *)
Inductive Segments (r : regex) : string -> string -> list string -> Prop :=
| Seg_last text :
    Re.search r text = None -> Segments r text text []
| Seg_cut seg m rest g b bs :
    Re.search r (seg ++ m ++ rest)%string
      = Some (String.length seg, String.length m, g) ->
    Segments r rest b bs ->
    Segments r (seg ++ m ++ rest)%string seg (b :: bs).

(** [post] does not go on with a character of the class [c]. *)
Definition stops (c : ascii -> bool) (post : string) : Prop :=
  match post with
  | String a _ => c a = false
  | EmptyString => True
  end.

(** [suf] starts with the label, white space and the value [f], a run of
    the class [c] that ends where [f] ends. *)
Definition value_at (label : string) (c : ascii -> bool) (suf f : string)
  : Prop :=
  exists ws post,
    suf = (label ++ ws ++ f ++ post)%string
    /\ all_chars Chars.is_space ws = true
    /\ all_chars c f = true /\ f <> "" /\ stops c post.

(** [suf] starts with the label, white space and a character of [c]. *)
Definition has_value (label : string) (c : ascii -> bool) (suf : string)
  : Prop :=
  exists ws a post,
    suf = (label ++ ws ++ String a post)%string
    /\ all_chars Chars.is_space ws = true /\ c a = true.

(** [f] is the value at the first place of [block] that has one. *)
Definition first_value (label : string) (c : ascii -> bool) (block f : string)
  : Prop :=
  exists pre suf,
    block = (pre ++ suf)%string /\ value_at label c suf f
    /\ forall pre' suf',
         block = (pre' ++ suf')%string ->
         String.length pre' < String.length pre ->
         ~ has_value label c suf'.

(** No place of [block] has a value. *)
Definition no_value (label : string) (c : ascii -> bool) (block : string)
  : Prop :=
  forall pre suf, block = (pre ++ suf)%string -> ~ has_value label c suf.

(** [block] holds a TM-score line for [chain] with the score [f]: the
    score, then the remark on the normalisation up to a closing
    parenthesis, with no line feed in between. *)
Definition tm_line (chain block f : string) : Prop :=
  exists pre ws ws' rest post,
    block = (pre ++ "TM-score=" ++ ws ++ f ++ ws'
               ++ ("(if normalized by length of " ++ chain ++ ",")
               ++ rest ++ ")" ++ post)%string
    /\ all_chars Chars.is_space ws = true /\ all_chars Chars.is_space ws' = true
    /\ all_chars Chars.is_num_char f = true /\ f <> ""
    /\ all_chars Chars.is_dot rest = true.

(** [text] holds a banner: stars, white space, [TM-align], and further
    stars on the same line. *)
Definition banner_line (text : string) : Prop :=
  exists pre stars ws rest stars' post,
    text = (pre ++ stars ++ ws ++ "TM-align" ++ rest ++ stars' ++ post)%string
    /\ all_chars Chars.is_star stars = true /\ stars <> ""
    /\ all_chars Chars.is_space ws = true
    /\ all_chars Chars.is_dot rest = true
    /\ all_chars Chars.is_star stars' = true /\ stars' <> "".

(** A character of a banner between [TM-align] and the stars that close
    it: no line feed and no star. *)
Definition is_title_char (a : ascii) : bool :=
  Chars.is_dot a && negb (Chars.is_star a).

(** [m] is a banner: stars, white space, [TM-align], the rest of the
    title without a star or a line feed, stars. *)
Definition banner_text (m : string) : Prop :=
  exists stars ws rest stars',
    m = (stars ++ ws ++ "TM-align" ++ rest ++ stars')%string
    /\ all_chars Chars.is_star stars = true /\ stars <> ""
    /\ all_chars Chars.is_space ws = true
    /\ all_chars is_title_char rest = true
    /\ all_chars Chars.is_star stars' = true /\ stars' <> "".

(** [suf] starts with the banner [m], which takes all the stars that
    close it; [post] follows. *)
Definition banner_at (suf m post : string) : Prop :=
  suf = (m ++ post)%string /\ banner_text m /\ stops Chars.is_star post.

(** No banner starts anywhere in [text]. *)
Definition no_banner (text : string) : Prop :=
  forall pre suf m post, text = (pre ++ suf)%string -> ~ banner_at suf m post.

(** [Cuts text first others]: [text] is [first], the leftmost banner of
    [text], and what follows that banner, cut in the same way into
    [others]; a text without a banner is one segment. The banners are
    told by [banner_text], not by the matcher. *)
Inductive Cuts : string -> string -> list string -> Prop :=
| Cuts_none text :
    no_banner text -> Cuts text text []
| Cuts_banner seg m rest b bs :
    banner_at (m ++ rest) m rest ->
    (forall pre suf m' post,
        (seg ++ m ++ rest)%string = (pre ++ suf)%string ->
        String.length pre < String.length seg -> ~ banner_at suf m' post) ->
    Cuts rest b bs ->
    Cuts (seg ++ m ++ rest)%string seg (b :: bs).

End ReSpec.

(** The insertion sort of NumPy, on lists. *)
Module SortSpec.

Section InsertFromRight.
Variable K : Type.
Variable less : K -> K -> bool.
Variable dflt : K.
Variable v : list K.

(** The sorted part is given last entry first: the new index [x]
    passes every entry whose key is above its own and stops at the
    first that is not. *)
Fixpoint insert_from_right (x : nat) (sorted_rev : list nat) : list nat :=
  match sorted_rev with
  | y :: rest =>
      if less (NpSort.val K dflt v x) (NpSort.val K dflt v y)
      then y :: insert_from_right x rest
      else x :: sorted_rev
  | [] => [x]
  end.

Definition insert_all (xs sorted_rev : list nat) : list nat :=
  fold_left (fun acc x => insert_from_right x acc) xs sorted_rev.

(** No index is directly followed by one with a larger key. *)
Fixpoint not_rising (l : list nat) : Prop :=
  match l with
  | x :: (y :: _) as tl =>
      less (NpSort.val K dflt v x) (NpSort.val K dflt v y) = false
      /\ not_rising tl
  | _ => True
  end.
End InsertFromRight.

(** [a'] is [a] outside the positions [pl..pr], and each entry it has
    there is one that [a] has there. *)
Definition moved_within (a a' : list nat) (pl pr : nat) : Prop :=
  List.length a' = List.length a
  /\ (forall p, p < pl \/ pr < p -> NpSort.get a' p = NpSort.get a p)
  /\ (forall p, pl <= p <= pr ->
       exists q, pl <= q <= pr /\ NpSort.get a' p = NpSort.get a q).

(** In a heap indexed from 1 the children of [p] are [2p] and [2p + 1]. *)
Definition heap_edge (p c : nat) : Prop := c = 2 * p \/ c = 2 * p + 1.

Section Ranges.
Variable K : Type.
Variable less : K -> K -> bool.
Variable dflt : K.
Variable v : list K.

(** From [pl] to [pr] no key is directly followed by a smaller one. *)
Definition sorted_range (a : list nat) (pl pr : nat) : Prop :=
  forall p, pl <= p < pr ->
  less (NpSort.val K dflt v (NpSort.get a (S p)))
       (NpSort.val K dflt v (NpSort.get a p)) = false.

(** [a'] is [a] with the positions [pl..pr] sorted. *)
Definition sorts (a a' : list nat) (pl pr : nat) : Prop :=
  moved_within a a' pl pr /\ Permutation a a' /\ sorted_range a' pl pr.

(** No parent from [lo] on has a key below that of a child, in the heap
    of [n] entries that starts at position [base]. *)
Definition heap_from (a : list nat) (base lo n : nat) : Prop :=
  forall p c, lo <= p -> c <= n -> heap_edge p c ->
  less (NpSort.val K dflt v (NpSort.hget a base p))
       (NpSort.val K dflt v (NpSort.hget a base c)) = false.
End Ranges.

(** No record is directly followed by one with a larger chosen score. *)
Fixpoint descending (l : list record) : Prop :=
  match l with
  | r1 :: (r2 :: _) as tl =>
      PyFloat.ltb (chosen r1) (chosen r2) = false /\ descending tl
  | _ => True
  end.

(** The records whose chosen score equals [k]. *)
Definition same_score (k : spec_float) (r : record) : bool :=
  PyFloat.eqb (chosen r) k.

(** The records whose chosen score is missing. *)
Definition missing_score (r : record) : bool := is_nan (chosen r).

Definition present (r : record) : bool := negb (missing_score r).

(** What [numpy.argsort] returns for keys that are numbers, whichever
    sort it runs: the positions of the keys, each once, in an order in
    which no key is directly followed by a smaller one. Nothing is said
    about the order of equal keys. *)
Definition sorts_ascending (argsort : list spec_float -> list nat) : Prop :=
  forall keys : list spec_float,
    Forall (fun k => is_nan k = false) keys ->
    Permutation (seq 0 (List.length keys)) (argsort keys)
    /\ not_rising spec_float PyFloat.ltb zero keys (rev (argsort keys)).

End SortSpec.

(** What [glob.glob('c-tm/all/*.aln')] lists: the files of that directory
    whose name is a stem followed by [.aln]; a stem holds no separator
    and does not start with a point ([*] skips hidden files). *)
Module Glob.

Definition aln_path (stem : string) : string :=
  ("c-tm/all/" ++ stem ++ ".aln")%string.

Definition stem_ok (stem : string) : bool :=
  negb (ReSpec.contains "/" stem)
  && match stem with
     | String a _ => negb (Ascii.eqb a ".")
     | EmptyString => false
     end.

(** What [glob.glob] lists for [dir/*.pdb]. *)
Definition pdb_path (dir stem : string) : string :=
  (dir ++ "/" ++ stem ++ ".pdb")%string.

End Glob.

(** How [sh -c] reads a command line of plain words. [os.system] hands
    its string to the shell as it is: the shell cuts it into fields at
    the blanks, takes the field after [>] as the file that standard
    output goes to, replaces a field with a [*] by the paths that match
    it, and hands the other fields to the program unchanged. Only
    command lines whose fields are made of letters, digits and
    [_ - . /] (and [*] in a pattern) are read here: [parse] answers
    [None] for every other one, among them all those with a quote, a
    dollar, a back quote, a semicolon or a second redirection, and those
    that start with a reserved word. *)
Module Sh.

Definition is_plain (a : ascii) : bool :=
  let n := Chars.code a in
  ((48 <=? n) && (n <=? 57)) || ((65 <=? n) && (n <=? 90))
  || ((97 <=? n) && (n <=? 122))
  || (n =? 95) || (n =? 45) || (n =? 46) || (n =? 47).

(** A word that the shell takes as it is. *)
Definition plain (w : string) : bool :=
  ReSpec.all_chars is_plain w && negb (String.eqb w "").

Definition is_pattern_char (a : ascii) : bool := is_plain a || Chars.is_star a.

Definition is_blank (a : ascii) : bool := Chars.code a =? 32.

(** The fields of a command line; [cur] is the field being read. *)
Fixpoint fields_from (s cur : string) : list string :=
  match s with
  | EmptyString => if String.eqb cur "" then [] else [cur]
  | String a s' =>
      if is_blank a then
        if String.eqb cur "" then fields_from s' ""
        else cur :: fields_from s' ""
      else fields_from s' (cur ++ String a "")
  end.

Definition fields (s : string) : list string := fields_from s "".

Inductive word :=
| Literal (w : string)
| Pattern (p : string).

(** A simple command: the words of the program and its arguments, and
    the file that standard output is redirected to. *)
Record simple_command := mk_simple_command {
  argv : list word;
  stdout_to : option string
}.

Definition classify (w : string) : option word :=
  if plain w then Some (Literal w)
  else if ReSpec.all_chars is_pattern_char w && negb (String.eqb w "")
       then Some (Pattern w)
       else None.

Fixpoint read_words (ws : list string) : option (list word * option string) :=
  match ws with
  | [] => Some ([], None)
  | w :: ws' =>
      if String.eqb w ">" then
        match ws' with
        | t :: ws'' =>
            match read_words ws'' with
            | Some (args, None) => if plain t then Some (args, Some t) else None
            | _ => None
            end
        | [] => None
        end
      else
        match classify w, read_words ws' with
        | Some x, Some (args, out) => Some (x :: args, out)
        | _, _ => None
        end
  end.

Definition reserved : list string :=
  ["if"; "then"; "else"; "elif"; "fi"; "do"; "done"; "case"; "esac";
   "while"; "until"; "for"; "in"; "function"; "select"; "time"; "coproc"].

Definition parse (command : string) : option simple_command :=
  match read_words (fields command) with
  | Some (Literal name :: args, out) =>
      if existsb (String.eqb name) reserved then None
      else Some (mk_simple_command (Literal name :: args) out)
  | _ => None
  end.

End Sh.

(* ===================================================================== *)
(** ** Sample inputs                                                      *)
(* ===================================================================== *)

(** Pieces of TM-align reports, for the examples. *)
Module Sample.

Definition lf : string := String (ascii_of_nat 10) "".

(** The head of a report: the banner is the second line. *)
Definition banner : string :=
  (" *********************************************************************" ++ lf ++
   " * TM-align (Version 20190822): protein structure alignment          *" ++ lf ++
   " * Reference: Y Zhang and J Skolnick, Nucl Acids Res 33, 2302-9 (2005) *" ++ lf ++
   " *********************************************************************" ++ lf)%string.

Definition name_line (t : string) : string :=
  ("Name of Chain_2: " ++ t ++ lf)%string.

Definition tm_line (chain value : string) : string :=
  ("TM-score= " ++ value ++ " (if normalized by length of " ++ chain
     ++ ", i.e., LN=136, d0=4.42)" ++ lf)%string.

(** The body of a report on template [t], with the given score lines. *)
Definition body (t scores : string) : string :=
  (lf ++ "Name of Chain_1: qA.pdb (to be superimposed onto Chain_2)" ++ lf
      ++ name_line t
      ++ "Length of Chain_1: 136 residues" ++ lf
      ++ "Length of Chain_2: 142 residues" ++ lf ++ lf
      ++ "Aligned length= 120, RMSD=   2.31, Seq_ID=n_identical/n_aligned= 0.175"
      ++ lf ++ scores)%string.

Definition report (t scores : string) : string := (banner ++ body t scores)%string.

(** A block whose first score has two points and whose second is 0.65. *)
Definition bad_tm1_block : string :=
  body "t1" (tm_line "Chain_1" "1.2.3" ++ tm_line "Chain_2" "0.65")%string.

Definition bad_tm1_record : record := parse_block "qA" bad_tm1_block.

(** A block without a [Name of Chain_2] line. *)
Definition nameless_block : string :=
  (lf ++ "Length of Chain_1: 136 residues" ++ lf ++ tm_line "Chain_1" "0.40")%string.

Definition nameless_record : record := parse_block "qA" nameless_block.

(** A block whose template was given to TM-align as a path, the way
    [run_tm_align] calls it. *)
Definition path_block : string := body "t/e1bamA1.pdb" "".

Definition path_record : record := parse_block "qA" path_block.

(** A combined file of eighteen reports, each with TM-score 0.5. *)
Definition tie_names : list string :=
  ["t01"; "t02"; "t03"; "t04"; "t05"; "t06"; "t07"; "t08"; "t09";
   "t10"; "t11"; "t12"; "t13"; "t14"; "t15"; "t16"; "t17"; "t18"].

Definition tie_report (t : string) : string :=
  report t (tm_line "Chain_1" "0.5").

Definition ties18 : string := String.concat "" (map tie_report tie_names).

(** The same with the first three reports only. *)
Definition ties3 : string :=
  String.concat "" (map tie_report ["t01"; "t02"; "t03"]).

Definition half : spec_float := Eval cbv in of_decimal 5 1.

(** A combined file with one report, whose score is exactly 0.6. *)
Definition boundary_text : string := report "t1" (tm_line "Chain_1" "0.6").

(** Twenty distinct keys, out of order. *)
Definition shuffled20 : list nat :=
  map (fun i => (i * 7 + 3) mod 20) (seq 0 20).

End Sample.

(** The scenario of the specification: query [qA] against the templates
    [t1] (scores 0.72 and 0.65) and [t2] (score 0.40 alone), and a second
    combined file without any block. *)
Module Scenario.
Import Sample.

Definition qA_text : string :=
  (report "t1" (tm_line "Chain_1" "0.72" ++ tm_line "Chain_2" "0.65")
     ++ report "t2" (tm_line "Chain_1" "0.40"))%string.

Definition files : list (string * string) :=
  [(Glob.aln_path "qA", qA_text); (Glob.aln_path "qB", "TMalign: not found")].

Definition cfg : config := default_config "20261103".

(** Another configuration and another state of the loop. *)
Definition other_cfg : config := mk_config "rerun" "20270101" zero.

Definition later_state : state :=
  process_file cfg init_state (Glob.aln_path "qB") "TMalign: not found".

(** The answers of [glob.glob] in that scenario, and an operating
    system that makes every folder it is asked for. *)
Definition glob0 (pattern : string) : error + list string :=
  inr (if String.eqb pattern "q/*.pdb" then ["q/qA.pdb"; "q/qB.pdb"] else []).

Definition glob_at (query pattern : string) : error + list string :=
  inr (if String.eqb pattern "t/*.pdb" then ["t/t1.pdb"; "t/t2.pdb"] else []).

Definition os_says (path : string) : option error := None.

End Scenario.
(* ===================================================================== *)
(** * Properties                                                          *)
(* ===================================================================== *)

(** ** Strings *)

Module StrFacts.

Lemma sapp_nil_r s : (s ++ "")%string = s.
Proof. induction s; simpl; congruence. Qed.

Lemma sapp_assoc s t u : ((s ++ t) ++ u)%string = (s ++ t ++ u)%string.
Proof. induction s; simpl; congruence. Qed.

Lemma slength_app s t :
  String.length (s ++ t) = String.length s + String.length t.
Proof. induction s; simpl; congruence. Qed.

Lemma substring_0_app w s : substring 0 (String.length w) (w ++ s) = w.
Proof.
  induction w as [|a w IH]; simpl.
  - now destruct s.
  - now rewrite IH.
Qed.

Lemma drop_app w s : Path.drop (String.length w) (w ++ s) = s.
Proof. induction w; simpl; auto. Qed.

Lemma lit_sound p : forall s s', lit p s = Some s' -> s = (p ++ s')%string.
Proof.
  induction p as [|a p IH]; intros s s'; simpl.
  - now intros [= ->].
  - destruct s as [|b s]; [discriminate|].
    destruct (Ascii.eqb_spec a b) as [->|]; [|discriminate].
    intros H. now rewrite (IH _ _ H).
Qed.

Lemma lit_complete p s : lit p (p ++ s) = Some s.
Proof.
  induction p as [|a p IH]; simpl; [reflexivity|].
  now rewrite Ascii.eqb_refl.
Qed.

Lemma lit_app p q s : lit (p ++ q) s <> None -> lit p s <> None.
Proof.
  revert s. induction p as [|a p IH]; intros s; simpl; [congruence|].
  destruct s as [|b s]; [congruence|].
  destruct (Ascii.eqb a b); [apply IH | congruence].
Qed.

Lemma rev_string_app acc : forall tl,
  rev_string acc tl = (rev_string acc "" ++ tl)%string.
Proof.
  induction acc as [|a acc IH]; intros tl; simpl; [reflexivity|].
  rewrite IH, (IH (String a "")), sapp_assoc. reflexivity.
Qed.

End StrFacts.

(** ** Soundness of the matcher *)

Module ReFacts.
Import ReSpec StrFacts.

Lemma rep_greedy_sound {R} c (k : string -> nat -> option R) res :
  forall s lo n,
    rep_greedy c lo s n k = Some res ->
    exists w s',
      s = (w ++ s')%string /\ all_chars c w = true /\ lo <= String.length w
      /\ k s' (n + String.length w) = Some res.
Proof.
  assert (Hstop : forall s lo n,
             match lo with 0 => k s n | S _ => None end = Some res ->
             exists w s',
               s = (w ++ s')%string /\ all_chars c w = true
               /\ lo <= String.length w /\ k s' (n + String.length w) = Some res).
  { intros s lo n H. destruct lo; [|discriminate].
    exists "", s. simpl. rewrite Nat.add_0_r. auto. }
  induction s as [|a s IH]; intros lo n H; simpl in H.
  - now apply Hstop.
  - destruct (c a) eqn:Hc; [|now apply Hstop].
    destruct (rep_greedy c (pred lo) s (S n) k) as [r|] eqn:Hrec.
    + injection H as ->. apply IH in Hrec.
      destruct Hrec as (w & s' & -> & Hall & Hlo & Hk).
      exists (String a w), s'. simpl. rewrite Hc, Hall.
      rewrite <- Nat.add_succ_comm. repeat split; auto. lia.
    + now apply Hstop.
Qed.

Lemma rep_lazy_sound {R} c (k : string -> nat -> option R) res :
  forall s lo n,
    rep_lazy c lo s n k = Some res ->
    exists w s',
      s = (w ++ s')%string /\ all_chars c w = true /\ lo <= String.length w
      /\ k s' (n + String.length w) = Some res.
Proof.
  assert (Hstep : forall a s lo n,
             (forall lo n, rep_lazy c lo s n k = Some res ->
                exists w s',
                  s = (w ++ s')%string /\ all_chars c w = true
                  /\ lo <= String.length w
                  /\ k s' (n + String.length w) = Some res) ->
             (if c a then rep_lazy c (pred lo) s (S n) k else None) = Some res ->
             exists w s',
               String a s = (w ++ s')%string /\ all_chars c w = true
               /\ lo <= String.length w /\ k s' (n + String.length w) = Some res).
  { intros a s lo n IH H. destruct (c a) eqn:Hc; [|discriminate].
    apply IH in H. destruct H as (w & s' & -> & Hall & Hlo & Hk).
    exists (String a w), s'. simpl. rewrite Hc, Hall.
    rewrite <- Nat.add_succ_comm. repeat split; auto. lia. }
  induction s as [|a s IH]; intros lo n H.
  - destruct lo; simpl in H; [|discriminate].
    destruct (k "" n) eqn:Hk; [|discriminate]. injection H as ->.
    exists "", "". simpl. rewrite Nat.add_0_r. auto.
  - destruct lo as [|lo']; simpl in H.
    + destruct (k (String a s) n) eqn:Hk.
      * injection H as ->. exists "", (String a s). simpl.
        rewrite Nat.add_0_r. auto.
      * now apply (Hstep a s 0 n IH).
    + now apply (Hstep a s (S lo') n IH).
Qed.

(** Whatever [run] answers was answered by the rest of the pattern,
    after a text that the pattern denotes. *)
Lemma run_sound {R} (r : regex) :
  forall s n g (k : string -> nat -> option string -> option R) res,
    run r s n g k = Some res ->
    exists w s' g',
      s = (w ++ s')%string /\ denote r w g g'
      /\ k s' (n + String.length w) g' = Some res.
Proof.
  induction r as [p|gr lo c|r1 IH1|r1 IH1 r2 IH2]; intros s n g k res H; simpl in H.
  - destruct (lit p s) as [s'|] eqn:Hl; [|discriminate].
    apply lit_sound in Hl. exists p, s', g. simpl. auto.
  - destruct gr.
    + apply rep_greedy_sound in H. destruct H as (w & s' & -> & Hall & Hlo & Hk).
      exists w, s', g. simpl. auto.
    + apply rep_lazy_sound in H. destruct H as (w & s' & -> & Hall & Hlo & Hk).
      exists w, s', g. simpl. auto.
  - apply IH1 in H. destruct H as (w & s' & g1 & -> & Hd & Hk).
    exists w, s', (Some w). simpl. repeat split; eauto.
    replace (n + String.length w - n) with (String.length w) in Hk by lia.
    now rewrite substring_0_app in Hk.
  - apply IH1 in H. destruct H as (w1 & s1 & g1 & -> & Hd1 & Hk1).
    apply IH2 in Hk1. destruct Hk1 as (w2 & s2 & g2 & -> & Hd2 & Hk2).
    exists (w1 ++ w2)%string, s2, g2. simpl.
    rewrite sapp_assoc, slength_app, Nat.add_assoc.
    repeat split; eauto 10.
Qed.

Lemma match_here_sound r s n g :
  match_here r s = Some (n, g) ->
  exists w s',
    s = (w ++ s')%string /\ n = String.length w /\ denote r w None g.
Proof.
  unfold match_here. intros H. apply run_sound in H.
  destruct H as (w & s' & g' & -> & Hd & [= <- <-]).
  exists w, s'. auto.
Qed.

End ReFacts.

(** ** Searching and splitting *)

Module SearchFacts.
Import ReSpec StrFacts ReFacts.

Lemma search_from_shift r : forall s pos,
  search_from r s (S pos) = option_map shift (search_from r s pos).
Proof.
  induction s as [|a s IH]; intros pos; simpl.
  - now destruct (match_here r "") as [[n g]|].
  - destruct (match_here r (String a s)) as [[n g]|]; [reflexivity|].
    apply IH.
Qed.

Lemma search_cons_none r a s :
  match_here r (String a s) = None ->
  Re.search r (String a s) = option_map shift (Re.search r s).
Proof.
  intros H. unfold Re.search. simpl. rewrite H. apply search_from_shift.
Qed.

(** A pattern that starts with a literal is found only in a text that
    contains the literal. *)
Lemma match_here_lit p r s :
  match_here (Cat (Lit p) r) s <> None -> lit p s <> None.
Proof.
  unfold match_here. simpl. destruct (lit p s); congruence.
Qed.

Lemma search_from_lit_contains p r : forall s pos,
  search_from (Cat (Lit p) r) s pos <> None -> contains p s = true.
Proof.
  induction s as [|a s IH]; intros pos H; simpl in *.
  - destruct (match_here (Cat (Lit p) r) "") as [[n g]|] eqn:Hm; [|congruence].
    assert (Hl : lit p "" <> None) by (apply (match_here_lit p r); congruence).
    now destruct (lit p "").
  - destruct (match_here (Cat (Lit p) r) (String a s)) as [[n g]|] eqn:Hm.
    + assert (Hl : lit p (String a s) <> None)
        by (apply (match_here_lit p r); congruence).
      now destruct (lit p (String a s)).
    + destruct (lit p (String a s)); [reflexivity|]. now apply IH with (S pos).
Qed.

Lemma not_contains_no_match p r s :
  contains p s = false -> Re.search (Cat (Lit p) r) s = None.
Proof.
  intros H. destruct (Re.search (Cat (Lit p) r) s) eqn:Hs; [|reflexivity].
  assert (Hc : contains p s = true)
    by (apply (search_from_lit_contains p r s 0); unfold Re.search in Hs; congruence).
  congruence.
Qed.

Lemma contains_app p q : forall s,
  contains (p ++ q) s = true -> contains p s = true.
Proof.
  induction s as [|a s IH]; simpl; intros H.
  - destruct (lit (p ++ q) "") eqn:Hl; [|discriminate].
    assert (Hp : lit p "" <> None) by (apply lit_app with q; congruence).
    now destruct (lit p "").
  - destruct (lit (p ++ q) (String a s)) eqn:Hl.
    + assert (Hp : lit p (String a s) <> None) by (apply lit_app with q; congruence).
      now destruct (lit p (String a s)).
    + destruct (lit p (String a s)); auto.
Qed.

(** A field whose label is not in the block is empty. *)
Lemma field_without_label p r block :
  contains p block = false -> field (Cat (Lit p) r) block = "".
Proof.
  intros H. unfold field. now rewrite not_contains_no_match.
Qed.

(** The skipped characters are those of the match. *)
Lemma split_go_skip r : forall s n acc,
  split_go r s n acc = split_go r (Path.drop n s) 0 acc.
Proof.
  induction s as [|a s IH]; intros n acc.
  - now destruct n.
  - destruct n as [|n]; [reflexivity|]. simpl. apply IH.
Qed.

Lemma Segments_cons r a s first others :
  match_here r (String a s) = None ->
  Segments r s first others ->
  Segments r (String a s) (String a first) others.
Proof.
  intros Hm Hseg. revert Hm.
  destruct Hseg as [text Hnone|seg m rest g b bs Hs Hrest]; intros Hm.
  - apply Seg_last. rewrite search_cons_none by assumption. now rewrite Hnone.
  - change (String a (seg ++ m ++ rest)) with (String a seg ++ m ++ rest)%string.
    apply Seg_cut with g; [|assumption].
    change (String a seg ++ m ++ rest)%string with (String a (seg ++ m ++ rest)).
    rewrite search_cons_none by assumption. now rewrite Hs.
Qed.

Section Split.
Variable r : regex.
(** The pattern has no empty match. *)
Hypothesis nonempty : forall s g, match_here r s <> Some (0, g).

Lemma split_go_segments : forall len s,
  String.length s <= len ->
  forall acc, exists first others,
    split_go r s 0 acc = rev_string acc first :: others
    /\ Segments r s first others.
Proof.
  induction len as [|len IH]; intros s Hlen acc.
  - destruct s; [|simpl in Hlen; lia].
    exists "", []. split; [reflexivity|].
    apply Seg_last. unfold Re.search. simpl.
    destruct (match_here r "") as [[n g]|] eqn:Hm; [|reflexivity].
    exfalso. pose proof Hm as Hm'.
    apply match_here_sound in Hm'. destruct Hm' as (w & s' & Hw & -> & _).
    destruct w; [|discriminate]. now apply (nonempty "" g).
  - destruct s as [|a s]; [apply (IH ""); simpl; lia|].
    simpl in Hlen. simpl split_go.
    destruct (match_here r (String a s)) as [[[|n] g]|] eqn:Hm.
    + now apply nonempty in Hm.
    + pose proof Hm as Hm'.
      apply match_here_sound in Hm'. destruct Hm' as (w & rest & Hw & Hn & _).
      destruct w as [|a' w]; [discriminate|].
      simpl in Hw, Hn. injection Hw as <- ->. injection Hn as ->.
      rewrite split_go_skip, drop_app.
      destruct (IH rest) with (acc := @nil ascii) as (first' & others' & Heq & Hseg).
      { rewrite slength_app in Hlen. lia. }
      exists "", (first' :: others'). split.
      * now rewrite Heq.
      * apply (Seg_cut r "" (String a w) rest g); [|assumption].
        unfold Re.search. simpl append. simpl search_from. now rewrite Hm.
    + destruct (IH s) with (acc := a :: acc) as (first & others & Heq & Hseg);
        [lia|].
      exists (String a first), others. split; [exact Heq|].
      now apply Segments_cons.
Qed.

Lemma split_segments s :
  exists first others,
    Re.split r s = first :: others /\ Segments r s first others.
Proof.
  destruct (split_go_segments (String.length s) s (le_n _) [])
    as (first & others & Heq & Hseg).
  exists first, others. split; assumption.
Qed.
End Split.

Lemma Segments_none r s first others :
  Segments r s first others -> Re.search r s = None ->
  first = s /\ others = [].
Proof.
  intros Hseg Hnone. inversion Hseg; subst; [auto | congruence].
Qed.

Lemma banner_match_nonempty s g : match_here Pat.banner s <> Some (0, g).
Proof.
  intros H. apply match_here_sound in H.
  destruct H as (w & s' & _ & Hlen & Hd).
  simpl in Hd. destruct Hd as (w1 & w2 & g1 & -> & (_ & Hlo & _) & _).
  rewrite slength_app in Hlen. lia.
Qed.

Lemma search_from_sound r : forall s pos i n g,
  search_from r s pos = Some (i, n, g) ->
  exists pre suf, s = (pre ++ suf)%string /\ match_here r suf = Some (n, g).
Proof.
  induction s as [|a s IH]; intros pos i n g H; simpl in H.
  - destruct (match_here r "") as [[n' g']|] eqn:Hm; [|discriminate].
    injection H as <- <- <-. now exists "", "".
  - destruct (match_here r (String a s)) as [[n' g']|] eqn:Hm.
    + injection H as <- <- <-. now exists "", (String a s).
    + apply IH in H. destruct H as (pre & suf & -> & Hm').
      now exists (String a pre), suf.
Qed.

(** What a TM-score group captures is made of digits and points, the
    strings on which [py_float] is [float]. *)
Lemma tm_group_is_numeric chain block :
  all_chars Chars.is_num_char (field (Pat.tm chain) block) = true.
Proof.
  unfold field, Re.search.
  destruct (search_from (Pat.tm chain) block 0) as [[[i n] g]|] eqn:Hs;
    [|reflexivity].
  apply search_from_sound in Hs. destruct Hs as (pre & suf & _ & Hm).
  apply match_here_sound in Hm. destruct Hm as (w & s' & _ & _ & Hd).
  unfold Pat.tm in Hd. simpl in Hd.
  destruct Hd as (w1 & w2 & g1 & _ & (_ & ->) & Hd).
  destruct Hd as (w3 & w4 & g2 & _ & (_ & _ & ->) & Hd).
  destruct Hd as (w5 & w6 & g3 & _ & ((g' & Hnum & _) & ->) & Hd).
  destruct Hd as (w7 & w8 & g4 & _ & (_ & _ & ->) & Hd).
  destruct Hd as (w9 & w10 & g5 & _ & (_ & ->) & Hd).
  destruct Hd as (w11 & w12 & g6 & _ & (_ & _ & ->) & (_ & ->)).
  exact Hnum.
Qed.

End SearchFacts.

(** ** Greedy and lazy repetition, and where a search stops *)

Module MatchFacts.
Import ReSpec StrFacts ReFacts.

Section Greedy.
Context {R : Type}.
Variable c : ascii -> bool.
Variable k : string -> nat -> option R.

(** A greedy repetition that may take nothing fails only if what
    follows it fails. *)
Lemma rep_greedy_0_succeeds : forall s n,
  k s n <> None -> rep_greedy c 0 s n k <> None.
Proof.
  intros [|a s] n H; simpl; [exact H|].
  destruct (c a); [|exact H]. now destruct (rep_greedy c 0 s (S n) k).
Qed.

Lemma rep_greedy_over_run rest : forall ws n,
  all_chars c ws = true -> (forall m, k rest m <> None) ->
  rep_greedy c 0 (ws ++ rest) n k <> None.
Proof.
  induction ws as [|a ws IH]; intros n Hws Hk.
  - simpl. apply rep_greedy_0_succeeds, Hk.
  - simpl in Hws. apply andb_true_iff in Hws. destruct Hws as [Ha Hws].
    simpl. rewrite Ha.
    destruct (rep_greedy c 0 (ws ++ rest) (S n) k) eqn:E; [discriminate|].
    now apply IH in E.
Qed.

Hypothesis k_total : forall s n, k s n <> None.

Lemma rep_greedy_total : forall s n, rep_greedy c 0 s n k <> None.
Proof.
  induction s as [|a s IH]; intros n; simpl; [apply k_total|].
  destruct (c a); [|apply k_total].
  destruct (rep_greedy c 0 s (S n) k) eqn:E; [discriminate|].
  now apply IH in E.
Qed.

(** With nothing after it that can fail, a greedy repetition takes the
    whole run. *)
Lemma rep_greedy_max res : forall s lo n,
  rep_greedy c lo s n k = Some res ->
  exists w s',
    s = (w ++ s')%string /\ all_chars c w = true /\ lo <= String.length w
    /\ k s' (n + String.length w) = Some res /\ stops c s'.
Proof.
  induction s as [|a s IH]; intros lo n H; simpl in H.
  - destruct lo; [|discriminate]. exists "", "". simpl.
    rewrite Nat.add_0_r. auto.
  - destruct (c a) eqn:Hc.
    + destruct (rep_greedy c (pred lo) s (S n) k) as [r|] eqn:Hrec.
      * injection H as ->. apply IH in Hrec.
        destruct Hrec as (w & s' & -> & Hall & Hlo & Hk & Hst).
        exists (String a w), s'. simpl. rewrite Hc, Hall.
        rewrite <- Nat.add_succ_comm. repeat split; auto. lia.
      * destruct lo; [|discriminate]. now apply rep_greedy_total in Hrec.
    + destruct lo; [|discriminate]. exists "", (String a s). simpl.
      rewrite Nat.add_0_r. auto.
Qed.

End Greedy.

Lemma length_nonempty (w : string) : 1 <= String.length w -> w <> "".
Proof. intros H ->. simpl in H. lia. Qed.

(** [search_from] answers with the first position at which the pattern
    matches. *)
Lemma search_from_first r : forall s pos i n g,
  search_from r s pos = Some (i, n, g) ->
  exists pre suf,
    s = (pre ++ suf)%string /\ match_here r suf = Some (n, g)
    /\ forall pre' suf',
         s = (pre' ++ suf')%string ->
         String.length pre' < String.length pre ->
         match_here r suf' = None.
Proof.
  induction s as [|a s IH]; intros pos i n g H; simpl in H.
  - destruct (match_here r "") as [[n' g']|] eqn:Hm; [|discriminate].
    injection H as <- <- <-. exists "", "". repeat split; auto.
    intros pre' suf' _ Hlt. simpl in Hlt. lia.
  - destruct (match_here r (String a s)) as [[n' g']|] eqn:Hm.
    + injection H as <- <- <-. exists "", (String a s). repeat split; auto.
      intros pre' suf' _ Hlt. simpl in Hlt. lia.
    + apply IH in H. destruct H as (pre & suf & -> & Hm' & Hfirst).
      exists (String a pre), suf. repeat split; auto.
      intros pre' suf' E Hlt. destruct pre' as [|b pre'].
      * simpl in E. now rewrite <- E.
      * simpl in E. injection E as _ E. apply (Hfirst pre' suf' E).
        simpl in Hlt. lia.
Qed.

Lemma search_from_none r : forall s pos,
  search_from r s pos = None ->
  forall pre suf, s = (pre ++ suf)%string -> match_here r suf = None.
Proof.
  induction s as [|a s IH]; intros pos H pre suf E; simpl in H.
  - destruct pre; [|discriminate]. simpl in E. subst suf.
    now destruct (match_here r "") as [[n' g']|].
  - destruct (match_here r (String a s)) as [[n' g']|] eqn:Hm; [discriminate|].
    destruct pre as [|b pre].
    + simpl in E. now subst suf.
    + simpl in E. injection E as _ E. now apply (IH (S pos) H pre suf).
Qed.

Section GreedyRun.
Context {R : Type}.
Variable c : ascii -> bool.
Variable k : string -> nat -> option R.

(** A greedy repetition goes to the end of the run, and stays there when
    the rest of the pattern matches there. *)
Lemma rep_greedy_run r post : forall w lo n,
  all_chars c w = true -> lo <= String.length w -> stops c post ->
  k post (n + String.length w) = Some r ->
  rep_greedy c lo (w ++ post) n k = Some r.
Proof.
  induction w as [|a w IH]; intros lo n Hw Hlo Hst Hk.
  - simpl in Hlo. assert (lo = 0) by lia. subst lo.
    simpl in Hk. rewrite Nat.add_0_r in Hk.
    destruct post as [|b post]; simpl; [exact Hk|].
    simpl in Hst. rewrite Hst. exact Hk.
  - simpl in Hw. apply andb_true_iff in Hw. destruct Hw as [Ha Hw].
    simpl. rewrite Ha.
    rewrite (IH (pred lo) (S n)); auto.
    + simpl in Hlo. lia.
    + simpl in Hk. rewrite Nat.add_succ_r in Hk. exact Hk.
Qed.

Variable d : ascii -> bool.

(** A lazy repetition passes the characters at which the rest of the
    pattern fails, and stops at the first place where it matches. *)
Lemma rep_lazy_run r post :
  (forall a t m, d a = true -> k (String a t) m = None) ->
  forall w n,
    all_chars c w = true -> all_chars d w = true ->
    k post (n + String.length w) = Some r ->
    rep_lazy c 0 (w ++ post) n k = Some r.
Proof.
  intros Hd. induction w as [|a w IH]; intros n Hc Hw Hk.
  - simpl in Hk. rewrite Nat.add_0_r in Hk.
    destruct post; simpl; now rewrite Hk.
  - simpl in Hc, Hw. apply andb_true_iff in Hc, Hw.
    destruct Hc as [Hca Hc], Hw as [Hda Hw].
    simpl. rewrite (Hd a _ n Hda), Hca.
    apply IH; auto. simpl in Hk. rewrite Nat.add_succ_r in Hk. exact Hk.
Qed.

Lemma rep_lazy_shortest r :
  (forall a t m, k (String a t) m = None -> d a = true) ->
  forall s n,
    rep_lazy c 0 s n k = Some r ->
    exists w s',
      s = (w ++ s')%string /\ all_chars c w = true /\ all_chars d w = true
      /\ k s' (n + String.length w) = Some r.
Proof.
  intros Hd. induction s as [|a s IH]; intros n H; simpl in H.
  - destruct (k "" n) eqn:Hk; [|discriminate]. injection H as ->.
    exists "", "". simpl. rewrite Nat.add_0_r. auto.
  - destruct (k (String a s) n) eqn:Hk.
    + injection H as ->. exists "", (String a s). simpl.
      rewrite Nat.add_0_r. auto.
    + destruct (c a) eqn:Hc; [|discriminate].
      apply IH in H. destruct H as (w & s' & -> & Hcw & Hdw & Hk').
      exists (String a w), s'. simpl. rewrite Hc, Hcw, (Hd a _ _ Hk), Hdw.
      rewrite <- Nat.add_succ_comm. auto.
Qed.

End GreedyRun.

Lemma all_chars_app c s t :
  all_chars c (s ++ t) = all_chars c s && all_chars c t.
Proof.
  induction s as [|a s IH]; simpl; [reflexivity|]. now rewrite IH, andb_assoc.
Qed.

Lemma all_chars_and c d w :
  all_chars (fun a => c a && d a) w = all_chars c w && all_chars d w.
Proof.
  induction w as [|a w IH]; simpl; [reflexivity|]. rewrite IH.
  destruct (c a), (d a), (all_chars c w); reflexivity.
Qed.

Lemma nonempty_length (w : string) : w <> "" -> 1 <= String.length w.
Proof. destruct w; [congruence|simpl; lia]. Qed.

Lemma sapp_eq_length (a : string) : forall b s t,
  (a ++ s)%string = (b ++ t)%string -> String.length a = String.length b ->
  a = b /\ s = t.
Proof.
  induction a as [|x a IH]; intros [|y b] s t E L; simpl in *; try lia.
  - auto.
  - injection E as -> E. destruct (IH b s t E) as [-> ->]; [lia|]. auto.
Qed.

(** Where [search_from] finds its match. *)
Lemma search_from_at r : forall s pos i n g,
  search_from r s pos = Some (i, n, g) ->
  exists pre suf,
    s = (pre ++ suf)%string /\ i = pos + String.length pre
    /\ match_here r suf = Some (n, g)
    /\ forall pre' suf',
         s = (pre' ++ suf')%string ->
         String.length pre' < String.length pre ->
         match_here r suf' = None.
Proof.
  induction s as [|a s IH]; intros pos i n g H; simpl in H.
  - destruct (match_here r "") as [[n' g']|] eqn:Hm; [|discriminate].
    injection H as <- <- <-. exists "", "". simpl. repeat split; auto.
    intros pre' suf' _ Hlt. lia.
  - destruct (match_here r (String a s)) as [[n' g']|] eqn:Hm.
    + injection H as <- <- <-. exists "", (String a s). simpl.
      repeat split; auto. intros pre' suf' _ Hlt. lia.
    + apply IH in H. destruct H as (pre & suf & -> & -> & Hm' & Hfirst).
      exists (String a pre), suf. simpl.
      split; [reflexivity|]. split; [lia|]. split; [exact Hm'|].
      intros pre' suf' E Hlt. destruct pre' as [|b pre'].
      * simpl in E. now rewrite <- E.
      * simpl in E. injection E as _ E. apply (Hfirst pre' suf' E).
        simpl in Hlt. lia.
Qed.

End MatchFacts.

(** ** The banner pattern and the banners of a text *)

Module BannerFacts.
Import Chars ReSpec StrFacts ReFacts SearchFacts MatchFacts.

Lemma title_chars w :
  all_chars is_title_char w =
  all_chars is_dot w && all_chars (fun a => negb (is_star a)) w.
Proof. apply (all_chars_and is_dot (fun a => negb (is_star a))). Qed.

(** The closing stars, as the rest of the banner pattern sees them. *)
Abbreviation closing :=
  (fun (s : string) (n : nat) =>
     rep_greedy is_star 1 s n (fun s' n' => Some (n', @None string))).

Lemma closing_fails a t m : negb (is_star a) = true -> closing (String a t) m = None.
Proof.
  intros H. apply negb_true_iff in H. simpl. now rewrite H.
Qed.

Lemma closing_fails_inv a t m :
  closing (String a t) m = None -> negb (is_star a) = true.
Proof.
  simpl. destruct (is_star a); [|reflexivity].
  destruct (rep_greedy is_star 0 t (S m) _) eqn:E; [discriminate|].
  apply rep_greedy_total in E; [destruct E|discriminate].
Qed.

Lemma match_here_banner suf :
  match_here Pat.banner suf =
  rep_greedy is_star 1 suf 0 (fun s1 n1 =>
    rep_greedy is_space 0 s1 n1 (fun s2 n2 =>
      match lit "TM-align" s2 with
      | Some s3 => rep_lazy is_dot 0 s3 (n2 + 8) closing
      | None => None
      end)).
Proof. reflexivity. Qed.

(** The banner pattern matches at the head of a text that starts with a
    banner, and the match is that banner. *)
Lemma banner_complete suf m post :
  banner_at suf m post ->
  match_here Pat.banner suf = Some (String.length m, None).
Proof.
  intros (-> & (stars & ws & rest & stars' & -> & Hs & Hne & Hws & Hrest
                & Hs' & Hne') & Hst).
  rewrite match_here_banner.
  rewrite title_chars in Hrest. apply andb_true_iff in Hrest.
  destruct Hrest as [Hdot Hnostar].
  rewrite !sapp_assoc.
  apply rep_greedy_run; [exact Hs|now apply nonempty_length| |].
  { destruct ws as [|a ws]; [exact eq_refl|].
    simpl in Hws. apply andb_true_iff in Hws. destruct Hws as [Ha _].
    simpl. unfold is_space in Ha. unfold is_star.
    destruct (code a =? 42) eqn:E; [|reflexivity].
    apply Nat.eqb_eq in E. rewrite E in Ha. discriminate Ha. }
  apply rep_greedy_run; [exact Hws|lia|exact eq_refl|].
  rewrite lit_complete.
  apply (rep_lazy_run is_dot closing (fun a => negb (is_star a)));
    [apply closing_fails|exact Hdot|exact Hnostar|].
  apply rep_greedy_run; [exact Hs'|now apply nonempty_length|exact Hst|].
  f_equal. f_equal. rewrite !slength_app. simpl. lia.
Qed.

(** What the banner pattern matches at the head of a text is a banner
    that the text starts with. *)
Lemma banner_sound suf n g :
  match_here Pat.banner suf = Some (n, g) ->
  exists m post, banner_at suf m post /\ n = String.length m /\ g = None.
Proof.
  rewrite match_here_banner. intros H.
  apply rep_greedy_sound in H. destruct H as (stars & s1 & -> & Hs & Hl & H).
  apply rep_greedy_sound in H. destruct H as (ws & s2 & -> & Hws & _ & H).
  destruct (lit "TM-align" s2) as [s3|] eqn:Hlit; [|discriminate].
  apply lit_sound in Hlit. subst s2.
  apply (rep_lazy_shortest is_dot closing (fun a => negb (is_star a))) in H;
    [|apply closing_fails_inv].
  destruct H as (rest & s4 & -> & Hdot & Hnostar & H).
  apply rep_greedy_max in H; [|discriminate].
  destruct H as (stars' & post & -> & Hs' & Hl' & H & Hst).
  injection H as <- <-.
  exists (stars ++ ws ++ "TM-align" ++ rest ++ stars')%string, post.
  split; [|split].
  - split; [now rewrite !sapp_assoc|]. split; [|exact Hst].
    exists stars, ws, rest, stars'. repeat split; auto.
    + now apply length_nonempty.
    + rewrite title_chars, Hdot, Hnostar. reflexivity.
    + now apply length_nonempty.
  - rewrite !slength_app. simpl. lia.
  - reflexivity.
Qed.

Lemma no_match_no_banner suf m post :
  match_here Pat.banner suf = None -> ~ banner_at suf m post.
Proof. intros H Hb. apply banner_complete in Hb. congruence. Qed.

(** The cuts of [re.split] with the banner pattern are the banners. *)
Lemma Segments_Cuts text first others :
  Segments Pat.banner text first others -> Cuts text first others.
Proof.
  induction 1 as [text Hnone|seg m rest g b bs Hs _ IH].
  - apply Cuts_none. intros pre suf m post E.
    apply no_match_no_banner.
    now apply (search_from_none Pat.banner text 0 Hnone pre suf).
  - apply search_from_at in Hs.
    destruct Hs as (pre & suf & E & Hi & Hm & Hfirst). simpl in Hi.
    symmetry in E. apply sapp_eq_length in E; [|congruence].
    destruct E as [-> ->].
    apply banner_sound in Hm. destruct Hm as (m' & post & Hb & Hn & _).
    assert (E : m' = m /\ post = rest).
    { destruct Hb as (E & _). symmetry in E.
      apply sapp_eq_length in E; [exact E|congruence]. }
    destruct E as [-> ->].
    apply Cuts_banner; [exact Hb| |exact IH].
    intros pre' suf' m' post' E Hlt. apply no_match_no_banner.
    now apply (Hfirst pre' suf').
Qed.

Lemma banner_at_unique suf m post m' post' :
  banner_at suf m post -> banner_at suf m' post' -> m = m' /\ post = post'.
Proof.
  intros H H'. pose proof (banner_complete _ _ _ H) as E.
  pose proof (banner_complete _ _ _ H') as E'.
  destruct H as (-> & _), H' as (E2 & _).
  apply sapp_eq_length in E2; [exact E2|congruence].
Qed.

Lemma Cuts_inv text first others :
  Cuts text first others ->
  (no_banner text /\ first = text /\ others = [])
  \/ exists seg m rest b bs,
       text = (seg ++ m ++ rest)%string /\ first = seg /\ others = b :: bs
       /\ banner_at (m ++ rest) m rest
       /\ (forall pre suf m' post,
             (seg ++ m ++ rest)%string = (pre ++ suf)%string ->
             String.length pre < String.length seg -> ~ banner_at suf m' post)
       /\ Cuts rest b bs.
Proof.
  intros [t Hno|seg m rest b bs Hb Hfirst Hc]; [left; auto|].
  right. exists seg, m, rest, b, bs. auto 10.
Qed.

(** The banners determine the segments. *)
Lemma Cuts_unique text first others :
  Cuts text first others ->
  forall first' others', Cuts text first' others' ->
  first = first' /\ others = others'.
Proof.
  induction 1 as [text Hno|seg m rest b bs Hb Hfirst Hc IH];
    intros first' others' H'; apply Cuts_inv in H';
    destruct H' as [(Hno' & -> & ->)
                   |(seg' & m' & rest' & b' & bs' & E & -> & -> & Hb' & Hfirst' & Hc')].
  - auto.
  - exfalso. now apply (Hno seg' (m' ++ rest')%string m' rest').
  - exfalso. now apply (Hno' seg (m ++ rest)%string m rest).
  - destruct (Nat.lt_trichotomy (String.length seg) (String.length seg'))
      as [L|[L|L]].
    + exfalso. symmetry in E. now apply (Hfirst' seg _ m rest E L).
    + apply sapp_eq_length in E; [|exact L]. destruct E as [-> E].
      rewrite E in Hb.
      destruct (banner_at_unique _ _ _ _ _ Hb Hb') as [_ ->].
      destruct (IH _ _ Hc') as [-> ->]. auto.
    + exfalso. now apply (Hfirst seg' _ m' rest' E L).
Qed.

End BannerFacts.

(** ** File names *)

Module PathFacts.
Import ReSpec.

Lemma contains_char_cons c a s :
  contains (String c "") (String a s) =
  Ascii.eqb c a || contains (String c "") s.
Proof. simpl. now destruct (Ascii.eqb c a). Qed.

Lemma contains_char_app c t : forall s,
  contains (String c "") (s ++ t) =
  contains (String c "") s || contains (String c "") t.
Proof.
  induction s as [|a s IH]; [reflexivity|].
  change (String a s ++ t)%string with (String a (s ++ t)).
  rewrite !contains_char_cons, IH. now rewrite orb_assoc.
Qed.

Lemma contains_char_substring c : forall s n m,
  contains (String c "") s = false ->
  contains (String c "") (substring n m s) = false.
Proof.
  induction s as [|a s IH]; intros n m H.
  - now destruct n, m.
  - rewrite contains_char_cons in H. apply orb_false_iff in H.
    destruct H as [Ha Hs].
    destruct n as [|n]; simpl substring.
    + destruct m as [|m]; [reflexivity|].
      rewrite contains_char_cons, Ha. simpl. now apply IH.
    + now apply IH.
Qed.

(** [rfind] answers the position after which the character does not
    occur any more. *)
Lemma rfind_from_spec c : forall s i last,
  (contains (String c "") s = false /\ Path.rfind_from c s i last = last)
  \/ (exists k, Path.rfind_from c s i last = (i + Z.of_nat k)%Z
                /\ contains (String c "") (Path.drop (S k) s) = false).
Proof.
  induction s as [|a s IH]; intros i last.
  - left. split; reflexivity.
  - simpl Path.rfind_from.
    destruct (IH (i + 1)%Z (if Ascii.eqb a c then i else last))
      as [[Hno Heq]|(k & Heq & Hno)].
    + destruct (Ascii.eqb a c) eqn:Hac.
      * right. exists 0. rewrite Heq. split; [lia | exact Hno].
      * left. rewrite contains_char_cons, Ascii.eqb_sym, Hac, Hno, Heq.
        split; reflexivity.
    + right. exists (S k). rewrite Heq. split; [lia | exact Hno].
Qed.

Lemma basename_no_slash p : contains "/" (Path.basename p) = false.
Proof.
  unfold Path.basename, Path.rfind.
  destruct (rfind_from_spec "/" p 0%Z (-1)%Z) as [[Hno ->]|(k & -> & Hno)].
  - exact Hno.
  - replace (Z.to_nat (0 + Z.of_nat k + 1)) with (S k) by lia. exact Hno.
Qed.

Lemma splitext_root_no_slash p :
  contains "/" p = false -> contains "/" (Path.splitext_root p) = false.
Proof.
  intros H. unfold Path.splitext_root, Path.take.
  destruct (_ <? _)%Z; [|exact H].
  destruct (Path.all_dots _); [exact H|].
  now apply contains_char_substring.
Qed.

Lemma basename_of_no_slash alnfile :
  contains "/" (basename_of alnfile) = false.
Proof. apply splitext_root_no_slash, basename_no_slash. Qed.

Lemma query_file_no_slash alnfile :
  contains "/" (basename_of alnfile ++ ".pdb") = false.
Proof.
  rewrite contains_char_app, basename_of_no_slash. reflexivity.
Qed.

Lemma rfind_from_app c t : forall s i last,
  Path.rfind_from c (s ++ t) i last =
  Path.rfind_from c t (i + Z.of_nat (String.length s))%Z
                  (Path.rfind_from c s i last).
Proof.
  induction s as [|a s IH]; intros i last; simpl.
  - now rewrite Z.add_0_r.
  - rewrite IH. f_equal. lia.
Qed.

Lemma rfind_from_absent c : forall s i last,
  contains (String c "") s = false -> Path.rfind_from c s i last = last.
Proof.
  induction s as [|a s IH]; intros i last H; [reflexivity|].
  rewrite contains_char_cons in H. apply orb_false_iff in H.
  destruct H as [Ha Hs]. simpl.
  rewrite Ascii.eqb_sym, Ha. now apply IH.
Qed.

(** The base name of a file that [glob] lists is its stem. *)
Lemma basename_of_aln_path stem :
  Glob.stem_ok stem = true -> basename_of (Glob.aln_path stem) = stem.
Proof.
  unfold Glob.stem_ok. intros H. apply andb_true_iff in H.
  destruct H as [Hsep Hdot]. apply negb_true_iff in Hsep.
  assert (Hsep' : contains "/" (stem ++ ".aln") = false)
    by (rewrite contains_char_app, Hsep; reflexivity).
  unfold basename_of, Glob.aln_path.
  assert (Hbase : Path.basename ("c-tm/all/" ++ stem ++ ".aln") =
                  (stem ++ ".aln")%string).
  { unfold Path.basename, Path.rfind.
    rewrite rfind_from_app, rfind_from_absent by exact Hsep'.
    reflexivity. }
  rewrite Hbase. unfold Path.splitext_root, Path.rfind.
  rewrite (rfind_from_absent "/") by exact Hsep'.
  rewrite rfind_from_app. simpl Path.rfind_from.
  assert (Hlt : (-1 <? Z.of_nat (String.length stem))%Z = true)
    by (apply Z.ltb_lt; lia).
  rewrite Hlt.
  replace (Z.to_nat (-1 + 1)) with 0 by reflexivity.
  rewrite Nat2Z.id, Nat.sub_0_r.
  unfold Path.take. rewrite StrFacts.substring_0_app.
  destruct stem as [|a stem]; [discriminate|].
  simpl. apply negb_true_iff in Hdot. now rewrite Hdot.
Qed.

(** Distinct files of the directory have distinct base names. *)
Lemma glob_basenames_distinct (stems : list string) :
  forallb Glob.stem_ok stems = true -> NoDup stems ->
  NoDup (map (fun stem => basename_of (Glob.aln_path stem)) stems).
Proof.
  intros Hok Hnd. erewrite map_ext_in; [rewrite map_id; exact Hnd|].
  intros stem Hin. apply basename_of_aln_path.
  rewrite forallb_forall in Hok. now apply Hok.
Qed.

End PathFacts.

(** ** Binary64 values read from score strings *)

Module FloatFacts.
Import FloatDefs.

Lemma shr_1_nonneg mrs : (0 <= shr_m mrs)%Z -> (0 <= shr_m (shr_1 mrs))%Z.
Proof.
  destruct mrs as [m r s]. simpl.
  destruct m as [|p|p]; simpl; intros H; try lia.
  destruct p; simpl; lia.
Qed.

Lemma iter_pos_shr_1_nonneg p : forall mrs,
  (0 <= shr_m mrs)%Z -> (0 <= shr_m (iter_pos shr_1 p mrs))%Z.
Proof.
  induction p as [p IH|p IH|]; intros mrs H; simpl.
  - apply IH, IH, shr_1_nonneg, H.
  - apply IH, IH, H.
  - apply shr_1_nonneg, H.
Qed.

Lemma shr_fexp_nonneg m e l :
  (0 <= m)%Z -> (0 <= shr_m (fst (shr_fexp prec emax m e l)))%Z.
Proof.
  intros H. unfold shr_fexp, shr.
  assert (H0 : (0 <= shr_m (shr_record_of_loc m l))%Z).
  { destruct l as [|[]]; exact H. }
  destruct (fexp prec emax (Zdigits2 m + e) - e)%Z; simpl; auto.
  now apply iter_pos_shr_1_nonneg.
Qed.

Lemma round_nearest_even_nonneg m l :
  (0 <= m)%Z -> (0 <= round_nearest_even m l)%Z.
Proof.
  intros H. destruct l as [|[]]; simpl; try lia.
  destruct (Z.even m); lia.
Qed.

Lemma binary_round_aux_nonneg m e l :
  (0 <= m)%Z -> nonneg (binary_round_aux prec emax false m e l).
Proof.
  intros H. unfold binary_round_aux.
  pose proof (shr_fexp_nonneg m e l H) as H1.
  destruct (shr_fexp prec emax m e l) as [mrs' e']. simpl in H1.
  pose proof (shr_fexp_nonneg _ e' loc_Exact
                (round_nearest_even_nonneg _ (loc_of_shr_record mrs') H1)) as H2.
  destruct (shr_fexp prec emax _ e' loc_Exact) as [mrs'' e'']. simpl in H2.
  destruct (shr_m mrs'') as [|p|p]; simpl; try lia; auto.
  destruct (_ <=? _)%Z; exact I.
Qed.

Lemma of_decimal_nonneg n k : nonneg (of_decimal n k).
Proof.
  unfold of_decimal. destruct n as [|p|p]; try exact I.
  unfold SFdiv, SFdiv_core_binary.
  set (m' := match _ with Zpos _ => _ | Z0 => _ | Zneg _ => _ end).
  assert (Hm' : (0 <= m')%Z).
  { unfold m'. destruct (_ - _ - _)%Z; try lia.
    rewrite Z.shiftl_mul_pow2 by lia. lia. }
  pose proof (Z_div_mod m' (Z.pos (Z.to_pos (10 ^ Z.of_nat k))) eq_refl) as Hdm.
  destruct (Z.div_eucl m' _) as [q r]. simpl xorb.
  apply binary_round_aux_nonneg.
  destruct Hdm as [Heq Hr]. nia.
Qed.

Lemma py_float_nonneg s x : py_float s = Some x -> nonneg x.
Proof.
  unfold py_float.
  destruct (read_digits s 0 0) as [[ip ni] rest].
  destruct rest as [|c rest'].
  - destruct (ni =? 0); [discriminate|].
    intros [= <-]. apply of_decimal_nonneg.
  - destruct (Chars.code c =? 46); [|discriminate].
    destruct (read_digits rest' ip 0) as [[all nf] rest''].
    destruct rest''; [|discriminate].
    destruct (ni + nf =? 0); [discriminate|].
    intros [= <-]. apply of_decimal_nonneg.
Qed.

Lemma nonneg_zero_leb x : nonneg x -> PyFloat.leb zero x = true.
Proof. destruct x as [[]|[]| |[] m e]; simpl; intros H; try easy. Qed.

Lemma nonneg_not_nan x : nonneg x -> is_nan x = false.
Proof. destruct x as [[]|[]| |[] m e]; simpl; intros H; try easy. Qed.

Lemma compare_not_nan x y :
  is_nan x = false -> is_nan y = false -> SFcompare x y <> None.
Proof.
  destruct x as [[]|[]| |[] m e], y as [[]|[]| |[] m' e'];
    simpl; intros; congruence.
Qed.

Lemma compare_antisym x y :
  SFcompare y x = option_map CompOpp (SFcompare x y).
Proof.
  destruct x as [[]|[]| |[] m e], y as [[]|[]| |[] m' e'];
    simpl; try reflexivity.
  - rewrite (Z.compare_antisym e' e).
    destruct (e' ?= e)%Z; simpl; try reflexivity.
    rewrite CompOpp_involutive. f_equal.
    exact (Pos.compare_cont_antisym m' m Eq).
  - rewrite (Z.compare_antisym e' e).
    destruct (e' ?= e)%Z; simpl; try reflexivity.
    f_equal. symmetry. exact (Pos.compare_cont_antisym m m' Eq).
Qed.

Lemma compare_refl x : is_nan x = false -> SFcompare x x = Some Eq.
Proof.
  destruct x as [[]|[]| |[] m e]; simpl; intros H; try easy;
    rewrite Z.compare_refl;
    change (PosDef.Pos.compare_cont Eq m m) with (Pos.compare_cont Eq m m);
    rewrite Pos.compare_cont_refl; reflexivity.
Qed.

Lemma leb_refl x : is_nan x = false -> PyFloat.leb x x = true.
Proof.
  intros H. unfold PyFloat.leb, SFleb. now rewrite compare_refl.
Qed.


(** [max]: when [a < b] fails and neither is missing, [b <= a]. *)
Lemma ltb_false_leb a b :
  is_nan a = false -> is_nan b = false ->
  PyFloat.ltb a b = false -> PyFloat.leb b a = true.
Proof.
  intros Ha Hb. unfold PyFloat.ltb, PyFloat.leb, SFltb, SFleb.
  rewrite (compare_antisym a b).
  pose proof (compare_not_nan a b Ha Hb) as Hc.
  destruct (SFcompare a b) as [[]|]; simpl; congruence.
Qed.

Lemma ltb_leb a b : PyFloat.ltb a b = true -> PyFloat.leb a b = true.
Proof.
  unfold PyFloat.ltb, PyFloat.leb, SFltb, SFleb.
  destruct (SFcompare a b) as [[]|]; congruence.
Qed.

Lemma py_max_spec a b :
  is_nan a = false -> is_nan b = false ->
  (py_max a b = a \/ py_max a b = b)
  /\ PyFloat.leb a (py_max a b) = true
  /\ PyFloat.leb b (py_max a b) = true.
Proof.
  intros Ha Hb. unfold py_max.
  destruct (PyFloat.ltb a b) eqn:Hlt.
  - repeat split; auto using ltb_leb, leb_refl.
  - repeat split; auto using ltb_false_leb, leb_refl.
Qed.

Lemma score_or_zero_nonneg s x : score_or_zero s = Some x -> nonneg x.
Proof.
  destruct s; simpl.
  - intros [= <-]. exact I.
  - apply py_float_nonneg.
Qed.

Lemma py_max_nonneg a b : nonneg a -> nonneg b -> nonneg (py_max a b).
Proof. unfold py_max. destruct (PyFloat.ltb a b); auto. Qed.

Lemma chosen_of_nonneg s1 s2 : nonneg (chosen_of s1 s2).
Proof.
  unfold chosen_of, try_chosen.
  destruct (score_or_zero s1) eqn:H1; [|exact I].
  destruct (score_or_zero s2) eqn:H2; [|exact I].
  apply py_max_nonneg; eauto using score_or_zero_nonneg.
Qed.

End FloatFacts.

(** ** The insertion sort of [argsort] *)

Module SortFacts.
Import NpSort SortSpec.

Lemma get_app_r (l1 l2 : list nat) i :
  get (l1 ++ l2) (List.length l1 + i) = get l2 i.
Proof. unfold get. now rewrite app_nth2_plus. Qed.

Lemma get_middle (l1 l2 : list nat) x :
  get (l1 ++ x :: l2) (List.length l1) = x.
Proof.
  rewrite <- (Nat.add_0_r (List.length l1)). now rewrite get_app_r.
Qed.

Lemma set_app_r (l1 l2 : list nat) i x :
  set (l1 ++ l2) (List.length l1 + i) x = l1 ++ set l2 i x.
Proof.
  induction l1 as [|h l1 IH]; simpl; [reflexivity|]. now rewrite IH.
Qed.

Lemma set_middle (l1 l2 : list nat) y x :
  set (l1 ++ y :: l2) (List.length l1) x = l1 ++ x :: l2.
Proof.
  rewrite <- (Nat.add_0_r (List.length l1)). now rewrite set_app_r.
Qed.

Section Insertion.
Variable K : Type.
Variable less : K -> K -> bool.
Variable dflt : K.
Variable v : list K.

Abbreviation ins_shift := (ins_shift K less dflt v).
Abbreviation ins_loop := (ins_loop K less dflt v).
Abbreviation insert_from_right := (insert_from_right K less dflt v).
Abbreviation insert_all := (insert_all K less dflt v).
Abbreviation val := (val K dflt v).

Lemma ins_shift_stop a pl vi : ins_shift a pl pl vi = set a pl vi.
Proof.
  destruct pl as [|pl]; simpl; [reflexivity|].
  now rewrite Nat.ltb_irrefl.
Qed.

Lemma length_insert_from_right x R :
  List.length (insert_from_right x R) = S (List.length R).
Proof.
  induction R as [|y R IH]; simpl; [reflexivity|].
  destruct (less (val x) (val y)); simpl; congruence.
Qed.

(** The inner loop puts [vi] where [insert_from_right] puts it. *)
Lemma ins_shift_spec pre vi : forall L y0 post,
  ins_shift (pre ++ L ++ y0 :: post) (List.length pre)
            (List.length pre + List.length L) vi =
  pre ++ rev (insert_from_right vi (rev L)) ++ post.
Proof.
  induction L as [|y L IH] using rev_ind; intros y0 post.
  - simpl. rewrite Nat.add_0_r, ins_shift_stop. apply set_middle.
  - rewrite length_app. simpl List.length.
    replace (List.length pre + (List.length L + 1))
      with (S (List.length pre + List.length L)) by lia.
    simpl ins_shift.
    assert (Hlt : (List.length pre <? S (List.length pre + List.length L)) = true)
      by (apply Nat.ltb_lt; lia).
    rewrite Hlt. simpl andb.
    assert (Hget : get (pre ++ (L ++ [y]) ++ y0 :: post)
                       (List.length pre + List.length L) = y).
    { rewrite get_app_r, <- app_assoc. apply get_middle. }
    rewrite Hget, rev_app_distr. simpl rev. simpl insert_from_right.
    destruct (less (val vi) (val y)).
    + assert (Hset : set (pre ++ (L ++ [y]) ++ y0 :: post)
                         (S (List.length pre + List.length L)) y =
                     pre ++ L ++ y :: y :: post).
      { rewrite <- Nat.add_succ_r, set_app_r, <- app_assoc. f_equal.
        replace (S (List.length L)) with (List.length (L ++ [y]))
          by (rewrite length_app; simpl; lia).
        replace (L ++ [y] ++ y0 :: post) with ((L ++ [y]) ++ y0 :: post)
          by now rewrite <- app_assoc.
        rewrite set_middle. now rewrite <- app_assoc. }
      rewrite Hset, IH. simpl rev. now rewrite <- !app_assoc.
    + rewrite <- Nat.add_succ_r, set_app_r.
      replace (S (List.length L)) with (List.length (L ++ [y]))
        by (rewrite length_app; simpl; lia).
      rewrite set_middle. simpl rev. rewrite rev_involutive.
      now rewrite <- !app_assoc.
Qed.

(** The outer loop inserts the entries one after the other. *)
Lemma ins_loop_spec pre : forall xs L post,
  ins_loop (List.length xs) (pre ++ L ++ xs ++ post) (List.length pre)
           (List.length pre + List.length L) =
  pre ++ rev (insert_all xs (rev L)) ++ post.
Proof.
  induction xs as [|x xs IH]; intros L post.
  - simpl. now rewrite rev_involutive.
  - simpl List.length. simpl NpSort.ins_loop.
    change ((x :: xs) ++ post) with (x :: xs ++ post).
    assert (Hget : get (pre ++ L ++ x :: xs ++ post)
                       (List.length pre + List.length L) = x).
    { rewrite get_app_r. apply get_middle. }
    rewrite Hget. rewrite ins_shift_spec.
    set (L2 := rev (insert_from_right x (rev L))).
    assert (Hlen : List.length L2 = S (List.length L)).
    { unfold L2. now rewrite length_rev, length_insert_from_right, length_rev. }
    rewrite <- Nat.add_succ_r, <- Hlen, IH.
    unfold L2. now rewrite rev_involutive.
Qed.

Lemma insertion_sort_spec x0 xs :
  insertion_sort K less dflt v (x0 :: xs) 0 (List.length xs) =
  rev (insert_all (x0 :: xs) []).
Proof.
  unfold insertion_sort. rewrite Nat.sub_0_r.
  pose proof (ins_loop_spec [] xs [x0] []) as H.
  simpl in H. rewrite !app_nil_r in H. exact H.
Qed.

(** A partition that spans at most [SMALL_QUICKSORT] positions is
    sorted by insertion alone. *)
Lemma aq_loop_small fuel a pl pr cdepth :
  pr - pl <= SMALL_QUICKSORT ->
  aq_loop K less dflt v fuel a pl pr cdepth =
  insertion_sort K less dflt v a pl pr.
Proof.
  intros Hsmall. destruct fuel as [|fuel]; [reflexivity|].
  simpl. apply Nat.ltb_ge in Hsmall. now rewrite Hsmall.
Qed.

(** Up to 17 keys, [argsort] is the insertion sort alone. *)
Lemma argsort_small :
  List.length v <= 17 ->
  argsort K less dflt v = rev (insert_all (seq 0 (List.length v)) []).
Proof.
  intros Hlen. unfold argsort.
  destruct (List.length v) as [|n] eqn:Hn; [reflexivity|].
  rewrite aq_loop_small by (unfold SMALL_QUICKSORT; lia).
  replace (S n - 1) with (List.length (seq 1 n)) by (rewrite length_seq; lia).
  change (seq 0 (S n)) with (0 :: seq 1 n).
  apply insertion_sort_spec.
Qed.

Lemma insert_from_right_perm x : forall R,
  Permutation (x :: R) (insert_from_right x R).
Proof.
  induction R as [|y R IH]; simpl; [reflexivity|].
  destruct (less (val x) (val y)); [|reflexivity].
  rewrite perm_swap. now apply perm_skip.
Qed.

Lemma insert_all_perm : forall xs R,
  Permutation (xs ++ R) (insert_all xs R).
Proof.
  induction xs as [|x xs IH]; intros R; [reflexivity|].
  change (insert_all (x :: xs) R) with (insert_all xs (insert_from_right x R)).
  rewrite <- IH, <- insert_from_right_perm.
  apply Permutation_middle.
Qed.

Section Order.
Hypothesis less_asym : forall a b, less a b = true -> less b a = false.

Lemma insert_from_right_not_rising x : forall R,
  not_rising K less dflt v R ->
  not_rising K less dflt v (insert_from_right x R).
Proof.
  induction R as [|y R IH]; intros HR; [exact I|].
  simpl insert_from_right.
  destruct (less (val x) (val y)) eqn:Hxy.
  - assert (HR' : not_rising K less dflt v R) by (destruct R; [exact I|apply HR]).
    specialize (IH HR').
    destruct R as [|y2 R]; simpl.
    + split; [now apply less_asym | exact I].
    + simpl in IH. destruct (less (val x) (val y2)) eqn:Hxy2.
      * split; [apply HR | exact IH].
      * split; [now apply less_asym | exact IH].
  - split; [exact Hxy | exact HR].
Qed.

Lemma insert_all_not_rising : forall xs R,
  not_rising K less dflt v R -> not_rising K less dflt v (insert_all xs R).
Proof.
  induction xs as [|x xs IH]; intros R HR; [exact HR|].
  apply IH. now apply insert_from_right_not_rising.
Qed.
End Order.

End Insertion.

(** ** The index array *)

(** get/set/swap *)
Lemma length_set a : forall p x, List.length (set a p x) = List.length a.
Proof. induction a as [|h a IH]; intros [|p] x; simpl; auto. Qed.

Lemma get_set_eq a : forall p x, p < List.length a -> get (set a p x) p = x.
Proof.
  unfold get. induction a as [|h a IH]; intros [|p] x Hp; simpl in *; try lia; auto.
  apply IH. lia.
Qed.

Lemma get_set_neq a : forall p q x, p <> q -> get (set a p x) q = get a q.
Proof.
  unfold get. induction a as [|h a IH]; intros [|p] [|q] x Hpq; simpl; auto; try lia.
Qed.

Lemma set_get_same a : forall p, set a p (get a p) = a.
Proof.
  unfold get. induction a as [|h a IH]; intros [|p]; simpl; auto. now rewrite IH.
Qed.

Lemma set_set_same a : forall p x y, set (set a p x) p y = set a p y.
Proof. induction a as [|h a IH]; intros [|p] x y; simpl; auto. now rewrite IH. Qed.

Lemma length_swap a p q : List.length (swap a p q) = List.length a.
Proof. unfold swap. now rewrite !length_set. Qed.

Lemma get_swap_l a p q :
  p < List.length a -> q < List.length a -> get (swap a p q) p = get a q.
Proof.
  intros Hp Hq. unfold swap.
  destruct (Nat.eq_dec p q) as [->|Hne].
  - now rewrite get_set_eq by (rewrite length_set; lia).
  - rewrite get_set_neq by lia. now rewrite get_set_eq.
Qed.

Lemma get_swap_r a p q :
  q < List.length a -> get (swap a p q) q = get a p.
Proof.
  intros Hq. unfold swap. now rewrite get_set_eq by (rewrite length_set; lia).
Qed.

Lemma get_swap_other a p q r :
  r <> p -> r <> q -> get (swap a p q) r = get a r.
Proof.
  intros Hp Hq. unfold swap. now rewrite !get_set_neq by lia.
Qed.

Lemma set_perm_decomp a : forall p x, p < List.length a ->
  exists l1 l2, a = l1 ++ get a p :: l2 /\ set a p x = l1 ++ x :: l2 /\ List.length l1 = p.
Proof.
  unfold get. induction a as [|h a IH]; intros [|p] x Hp; simpl in *; try lia.
  - exists [], a. auto.
  - destruct (IH p x) as (l1 & l2 & H1 & H2 & H3); [lia|].
    exists (h :: l1), l2. simpl. rewrite <- H1, H2, H3. auto.
Qed.

Lemma Permutation_swap a p q :
  p < List.length a -> q < List.length a -> Permutation a (swap a p q).
Proof.
  intros Hp Hq. unfold swap.
  destruct (Nat.eq_dec p q) as [->|Hne].
  - rewrite set_get_same. rewrite set_get_same. reflexivity.
  - destruct (set_perm_decomp a p (get a q) Hp) as (l1 & l2 & H1 & H2 & H3).
    assert (Hq' : q < List.length (set a p (get a q))) by now rewrite length_set.
    destruct (set_perm_decomp _ q (get a p) Hq') as (m1 & m2 & G1 & G2 & G3).
    rewrite get_set_neq in G1 by lia.
    rewrite G2. rewrite H2 in G1.
    (* a = l1 ++ ap :: l2 ; l1 ++ aq :: l2 = m1 ++ aq :: m2 *)
    rewrite H1 at 1.
    transitivity (get a p :: l1 ++ l2); [symmetry; apply Permutation_middle|].
    transitivity (get a p :: m1 ++ m2); [|apply Permutation_middle].
    apply perm_skip.
    apply Permutation_cons_inv with (a := get a q).
    transitivity (l1 ++ get a q :: l2); [apply Permutation_middle|].
    rewrite G1. symmetry. apply Permutation_middle.
Qed.

Lemma set_then_set_is_swap a p q x :
  p <> q -> p < List.length a -> q < List.length a ->
  set (set a p (get a q)) q x = swap (set a p x) p q.
Proof.
  intros Hne Hp Hq. unfold swap.
  rewrite get_set_eq by assumption. rewrite get_set_neq by assumption.
  rewrite set_set_same. reflexivity.
Qed.

(** ** Changes inside a range *)

Lemma moved_within_refl a pl pr : moved_within a a pl pr.
Proof. repeat split; eauto. Qed.

Lemma moved_within_trans a b c pl pr :
  moved_within a b pl pr -> moved_within b c pl pr -> moved_within a c pl pr.
Proof.
  intros (L1 & O1 & I1) (L2 & O2 & I2). repeat split.
  - congruence.
  - intros p Hp. rewrite O2, O1; auto.
  - intros p Hp. destruct (I2 p Hp) as (q & Hq & ->). apply I1; auto.
Qed.

Lemma moved_within_swap a p q pl pr :
  pl <= p <= pr -> pl <= q <= pr -> p < List.length a -> q < List.length a ->
  moved_within a (swap a p q) pl pr.
Proof.
  intros Hp Hq Lp Lq. repeat split.
  - apply length_swap.
  - intros r Hr. apply get_swap_other; lia.
  - intros r Hr.
    destruct (Nat.eq_dec r q) as [->|Hrq]; [exists p; split; [lia|now apply get_swap_r]|].
    destruct (Nat.eq_dec r p) as [->|Hrp]; [exists q; split; [lia|now apply get_swap_l]|].
    exists r. split; [lia | now apply get_swap_other].
Qed.

Lemma split_range (a : list nat) pl pr :
  pl <= pr -> pr < List.length a ->
  exists pre x0 xs post,
    a = pre ++ [x0] ++ xs ++ post /\ List.length pre = pl /\ List.length xs = pr - pl.
Proof.
  intros H1 H2.
  pose proof (firstn_skipn pl a) as E.
  pose proof (length_skipn pl a) as Ls.
  destruct (skipn pl a) as [|x0 rest] eqn:Hs; simpl in Ls; [lia|].
  exists (firstn pl a), x0, (firstn (pr - pl) rest), (skipn (pr - pl) rest).
  split; [|split].
  - simpl. rewrite firstn_skipn. symmetry. exact E.
  - rewrite length_firstn. lia.
  - rewrite length_firstn. lia.
Qed.

Lemma get_inside (pre mid post : list nat) p :
  List.length pre <= p < List.length pre + List.length mid ->
  get (pre ++ mid ++ post) p = nth (p - List.length pre) mid 0.
Proof.
  intros H. unfold get. rewrite app_nth2 by lia. apply app_nth1. lia.
Qed.

Lemma middle_moved (pre mid mid' post : list nat) pl pr :
  Permutation mid mid' -> List.length pre = pl -> pl <= pr ->
  List.length mid = pr - pl + 1 ->
  moved_within (pre ++ mid ++ post) (pre ++ mid' ++ post) pl pr
  /\ Permutation (pre ++ mid ++ post) (pre ++ mid' ++ post).
Proof.
  intros HP Hpre Hle Hmid.
  pose proof (Permutation_length HP) as HL.
  split; [|apply Permutation_app_head, Permutation_app_tail, HP].
  split; [rewrite !length_app; lia|]. split.
  - intros p [Hp|Hp]; unfold get.
    + rewrite !app_nth1 by lia. reflexivity.
    + rewrite !(app_nth2 pre) by lia. rewrite !app_nth2 by lia. f_equal. lia.
  - intros p Hp. rewrite get_inside by lia.
    assert (Hin : In (nth (p - List.length pre) mid' 0) mid)
      by (apply (Permutation_in _ (Permutation_sym HP)), nth_In; lia).
    destruct (In_nth _ _ 0 Hin) as (k & Hk & E).
    exists (pl + k). split; [lia|]. rewrite get_inside by lia.
    rewrite <- E. f_equal. lia.
Qed.

Lemma range_decomp (a : list nat) pl pr :
  pl <= pr -> pr < List.length a ->
  a = firstn pl a ++ firstn (pr - pl + 1) (skipn pl a) ++ skipn (S pr) a.
Proof.
  intros H1 H2.
  rewrite <- (firstn_skipn pl a) at 1. f_equal.
  rewrite <- (firstn_skipn (pr - pl + 1) (skipn pl a)) at 1. f_equal.
  rewrite skipn_skipn. f_equal. lia.
Qed.

Lemma perm_moved_within (a a' : list nat) pl pr :
  pl <= pr -> pr < List.length a ->
  List.length a' = List.length a ->
  (forall p, p < pl \/ pr < p -> get a' p = get a p) ->
  Permutation a a' ->
  moved_within a a' pl pr.
Proof.
  intros H1 H2 HL HO HP.
  assert (Epre : firstn pl a' = firstn pl a).
  { apply (nth_ext _ _ 0 0).
    - rewrite !length_firstn. lia.
    - intros k Hk. rewrite length_firstn in Hk. rewrite !nth_firstn.
      destruct (k <? pl) eqn:E; [|reflexivity]. apply Nat.ltb_lt in E.
      apply (HO k). lia. }
  assert (Epost : skipn (S pr) a' = skipn (S pr) a).
  { apply (nth_ext _ _ 0 0).
    - rewrite !length_skipn. lia.
    - intros k Hk. rewrite !nth_skipn. apply (HO (S pr + k)). lia. }
  rewrite (range_decomp a pl pr H1 H2) in HP |- *.
  rewrite (range_decomp a' pl pr H1) in HP |- * by lia.
  rewrite Epre, Epost in HP |- *.
  apply Permutation_app_inv_l, Permutation_app_inv_r in HP.
  apply middle_moved; try assumption.
  - rewrite length_firstn. lia.
  - rewrite length_firstn, length_skipn. lia.
Qed.

Lemma div2_bounds n : 2 * Nat.div2 n <= n /\ n <= 2 * Nat.div2 n + 1.
Proof. rewrite (Nat.div2_odd n) at 2 3. destruct (Nat.odd n); simpl; lia. Qed.

(** ** The sort, for an order on the keys

    [less] is asymmetric, and on the keys of [v] its complement is
    transitive. *)

Section Sorting.
Variable K : Type.
Variable less : K -> K -> bool.
Variable dflt : K.
Variable v : list K.

Abbreviation val := (val K dflt v).
Abbreviation sorted_range := (sorted_range K less dflt v).
Abbreviation sorts := (sorts K less dflt v).
Abbreviation heap_from := (heap_from K less dflt v).

Hypothesis less_asym : forall a b, less a b = true -> less b a = false.
Hypothesis less_ntrans :
  forall x y z, less (val x) (val y) = false -> less (val y) (val z) = false ->
                less (val x) (val z) = false.

Lemma less_irrefl x : less (val x) (val x) = false.
Proof. destruct (less (val x) (val x)) eqn:H; [pose proof (less_asym _ _ H); congruence|reflexivity]. Qed.

(** *** Insertion sort *)

Lemma not_rising_nth : forall l, not_rising K less dflt v l ->
  forall k, S k < List.length l ->
  less (val (nth k l 0)) (val (nth (S k) l 0)) = false.
Proof.
  induction l as [|x l IH]; intros H k Hk; simpl in Hk; [lia|].
  destruct l as [|y l]; simpl in Hk; [lia|].
  destruct H as [H1 H2]. destruct k as [|k]; [exact H1|].
  apply (IH H2 k). simpl. lia.
Qed.

Lemma nth_not_rising : forall l,
  (forall k, S k < List.length l ->
     less (val (nth k l 0)) (val (nth (S k) l 0)) = false) ->
  not_rising K less dflt v l.
Proof.
  induction l as [|x l IH]; intros H; [exact I|].
  destruct l as [|y l]; [exact I|]. split.
  - apply (H 0). simpl. lia.
  - apply IH. intros k Hk. apply (H (S k)). simpl in *. lia.
Qed.

Lemma insertion_sort_sorts a pl pr :
  pl <= pr -> pr < List.length a ->
  sorts a (insertion_sort K less dflt v a pl pr) pl pr.
Proof.
  intros H1 H2.
  destruct (split_range a pl pr H1 H2) as (pre & x0 & xs & post & -> & Hpre & Hxs).
  unfold insertion_sort.
  replace (pr - pl) with (List.length xs) by lia.
  replace (S pl) with (List.length pre + List.length [x0]) by (simpl; lia).
  rewrite <- Hpre at 1.
  rewrite (ins_loop_spec K less dflt v pre xs [x0] post).
  simpl rev at 2.
  set (IA := insert_all K less dflt v xs [x0]).
  assert (HP : Permutation ([x0] ++ xs) (rev IA)).
  { etransitivity; [apply Permutation_app_comm|].
    etransitivity; [apply (insert_all_perm K less dflt v)|]. apply Permutation_rev. }
  assert (HN : not_rising K less dflt v IA)
    by (apply insert_all_not_rising; [assumption|exact I]).
  assert (LIA : List.length IA = pr - pl + 1).
  { rewrite <- (length_rev IA), <- (Permutation_length HP), length_app. simpl. lia. }
  replace (pre ++ [x0] ++ xs ++ post) with (pre ++ ([x0] ++ xs) ++ post)
    by (rewrite <- !app_assoc; reflexivity).
  destruct (middle_moved pre ([x0] ++ xs) (rev IA) post pl pr HP Hpre H1) as [M P].
  { rewrite length_app. simpl. lia. }
  split; [exact M|]. split; [exact P|].
  intros p Hp.
  rewrite !get_inside by (rewrite length_rev; lia).
  rewrite !rev_nth by lia.
  replace (List.length IA - S (p - List.length pre))
    with (S (List.length IA - S (S p - List.length pre))) by lia.
  apply not_rising_nth; [exact HN|lia].
Qed.

(** *** The partition *)

(** scans *)
Lemma scan_up_spec xp : forall bound a pi q,
  pi < q <= pi + bound ->
  less (val (get a q)) (val xp) = false ->
  let r := scan_up K less dflt v bound a pi (val xp) in
  pi < r <= q /\ less (val (get a r)) (val xp) = false
  /\ forall p, pi < p < r -> less (val (get a p)) (val xp) = true.
Proof.
  induction bound as [|b IH]; intros a pi q Hq Hs; [lia|].
  simpl. destruct (less (val (get a (S pi))) (val xp)) eqn:Hl.
  - assert (S pi <> q) by (intros E; rewrite E in Hl; congruence).
    destruct (IH a (S pi) q) as (H1 & H2 & H3); [lia|assumption|].
    split; [lia|]. split; [assumption|].
    intros p Hp. destruct (Nat.eq_dec p (S pi)) as [->|]; [assumption|]. apply H3. lia.
  - split; [lia|]. split; [assumption|]. intros p Hp. lia.
Qed.

Lemma scan_down_spec xp : forall bound a pj q,
  q < pj -> pj <= q + bound ->
  less (val xp) (val (get a q)) = false ->
  let r := scan_down K less dflt v bound a pj (val xp) in
  q <= r < pj /\ less (val xp) (val (get a r)) = false
  /\ forall p, r < p < pj -> less (val xp) (val (get a p)) = true.
Proof.
  induction bound as [|b IH]; intros a pj q Hq Hb Hs; [lia|].
  simpl. destruct (less (val xp) (val (get a (pj - 1)))) eqn:Hl.
  - assert (pj - 1 <> q) by (intros E; rewrite E in Hl; congruence).
    destruct (IH a (pj - 1) q) as (H1 & H2 & H3); [lia|lia|assumption|].
    split; [lia|]. split; [assumption|].
    intros p Hp. destruct (Nat.eq_dec p (pj - 1)) as [->|]; [assumption|]. apply H3. lia.
  - split; [lia|]. split; [assumption|]. intros p Hp. lia.
Qed.

(** the partition loop *)
Lemma part_loop_spec xp bound pl pr : forall fuel a pi pj,
  pl <= pi -> pi < pj -> pj < pr -> pr < List.length a ->
  pr - pl <= bound -> pj - pi <= fuel ->
  (forall p, pl <= p <= pi -> less (val xp) (val (get a p)) = false) ->
  (forall p, pj <= p <= pr -> less (val (get a p)) (val xp) = false) ->
  let '(a', r) := part_loop K less dflt v fuel bound a pi pj (val xp) in
  pi < r <= pj
  /\ List.length a' = List.length a
  /\ Permutation a a'
  /\ (forall p, p <= pi \/ pj <= p -> get a' p = get a p)
  /\ (forall p, pi < p < pj -> exists q, pi < q < pj /\ get a' p = get a q)
  /\ (forall p, pl <= p < r -> less (val xp) (val (get a' p)) = false)
  /\ (forall p, r <= p <= pr -> less (val (get a' p)) (val xp) = false).
Proof.
  induction fuel as [|f IH]; intros a pi pj Hpl Hij Hjr Hlen Hb Hf HL HR.
  all: cbn [part_loop].
  all: destruct (scan_up_spec xp bound a pi pj) as (U1 & U2 & U3); [lia|apply HR; lia|].
  all: destruct (scan_down_spec xp bound a pj pi) as (D1 & D2 & D3); [lia|lia|apply HL; lia|].
  all: set (pi' := scan_up K less dflt v bound a pi (val xp)) in *.
  all: set (pj' := scan_down K less dflt v bound a pj (val xp)) in *.
  all: destruct (pj' <=? pi') eqn:Hcmp; [apply Nat.leb_le in Hcmp | apply Nat.leb_gt in Hcmp].
  1,3: (split; [lia|]; split; [reflexivity|]; split; [reflexivity|]; split; [reflexivity|];
        split; [intros p Hp; exists p; split; [lia|reflexivity]|]; split;
        [ intros p Hp; destruct (Nat.le_gt_cases p pi); [apply HL; lia|apply less_asym, U3; lia]
        | intros p Hp; destruct (Nat.eq_dec p pi') as [->|]; [assumption|];
          destruct (Nat.le_gt_cases pj p); [apply HR; lia|apply less_asym, D3; lia] ]).
  - lia.
  - specialize (IH (swap a pi' pj') pi' pj').
    destruct (part_loop K less dflt v f bound (swap a pi' pj') pi' pj' (val xp)) as [a' r].
    destruct IH as (I1 & I2 & I3 & I4 & I5 & I6 & I7); try lia.
    + rewrite length_swap. lia.
    + intros p Hp. destruct (Nat.eq_dec p pi') as [->|Hne].
      * rewrite get_swap_l by lia. assumption.
      * rewrite get_swap_other by lia.
        destruct (Nat.le_gt_cases p pi); [apply HL; lia|apply less_asym, U3; lia].
    + intros p Hp. destruct (Nat.eq_dec p pj') as [->|Hne].
      * rewrite get_swap_r by lia. assumption.
      * rewrite get_swap_other by lia.
        destruct (Nat.le_gt_cases pj p); [apply HR; lia|apply less_asym, D3; lia].
    + rewrite length_swap in I2.
      split; [lia|]. split; [assumption|].
      split; [etransitivity; [apply (Permutation_swap a pi' pj'); lia|assumption]|].
      split; [intros p Hp; rewrite I4 by lia; apply get_swap_other; lia|].
      split; [|split; assumption].
      intros p Hp.
      assert (Hsw : forall t, pi < t < pj -> exists q, pi < q < pj /\ get (swap a pi' pj') t = get a q).
      { intros t Ht.
        destruct (Nat.eq_dec t pj') as [->|]; [exists pi'; split; [lia|apply get_swap_r; lia]|].
        destruct (Nat.eq_dec t pi') as [->|]; [exists pj'; split; [lia|apply get_swap_l; lia]|].
        exists t. split; [lia|apply get_swap_other; lia]. }
      destruct (Nat.le_gt_cases p pi') as [H1|H1]; [rewrite I4 by lia; apply Hsw; lia|].
      destruct (Nat.le_gt_cases pj' p) as [H2|H2]; [rewrite I4 by lia; apply Hsw; lia|].
      destruct (I5 p) as (q & Hq & ->); [lia|]. apply Hsw. lia.
Qed.

Lemma swap_if_less_spec a p q :
  p <> q -> p < List.length a -> q < List.length a ->
  let a' := swap_if_less K less dflt v a p q in
  List.length a' = List.length a /\ Permutation a a'
  /\ less (val (get a' p)) (val (get a' q)) = false
  /\ (forall r, r <> p -> r <> q -> get a' r = get a r)
  /\ ((get a' p = get a p /\ get a' q = get a q)
      \/ (get a' p = get a q /\ get a' q = get a p)).
Proof.
  intros Hne Hp Hq. unfold swap_if_less.
  destruct (less (val (get a p)) (val (get a q))) eqn:Hl; cbv zeta.
  - split; [apply length_swap|]. split; [apply Permutation_swap; assumption|].
    rewrite get_swap_l, get_swap_r by assumption.
    split; [apply less_asym; assumption|].
    split; [intros r H1 H2; apply get_swap_other; assumption|].
    right. split; reflexivity.
  - split; [reflexivity|]. split; [reflexivity|]. split; [assumption|].
    split; [reflexivity|]. left. split; reflexivity.
Qed.

Lemma partition_spec a pl pr :
  pl + 2 < pr -> pr < List.length a ->
  let '(a', pi) := partition K less dflt v a pl pr in
  pl < pi < pr
  /\ moved_within a a' pl pr
  /\ Permutation a a'
  /\ (forall p, pl <= p < pi -> less (val (get a' pi)) (val (get a' p)) = false)
  /\ (forall p, pi < p <= pr -> less (val (get a' p)) (val (get a' pi)) = false).
Proof.
  intros Hspan Hlen. unfold partition.
  pose proof (div2_bounds (pr - pl)) as Hd.
  set (pm := pl + Nat.div2 (pr - pl)).
  assert (Hpm : pl < pm < pr - 1) by (unfold pm; lia).
  destruct (swap_if_less_spec a pm pl) as (L1 & P1 & F1 & O1 & C1); try lia.
  set (a1 := swap_if_less K less dflt v a pm pl) in *.
  destruct (swap_if_less_spec a1 pr pm) as (L2 & P2 & F2 & O2 & C2); try lia.
  set (a2 := swap_if_less K less dflt v a1 pr pm) in *.
  destruct (swap_if_less_spec a2 pm pl) as (L3 & P3 & F3 & O3 & C3); try lia.
  set (a3 := swap_if_less K less dflt v a2 pm pl) in *.
  assert (G2 : less (val (get a2 pr)) (val (get a2 pl)) = false).
  { rewrite (O2 pl) by lia. destruct C2 as [[E1 E2]|[E1 E2]].
    - apply less_ntrans with (y := get a2 pm); [assumption|].
      rewrite E2. assumption.
    - rewrite E1. assumption. }
  assert (G3 : less (val (get a3 pr)) (val (get a3 pm)) = false).
  { rewrite (O3 pr) by lia. destruct C3 as [[E1 E2]|[E1 E2]]; rewrite E1; assumption. }
  assert (M3 : moved_within a a3 pl pr).
  { assert (Hm : forall b p q, p <> q -> pl <= p <= pr -> pl <= q <= pr ->
                 List.length b = List.length a ->
                 moved_within b (swap_if_less K less dflt v b p q) pl pr).
    { intros b p q Hne Hp Hq Hb. unfold swap_if_less.
      destruct (less (val (get b p)) (val (get b q)));
        [apply moved_within_swap; lia|apply moved_within_refl]. }
    eapply moved_within_trans; [apply (Hm a pm pl); lia|].
    eapply moved_within_trans; [apply (Hm a1 pr pm); lia|].
    apply (Hm a2 pm pl); lia. }
  set (xp := get a3 pm).
  set (a4 := swap a3 pm (pr - 1)).
  assert (L4 : List.length a4 = List.length a) by (unfold a4; rewrite length_swap; lia).
  assert (E4l : get a4 pl = get a3 pl) by (apply get_swap_other; lia).
  assert (E4r : get a4 pr = get a3 pr) by (apply get_swap_other; lia).
  assert (E4p : get a4 (pr - 1) = xp) by (apply get_swap_r; lia).
  pose proof (part_loop_spec xp (pr - pl) pl pr (pr - pl) a4 pl (pr - 1))
    as HP.
  destruct (part_loop K less dflt v (pr - pl) (pr - pl) a4 pl (pr - 1) (val xp)) as [a5 r].
  destruct HP as (R1 & L5 & P5 & O5 & I5 & HL & HR); try lia.
  { intros p Hp. replace p with pl by lia. rewrite E4l. exact F3. }
  { intros p Hp. destruct (Nat.eq_dec p pr) as [->|].
    - rewrite E4r. exact G3.
    - replace p with (pr - 1) by lia. rewrite E4p.
      apply less_irrefl. }
  assert (E5p : get a5 (pr - 1) = xp) by (rewrite O5 by lia; exact E4p).
  assert (E6 : get (swap a5 r (pr - 1)) r = xp) by (rewrite get_swap_l by lia; exact E5p).
  split; [lia|]. split; [|split; [|split]].
  - eapply moved_within_trans; [exact M3|].
    apply (moved_within_trans _ a4); [apply moved_within_swap; lia|].
    apply (moved_within_trans _ a5); [|apply moved_within_swap; lia].
    split; [assumption|]. split.
    + intros p Hp. apply O5. lia.
    + intros p Hp. destruct (Nat.le_gt_cases p pl) as [H1|H1];
        [exists p; split; [lia|apply O5; lia]|].
      destruct (Nat.le_gt_cases (pr - 1) p) as [H2|H2];
        [exists p; split; [lia|apply O5; lia]|].
      destruct (I5 p) as (q & Hq & E); [lia|]. exists q. split; [lia|assumption].
  - etransitivity; [exact P1|]. etransitivity; [exact P2|]. etransitivity; [exact P3|].
    etransitivity; [apply (Permutation_swap a3 pm (pr - 1)); lia|]. fold a4.
    etransitivity; [exact P5|]. apply Permutation_swap; lia.
  - intros p Hp. rewrite E6. rewrite get_swap_other by lia. apply HL. lia.
  - intros p Hp. rewrite E6. destruct (Nat.eq_dec p (pr - 1)) as [->|].
    + rewrite get_swap_r by lia. apply HR. lia.
    + rewrite get_swap_other by lia. apply HR. lia.
Qed.

(** *** Heapsort *)

Section Heap.
Variable base n : nat.
Abbreviation hget a i := (hget a base i).
Abbreviation hset a i x := (hset a base i x).

Lemma hget_hset_eq a i x :
  1 <= i -> base + i <= List.length a -> hget (hset a i x) i = x.
Proof. intros. unfold NpSort.hget, NpSort.hset. apply get_set_eq. lia. Qed.

Lemma hget_hset_neq a i k x :
  1 <= i -> 1 <= k -> i <> k -> hget (hset a i x) k = hget a k.
Proof. intros. unfold NpSort.hget, NpSort.hset. apply get_set_neq. lia. Qed.

Lemma get_hset_outside a i x q :
  1 <= i -> i <= n -> q < base \/ base + n <= q -> get (hset a i x) q = get a q.
Proof. intros. unfold NpSort.hset. apply get_set_neq. lia. Qed.

Lemma length_hset a i x : List.length (hset a i x) = List.length a.
Proof. apply length_set. Qed.

(** Placing [tmp] in the hole closes the heap. *)
Lemma hole_filled a lo i tmp :
  1 <= lo -> lo <= i -> i <= n -> base + n <= List.length a ->
  (forall p c, lo <= p -> c <= n -> heap_edge p c -> p <> i ->
     less (val (hget a p)) (val (hget a c)) = false) ->
  (forall p, lo <= p -> heap_edge p i -> less (val (hget a p)) (val tmp) = false) ->
  (forall c, heap_edge i c -> c <= n -> less (val tmp) (val (hget a c)) = false) ->
  heap_from (hset a i tmp) base lo n.
Proof.
  intros Hlo Hi Hn Hlen E1 E3 EC p c Hp Hc He.
  assert (c <> p) by (destruct He; lia).
  destruct (Nat.eq_dec p i) as [->|Hpi].
  - rewrite hget_hset_eq by lia. rewrite hget_hset_neq by (destruct He; lia).
    apply EC; assumption.
  - rewrite (hget_hset_neq a i p) by lia.
    destruct (Nat.eq_dec c i) as [->|Hci].
    + rewrite hget_hset_eq by lia. apply E3; assumption.
    + rewrite hget_hset_neq by (destruct He; lia). apply E1; assumption.
Qed.

Lemma sift_spec lo tmp : forall fuel a i j,
  j = 2 * i ->
  1 <= lo -> lo <= i -> i <= n -> base + n <= List.length a -> n + 1 <= fuel + i ->
  (forall p c, lo <= p -> c <= n -> heap_edge p c -> p <> i ->
     less (val (hget a p)) (val (hget a c)) = false) ->
  (forall p c, lo <= p -> heap_edge p i -> heap_edge i c -> c <= n ->
     less (val (hget a p)) (val (hget a c)) = false) ->
  (forall p, lo <= p -> heap_edge p i -> less (val (hget a p)) (val tmp) = false) ->
  let r := sift K less dflt v fuel a base n i j tmp in
  heap_from r base lo n
  /\ Permutation (hset a i tmp) r
  /\ List.length r = List.length a
  /\ (forall q, q < base \/ base + n <= q -> get r q = get a q).
Proof.
  induction fuel as [|f IH]; intros a i j Hj Hlo Hi Hn Hlen Hf E1 E2 E3; [lia|].
  cbn [sift].
  assert (Exit : (forall c, heap_edge i c -> c <= n ->
                     less (val tmp) (val (hget a c)) = false) ->
                 heap_from (hset a i tmp) base lo n
                 /\ Permutation (hset a i tmp) (hset a i tmp)
                 /\ List.length (hset a i tmp) = List.length a
                 /\ (forall q, q < base \/ base + n <= q -> get (hset a i tmp) q = get a q)).
  { intros EC. split; [apply hole_filled; assumption|]. split; [reflexivity|].
    split; [apply length_hset|]. intros q Hq. apply get_hset_outside; lia. }
  destruct (j <=? n) eqn:Hjn; [apply Nat.leb_le in Hjn|apply Nat.leb_gt in Hjn].
  2:{ apply Exit. intros c [Hc|Hc] Hcn; lia. }
  set (j' := if (j <? n) && less (val (hget a j)) (val (hget a (j + 1)))
             then j + 1 else j).
  assert (Hj' : heap_edge i j' /\ j' <= n
                /\ forall c, heap_edge i c -> c <= n ->
                     less (val (hget a j')) (val (hget a c)) = false).
  { unfold j'. destruct (j <? n) eqn:Hlt; [apply Nat.ltb_lt in Hlt|apply Nat.ltb_ge in Hlt];
      cbn [andb].
    - destruct (less (val (hget a j)) (val (hget a (j + 1)))) eqn:Hl.
      + split; [right; lia|]. split; [lia|]. intros c [Hc|Hc] Hcn.
        * replace c with j by lia. apply less_asym. exact Hl.
        * replace c with (j + 1) by lia. apply less_irrefl.
      + split; [left; lia|]. split; [lia|]. intros c [Hc|Hc] Hcn.
        * replace c with j by lia. apply less_irrefl.
        * replace c with (j + 1) by lia. exact Hl.
    - split; [left; lia|]. split; [lia|]. intros c [Hc|Hc] Hcn; [|lia].
      replace c with j by lia. apply less_irrefl. }
  clearbody j'. destruct Hj' as (Ej & Hjn' & Hbig).
  assert (i < j') by (destruct Ej; lia).
  destruct (less (val tmp) (val (hget a j'))) eqn:Hup.
  2:{ apply Exit. intros c Hc Hcn. apply less_ntrans with (y := hget a j'); auto. }
  specialize (IH (hset a i (hget a j')) j' (j' + j')).
  destruct IH as (R1 & R2 & R3 & R4); try lia.
  - rewrite length_hset. lia.
  - intros p c Hp Hc He Hne.
    assert (c <> p) by (destruct He; lia).
    destruct (Nat.eq_dec p i) as [->|Hpi].
    + rewrite hget_hset_eq by lia. rewrite hget_hset_neq by (destruct He; lia).
      apply Hbig; assumption.
    + rewrite (hget_hset_neq a i p) by lia.
      destruct (Nat.eq_dec c i) as [->|Hci].
      * rewrite hget_hset_eq by lia. apply E2; assumption.
      * rewrite hget_hset_neq by (destruct He; lia). apply E1; assumption.
  - intros p c Hp He1 He2 Hc.
    assert (p = i) by (destruct Ej, He1; lia). subst p.
    rewrite hget_hset_eq by lia. rewrite hget_hset_neq by (destruct He2; lia).
    apply E1; try assumption; lia.
  - intros p Hp He1.
    assert (p = i) by (destruct Ej, He1; lia). subst p.
    rewrite hget_hset_eq by lia. apply less_asym. exact Hup.
  - split; [exact R1|]. rewrite length_hset in R3. split; [|split; [exact R3|]].
    + etransitivity; [|exact R2].
      unfold NpSort.hset, NpSort.hget.
      rewrite set_then_set_is_swap by lia.
      apply Permutation_swap; rewrite length_set; lia.
    + intros q Hq. rewrite R4 by assumption. apply get_hset_outside; lia.
Qed.

Lemma heapify_spec : forall l a,
  l <= n -> base + n <= List.length a ->
  heap_from a base (l + 1) n ->
  let r := heapify K less dflt v l a base n in
  heap_from r base 1 n
  /\ Permutation a r
  /\ List.length r = List.length a
  /\ (forall q, q < base \/ base + n <= q -> get r q = get a q).
Proof.
  induction l as [|l IH]; intros a Hl Hlen Hh.
  - cbn [heapify]. split; [exact Hh|]. split; [reflexivity|]. split; reflexivity.
  - cbn [heapify].
    destruct (sift_spec (S l) (hget a (S l)) n a (S l) (2 * S l))
      as (R1 & R2 & R3 & R4); try lia.
    + intros p c Hp Hc He Hne. apply Hh; try assumption. lia.
    + intros p c Hp He1. destruct He1; lia.
    + intros p Hp He1. destruct He1; lia.
    + set (r1 := sift K less dflt v n a base n (S l) (2 * S l) (hget a (S l))) in *.
      destruct (IH r1) as (S1 & S2 & S3 & S4); try lia.
      * replace (l + 1) with (S l) by lia. exact R1.
      * split; [exact S1|]. split; [|split; [lia|]].
        -- etransitivity; [|exact S2]. etransitivity; [|exact R2].
           unfold NpSort.hset, NpSort.hget. rewrite set_get_same. reflexivity.
        -- intros q Hq. rewrite S4, R4 by assumption. reflexivity.
Qed.

End Heap.

Section HeapSort.
Variable base : nat.
Abbreviation hget a i := (hget a base i).
Abbreviation hset a i x := (hset a base i x).

Lemma heap_root_max a n :
  heap_from a base 1 n ->
  forall i, 1 <= i <= n -> less (val (hget a 1)) (val (hget a i)) = false.
Proof.
  intros Hh i. induction i as [i IH] using lt_wf_ind. intros Hi.
  destruct (Nat.eq_dec i 1) as [->|Hne]; [apply less_irrefl|].
  pose proof (div2_bounds i) as Hd.
  apply less_ntrans with (y := hget a (Nat.div2 i)).
  - apply IH; lia.
  - apply Hh; [lia|lia|]. unfold heap_edge. lia.
Qed.

Lemma extract_step m a :
  extract K less dflt v (S (S m)) a base =
  extract K less dflt v (S m)
    (sift K less dflt v (S m) (hset a (S (S m)) (hget a 1)) base (S m) 1 2
       (hget a (S (S m)))) base.
Proof. reflexivity. Qed.

Variable N : nat.

Lemma extract_spec : forall n a,
  n <= N -> base + N <= List.length a ->
  heap_from a base 1 n ->
  sorted_range a (base + n) (base + N - 1) ->
  (n < N -> forall i, 1 <= i <= n ->
     less (val (hget a (n + 1))) (val (hget a i)) = false) ->
  let r := extract K less dflt v n a base in
  sorted_range r base (base + N - 1)
  /\ Permutation a r
  /\ List.length r = List.length a
  /\ (forall q, q < base \/ base + N <= q -> get r q = get a q).
Proof.
  induction n as [|n0 IH]; intros a Hn Hlen Hh Hs Hm.
  - cbn [extract]. split; [|split; [reflexivity|split; reflexivity]].
    replace (base + 0) with base in Hs by lia. exact Hs.
  - destruct n0 as [|m].
    + cbn [extract]. split; [|split; [reflexivity|split; reflexivity]].
      intros p Hp. destruct (Nat.eq_dec p base) as [->|Hne].
      * specialize (Hm ltac:(lia) 1 ltac:(lia)). unfold NpSort.hget in Hm.
        replace (base + (1 + 1) - 1) with (S base) in Hm by lia.
        replace (base + 1 - 1) with base in Hm by lia. exact Hm.
      * apply Hs. lia.
    + rewrite extract_step. cbv zeta.
      set (n := S (S m)) in *. set (n' := S m) in *.
      set (tmp := hget a n). set (a1 := hset a n (hget a 1)).
      assert (L1 : List.length a1 = List.length a) by apply length_set.
      destruct (sift_spec base n' 1 tmp n' a1 1 2)
        as (R1 & R2 & R3 & R4); try lia.
      { intros p c Hp Hc He Hne. unfold a1.
        assert (p < c) by (destruct He; lia).
        rewrite !(hget_hset_neq base) by lia. apply Hh; [lia|lia|assumption]. }
      { intros p c Hp He. destruct He; lia. }
      { intros p Hp He. destruct He; lia. }
      set (a2 := sift K less dflt v n' a1 base n' 1 2 tmp) in *.
      assert (Eb : hset a1 1 tmp = swap a (base + n - 1) (base + 1 - 1)) by reflexivity.
      assert (Pb : Permutation a (hset a1 1 tmp))
        by (rewrite Eb; apply Permutation_swap; lia).
      assert (Etop : get a2 (base + n') = hget a 1).
      { rewrite R4 by lia. unfold a1, NpSort.hset.
        replace (base + n - 1) with (base + n') by lia. apply get_set_eq. lia. }
      assert (Eabove : forall q, base + n' < q -> get a2 q = get a q).
      { intros q Hq. rewrite R4 by lia. unfold a1, NpSort.hset. apply get_set_neq. lia. }
      destruct (IH a2) as (S1 & S2 & S3 & S4); try lia.
      * exact R1.
      * intros p Hp. destruct (Nat.eq_dec p (base + n')) as [->|Hne].
        -- rewrite Etop. rewrite Eabove by lia.
           specialize (Hm ltac:(lia) 1 ltac:(lia)). unfold NpSort.hget in Hm |- *.
           replace (base + (n + 1) - 1) with (S (base + n')) in Hm by lia. exact Hm.
        -- rewrite !Eabove by lia. apply Hs. lia.
      * intros _ i Hi. unfold NpSort.hget at 1.
        replace (base + (n' + 1) - 1) with (base + n') by lia. rewrite Etop.
        assert (M : moved_within (hset a1 1 tmp) a2 base (base + n' - 1)).
        { apply perm_moved_within.
          - lia.
          - unfold NpSort.hset. rewrite length_set. lia.
          - unfold NpSort.hset. rewrite length_set. lia.
          - intros p Hp. rewrite R4 by lia. symmetry. apply get_set_neq. lia.
          - exact R2. }
        destruct M as (_ & _ & M). destruct (M (base + i - 1)) as (q & Hq & E); [lia|].
        unfold NpSort.hget at 2. rewrite E, Eb.
        destruct (Nat.eq_dec q (base + 1 - 1)) as [->|Hq1].
        -- rewrite get_swap_r by lia.
           apply (heap_root_max a n Hh n). lia.
        -- rewrite get_swap_other by lia.
           replace q with (base + (q - base + 1) - 1) by lia.
           apply (heap_root_max a n Hh (q - base + 1)). lia.
      * split; [exact S1|]. split; [|split; [lia|]].
        -- etransitivity; [exact Pb|]. etransitivity; [exact R2|exact S2].
        -- intros q Hq. rewrite S4 by assumption. rewrite R4 by lia.
           unfold a1, NpSort.hset. apply get_set_neq. lia.
Qed.

Lemma aheapsort_sorts a :
  1 <= N -> base + N <= List.length a ->
  sorts a (aheapsort K less dflt v a base N) base (base + N - 1).
Proof.
  intros HN Hlen. unfold aheapsort.
  pose proof (div2_bounds N) as Hd.
  destruct (heapify_spec base N (Nat.div2 N) a)
    as (R1 & R2 & R3 & R4); try lia.
  { intros p c Hp Hc He. destruct He; lia. }
  set (a1 := heapify K less dflt v (Nat.div2 N) a base N) in *.
  destruct (extract_spec N a1) as (S1 & S2 & S3 & S4); try lia.
  - exact R1.
  - intros p Hp. lia.
  - assert (P : Permutation a (extract K less dflt v N a1 base))
      by (etransitivity; [exact R2|exact S2]).
    split; [|split; [exact P|exact S1]].
    apply perm_moved_within; try lia; [|exact P].
    intros p Hp. rewrite S4, R4 by lia. reflexivity.
Qed.

End HeapSort.

(** *** The quicksort loop *)

Lemma two_sorts a b c l1 r1 l2 r2 :
  r1 < l2 \/ r2 < l1 ->
  sorts a b l1 r1 -> sorts b c l2 r2 ->
  List.length c = List.length a
  /\ Permutation a c
  /\ (forall p, (p < l1 \/ r1 < p) -> (p < l2 \/ r2 < p) -> get c p = get a p)
  /\ (forall p, l1 <= p <= r1 -> exists q, l1 <= q <= r1 /\ get c p = get a q)
  /\ (forall p, l2 <= p <= r2 -> exists q, l2 <= q <= r2 /\ get c p = get a q)
  /\ sorted_range c l1 r1
  /\ sorted_range c l2 r2.
Proof.
  intros Hd ((L1 & O1 & I1) & P1 & S1) ((L2 & O2 & I2) & P2 & S2).
  split; [congruence|]. split; [etransitivity; eassumption|].
  split; [intros p H1 H2; rewrite O2, O1; auto|].
  split; [intros p Hp; rewrite O2 by lia; apply I1; assumption|].
  split; [intros p Hp; destruct (I2 p Hp) as (q & Hq & ->); exists q; split;
          [assumption|apply O1; lia]|].
  split; [|exact S2].
  intros p Hp. rewrite !O2 by lia. apply S1. assumption.
Qed.

Lemma sorts_combine a c pl pi pr :
  pl < pi < pr ->
  (forall p, pl <= p < pi -> less (val (get a pi)) (val (get a p)) = false) ->
  (forall p, pi < p <= pr -> less (val (get a p)) (val (get a pi)) = false) ->
  List.length c = List.length a ->
  Permutation a c ->
  (forall p, (p < pl \/ pi - 1 < p) -> (p < pi + 1 \/ pr < p) -> get c p = get a p) ->
  (forall p, pl <= p <= pi - 1 -> exists q, pl <= q <= pi - 1 /\ get c p = get a q) ->
  (forall p, pi + 1 <= p <= pr -> exists q, pi + 1 <= q <= pr /\ get c p = get a q) ->
  sorted_range c pl (pi - 1) ->
  sorted_range c (pi + 1) pr ->
  sorts a c pl pr.
Proof.
  intros Hpi PL PR L P O IL IR SL SR.
  assert (Epi : get c pi = get a pi) by (apply O; lia).
  split; [|split; [exact P|]].
  - split; [exact L|]. split; [intros p Hp; apply O; lia|].
    intros p Hp.
    destruct (Nat.lt_trichotomy p pi) as [H|[->|H]].
    + destruct (IL p) as (q & Hq & E); [lia|]. exists q. split; [lia|exact E].
    + exists pi. split; [lia|exact Epi].
    + destruct (IR p) as (q & Hq & E); [lia|]. exists q. split; [lia|exact E].
  - intros p Hp.
    destruct (Nat.lt_trichotomy (S p) pi) as [H|[H|H]].
    + apply SL. lia.
    + rewrite H, Epi. destruct (IL p) as (q & Hq & ->); [lia|]. apply PL. lia.
    + destruct (Nat.eq_dec p pi) as [->|Hne].
      * rewrite Epi. destruct (IR (S pi)) as (q & Hq & ->); [lia|]. apply PR. lia.
      * apply SR. lia.
Qed.

Lemma sorts_after a b c pl pr :
  moved_within a b pl pr -> Permutation a b -> sorts b c pl pr -> sorts a c pl pr.
Proof.
  intros M P (M' & P' & S). split; [|split; [|exact S]].
  - eapply moved_within_trans; eassumption.
  - etransitivity; eassumption.
Qed.

Lemma aq_loop_sorts : forall fuel a pl pr cdepth,
  pl <= pr -> pr < List.length a -> pr - pl < fuel \/ pr - pl <= SMALL_QUICKSORT ->
  sorts a (aq_loop K less dflt v fuel a pl pr cdepth) pl pr.
Proof.
  induction fuel as [|f IH]; intros a pl pr cdepth Hle Hlen Hf.
  - cbn [aq_loop]. apply insertion_sort_sorts; assumption.
  - cbn [aq_loop].
    destruct (SMALL_QUICKSORT <? pr - pl) eqn:Hbig;
      [apply Nat.ltb_lt in Hbig|apply insertion_sort_sorts; assumption].
    unfold SMALL_QUICKSORT in *.
    pose proof (partition_spec a pl pr) as HP.
    destruct (partition K less dflt v a pl pr) as [a1 pi].
    destruct HP as (Hpi & M1 & P1 & PL & PR); try lia.
    assert (L1 : List.length a1 = List.length a) by apply M1.
    assert (Hpop : forall b l r, l <= r -> r < List.length b -> r - l < f ->
              sorts b (if (cdepth - 1 <? 0)%Z
                       then aheapsort K less dflt v b l (r - l + 1)
                       else aq_loop K less dflt v f b l r (cdepth - 1)) l r).
    { intros b l r H1 H2 H3. destruct (cdepth - 1 <? 0)%Z.
      - replace r with (l + (r - l + 1) - 1) at 2 by lia.
        apply aheapsort_sorts; try assumption; lia.
      - apply IH; try assumption. left. exact H3. }
    apply (sorts_after a a1); [exact M1|exact P1|].
    destruct (pi - pl <? pr - pi).
    + set (a2 := aq_loop K less dflt v f a1 pl (pi - 1) (cdepth - 1)).
      assert (S2 : sorts a1 a2 pl (pi - 1)) by (apply IH; lia).
      assert (L2 : List.length a2 = List.length a1) by apply S2.
      assert (S3 := Hpop a2 (pi + 1) pr ltac:(lia) ltac:(lia) ltac:(lia)).
      destruct (two_sorts a1 a2 _ pl (pi - 1) (pi + 1) pr ltac:(lia) S2 S3)
        as (T1 & T2 & T3 & T4 & T5 & T6 & T7).
      apply (sorts_combine a1 _ pl pi pr); assumption.
    + set (a2 := aq_loop K less dflt v f a1 (pi + 1) pr (cdepth - 1)).
      assert (S2 : sorts a1 a2 (pi + 1) pr) by (apply IH; lia).
      assert (L2 : List.length a2 = List.length a1) by apply S2.
      assert (S3 := Hpop a2 pl (pi - 1) ltac:(lia) ltac:(lia) ltac:(lia)).
      destruct (two_sorts a1 a2 _ (pi + 1) pr pl (pi - 1) ltac:(lia) S2 S3)
        as (T1 & T2 & T3 & T4 & T5 & T6 & T7).
      apply (sorts_combine a1 _ pl pi pr); try assumption.
      intros p H1 H2. apply T3; assumption.
Qed.

(** [argsort] returns the positions of [v] in an order in which no key
    is directly followed by a smaller one. *)
Lemma argsort_sorts :
  let s := argsort K less dflt v in
  Permutation (seq 0 (List.length v)) s
  /\ not_rising K less dflt v (rev s).
Proof.
  unfold argsort. set (n := List.length v).
  destruct (Nat.eq_dec n 0) as [E|E].
  - rewrite E. cbn. split; [reflexivity|exact I].
  - destruct (aq_loop_sorts n (seq 0 n) 0 (n - 1) (2 * Z.log2 (Z.of_nat n))%Z)
      as (M & P & Hs); try (rewrite ?length_seq; lia).
    split; [exact P|].
    set (s := aq_loop K less dflt v n (seq 0 n) 0 (n - 1) (2 * Z.log2 (Z.of_nat n))) in *.
    assert (Ls : List.length s = n)
      by (rewrite <- (Permutation_length P); apply length_seq).
    apply nth_not_rising. intros k Hk. rewrite length_rev in Hk.
    rewrite !rev_nth by lia.
    replace (List.length s - S k) with (S (List.length s - S (S k))) by lia.
    apply (Hs (List.length s - S (S k))). lia.
Qed.
End Sorting.

(** Twenty keys go through a partition before the insertion sort; the
    heapsort sorts them as well. *)
Example argsort_sorts_shuffled20 :
  map (fun i => nth i Sample.shuffled20 0)
      (argsort nat Nat.ltb 0 Sample.shuffled20) = seq 0 20
  /\ map (fun i => nth i Sample.shuffled20 0)
         (aheapsort nat Nat.ltb 0 Sample.shuffled20 (seq 0 20) 0 20) = seq 0 20.
Proof. split; vm_compute; reflexivity. Qed.

End SortFacts.

(** ** [sort_values] *)

Module PandasFacts.
Import NpSort SortSpec SortFacts Pandas.

Lemma select_map_filter {A} (q : A -> bool) (l : list A) :
  select (map q l) l = filter q l.
Proof.
  induction l as [|x l IH]; simpl; [reflexivity|].
  now destruct (q x); rewrite IH.
Qed.

Lemma select_map {A B} (g : A -> B) : forall mask (l : list A),
  select mask (map g l) = map g (select mask l).
Proof.
  induction mask as [|b mask IH]; intros [|x l]; simpl; try reflexivity.
  destruct b; simpl; now rewrite IH.
Qed.

Lemma map_nth_seq {A} (d : A) (l : list A) :
  map (fun i => nth i l d) (seq 0 (List.length l)) = l.
Proof.
  induction l as [|x l IH]; simpl; [reflexivity|].
  f_equal. rewrite <- seq_shift, map_map. exact IH.
Qed.

Lemma filter_map_comm {A B} (q : B -> bool) (g : A -> B) (l : list A) :
  filter q (map g l) = map g (filter (fun x => q (g x)) l).
Proof.
  induction l as [|x l IH]; simpl; [reflexivity|].
  destruct (q (g x)); simpl; now rewrite IH.
Qed.

Lemma filter_filter {A} (p q : A -> bool) (l : list A) :
  filter q (filter p l) = filter (fun x => p x && q x) l.
Proof.
  induction l as [|x l IH]; simpl; [reflexivity|].
  destruct (p x); simpl; [destruct (q x)|]; now rewrite IH.
Qed.

Lemma filter_none {A} (q : A -> bool) (l : list A) :
  (forall x, In x l -> q x = false) -> filter q l = [].
Proof.
  induction l as [|x l IH]; intros H; simpl; [reflexivity|].
  rewrite (H x (or_introl eq_refl)). apply IH. intros y Hy. apply H. now right.
Qed.

Lemma ltb_nan_l x : PyFloat.ltb S754_nan x = false.
Proof. reflexivity. Qed.

Lemma ltb_nan_r x : PyFloat.ltb x S754_nan = false.
Proof. now destruct x as [[]|[]| |[] m e]. Qed.

Lemma ltb_missing a b : is_nan a = true -> PyFloat.ltb a b = false.
Proof. destruct a; try discriminate. reflexivity. Qed.

Lemma ltb_asym a b : PyFloat.ltb a b = true -> PyFloat.ltb b a = false.
Proof.
  unfold PyFloat.ltb, SFltb. rewrite (FloatFacts.compare_antisym a b).
  now destruct (SFcompare a b) as [[]|].
Qed.

Lemma partition_perm {A} (p q : A -> bool) (l : list A) :
  (forall x, q x = negb (p x)) ->
  Permutation l (filter p l ++ filter q l).
Proof.
  intros Hq. induction l as [|x l IH]; simpl; [reflexivity|].
  rewrite (Hq x). destruct (p x); simpl.
  - now apply perm_skip.
  - rewrite <- Permutation_middle. now apply perm_skip.
Qed.

Lemma descending_missing (l : list record) :
  Forall (fun r => missing_score r = true) l -> descending l.
Proof.
  induction 1 as [|r l Hr Hl IH]; [exact I|].
  destruct l as [|r2 l]; [exact I|].
  split; [now apply ltb_missing | exact IH].
Qed.

Lemma descending_app_missing (l m : list record) :
  descending l -> Forall (fun r => missing_score r = true) m ->
  descending (l ++ m).
Proof.
  intros Hl Hm. induction l as [|r1 l IH]; [now apply descending_missing|].
  destruct l as [|r2 l].
  - simpl. destruct m as [|r m]; [exact I|].
    split; [|now apply descending_missing].
    inversion Hm as [|? ? Hr _]; subst. unfold missing_score in Hr.
    destruct (chosen r); try discriminate. apply ltb_nan_r.
  - destruct Hl as [H12 Hl]. split; [exact H12 | now apply IH].
Qed.

Lemma descending_map_rows (rows : list record) : forall order,
  Forall (fun p => p < List.length rows) order ->
  not_rising spec_float PyFloat.ltb zero (map chosen rows) order ->
  descending (map (fun p => nth p rows empty_record) order).
Proof.
  assert (Hval : forall p, p < List.length rows ->
                           NpSort.val spec_float zero (map chosen rows) p =
                           chosen (nth p rows empty_record)).
  { intros p Hp. unfold NpSort.val.
    rewrite (nth_indep _ zero (chosen empty_record))
      by (now rewrite length_map).
    apply map_nth. }
  induction order as [|x order IH]; intros Hin H; [exact I|].
  inversion Hin as [|? ? Hx Hin']; subst.
  destruct order as [|y order]; [exact I|].
  inversion Hin' as [|? ? Hy _]; subst.
  destruct H as [Hxy H]. split; [|now apply IH].
  now rewrite <- !Hval.
Qed.

(** The order of two keys: exponents first, then mantissas. *)
Lemma lex_cases (e1 e2 : Z) (m1 m2 : positive) :
  match (e1 ?= e2)%Z with
  | Lt => (e1 < e2)%Z
  | Gt => (e2 < e1)%Z
  | Eq => e1 = e2 /\ match Pos.compare_cont Eq m1 m2 with
                     | Lt => (m1 < m2)%positive
                     | Gt => (m2 < m1)%positive
                     | Eq => m1 = m2
                     end
  end.
Proof.
  destruct (Z.compare_spec e1 e2); try assumption. split; [assumption|].
  change (Pos.compare_cont Eq m1 m2) with (m1 ?= m2)%positive.
  destruct (Pos.compare_spec m1 m2); assumption.
Qed.

(** On numbers, "not below" is transitive. *)
Lemma ltb_ntrans a b c :
  is_nan a = false -> is_nan b = false -> is_nan c = false ->
  PyFloat.ltb a b = false -> PyFloat.ltb b c = false -> PyFloat.ltb a c = false.
Proof.
  unfold PyFloat.ltb, SFltb.
  destruct a as [sa|sa| |sa ma ea], b as [sb|sb| |sb mb eb],
           c as [sc|sc| |sc mc ec]; try discriminate; intros _ _ _;
    try reflexivity;
    try (destruct sa, sb, sc; simpl; intros; congruence).
  destruct sa, sb, sc; cbn [SFcompare]; try congruence; try reflexivity.
  - pose proof (lex_cases ea eb ma mb) as H1.
    pose proof (lex_cases eb ec mb mc) as H2.
    pose proof (lex_cases ea ec ma mc) as H3.
    destruct (ea ?= eb)%Z, (eb ?= ec)%Z, (ea ?= ec)%Z; try discriminate;
      try reflexivity; try lia;
      destruct H1 as [? H1], H2 as [? H2], H3 as [? H3];
      destruct (Pos.compare_cont Eq ma mb), (Pos.compare_cont Eq mb mc),
               (Pos.compare_cont Eq ma mc); simpl;
      try discriminate; try reflexivity; lia.
  - pose proof (lex_cases ea eb ma mb) as H1.
    pose proof (lex_cases eb ec mb mc) as H2.
    pose proof (lex_cases ea ec ma mc) as H3.
    destruct (ea ?= eb)%Z, (eb ?= ec)%Z, (ea ?= ec)%Z; try discriminate;
      try reflexivity; try lia;
      destruct H1 as [? H1], H2 as [? H2], H3 as [? H3];
      destruct (Pos.compare_cont Eq ma mb), (Pos.compare_cont Eq mb mc),
               (Pos.compare_cont Eq ma mc); simpl;
      try discriminate; try reflexivity; lia.
Qed.

Lemma val_present (keys : list spec_float) x :
  Forall (fun k => is_nan k = false) keys ->
  is_nan (NpSort.val spec_float zero keys x) = false.
Proof.
  intros H. unfold NpSort.val.
  destruct (Nat.lt_ge_cases x (List.length keys)) as [Hx|Hx].
  - rewrite Forall_forall in H. apply H, nth_In, Hx.
  - rewrite nth_overflow by exact Hx. reflexivity.
Qed.

Lemma present_keys (df : table) :
  Forall (fun k => is_nan k = false) (map chosen (rev (filter present df))).
Proof.
  apply Forall_forall. intros k Hk. apply in_map_iff in Hk.
  destruct Hk as (r & <- & Hr). apply in_rev, filter_In in Hr.
  destruct Hr as [_ Hr]. unfold present, missing_score in Hr.
  now destruct (is_nan (chosen r)).
Qed.

(** The rows with a score, reordered so that no score rises, then the
    rows without one. *)
Lemma sort_values_shape (df : table) :
  exists order : list nat,
    Permutation (seq 0 (List.length (filter present df))) order
    /\ not_rising spec_float PyFloat.ltb zero
                  (map chosen (rev (filter present df))) order
    /\ sort_values df =
       map (fun p => nth p (rev (filter present df)) empty_record) order
       ++ filter missing_score df.
Proof.
  set (nn := filter present df).
  set (keys := map chosen (rev nn)).
  assert (Hm : List.length keys = List.length nn)
    by (unfold keys; now rewrite length_map, length_rev).
  destruct (argsort_sorts spec_float PyFloat.ltb zero keys ltb_asym) as [HP HS].
  { intros x y z. apply ltb_ntrans; apply val_present, present_keys. }
  exists (rev (argsort spec_float PyFloat.ltb zero keys)).
  split; [|split].
  - rewrite <- Hm. etransitivity; [exact HP|apply Permutation_rev].
  - exact HS.
  - unfold sort_values, take, nargsort_desc.
    set (n := List.length (map chosen df)).
    assert (Hn : n = List.length df) by (unfold n; apply length_map).
    set (mask := map is_nan (map chosen df)).
    assert (Hmask : mask = map missing_score df)
      by (unfold mask; now rewrite map_map).
    assert (Hnm : map negb mask = map present df)
      by (rewrite Hmask; now rewrite map_map).
    set (row := fun i => nth i df empty_record).
    assert (Hrows : map row (seq 0 n) = df)
      by (rewrite Hn; apply map_nth_seq).
    set (nnidx := rev (select (map negb mask) (seq 0 n))).
    assert (Hnnrows : map row nnidx = rev nn).
    { unfold nnidx, nn. rewrite map_rev, <- select_map, Hrows, Hnm.
      now rewrite select_map_filter. }
    assert (Hkeys : rev (select (map negb mask) (map chosen df)) = keys).
    { unfold keys, nn. rewrite select_map, Hnm, select_map_filter.
      now rewrite map_rev. }
    rewrite Hkeys, map_app. f_equal.
    + rewrite <- (map_rev (fun p => nth p nnidx 0)), map_map.
      apply map_ext_in. intros p Hp.
      transitivity (nth p (map row nnidx) (row 0));
        [symmetry; apply map_nth|].
      rewrite Hnnrows. apply nth_indep.
      apply in_rev in Hp.
      apply (Permutation_in p (Permutation_sym HP)) in Hp.
      apply in_seq in Hp. rewrite length_rev, <- Hm. lia.
    + rewrite <- select_map, Hrows, Hmask. now rewrite select_map_filter.
Qed.

Lemma missing_rows (df : table) :
  Forall (fun r => missing_score r = true) (filter missing_score df).
Proof. apply Forall_forall. intros r Hr. now apply filter_In in Hr. Qed.

Lemma order_in_range (df : table) order :
  Permutation (seq 0 (List.length (filter present df))) order ->
  Forall (fun p => p < List.length (rev (filter present df))) order.
Proof.
  intros Hperm. apply (Permutation_Forall Hperm).
  apply Forall_forall. intros p Hp. apply in_seq in Hp.
  rewrite length_rev. lia.
Qed.

Lemma sort_values_perm (df : table) : Permutation df (sort_values df).
Proof.
  destruct (sort_values_shape df) as (order & Hperm & _ & ->).
  transitivity (filter present df ++ filter missing_score df).
  { apply partition_perm. intros r. unfold present.
    now rewrite negb_involutive. }
  apply Permutation_app_tail.
  transitivity (rev (filter present df)); [apply Permutation_rev|].
  rewrite <- (map_nth_seq empty_record (rev (filter present df))) at 1.
  rewrite length_rev. now apply Permutation_map.
Qed.

Lemma sort_values_descending (df : table) : descending (sort_values df).
Proof.
  destruct (sort_values_shape df) as (order & Hperm & Hord & ->).
  apply descending_app_missing; [|apply missing_rows].
  apply descending_map_rows; [|exact Hord].
  now apply order_in_range.
Qed.

Lemma sort_values_missing (df : table) :
  filter missing_score (sort_values df) = filter missing_score df.
Proof.
  destruct (sort_values_shape df) as (order & Hperm & _ & ->).
  rewrite filter_app, filter_map_comm.
  rewrite (filter_none _ order).
  - simpl. rewrite filter_filter. apply filter_ext. intros r. apply andb_diag.
  - intros p Hp.
    pose proof (order_in_range df order Hperm) as Hr.
    rewrite Forall_forall in Hr. specialize (Hr p Hp).
    assert (Hin : In (nth p (rev (filter present df)) empty_record)
                     (filter present df)) by (apply in_rev, nth_In, Hr).
    apply filter_In in Hin. destruct Hin as [_ Hin]. unfold present in Hin.
    now destruct (missing_score _).
Qed.

(** ** [sort_values], whichever sort NumPy runs *)

(** The sort of the model is the generic one. *)
Lemma sort_values_generic (df : table) :
  sort_values df = sort_values_with generic_argsort df.
Proof. reflexivity. Qed.

(** NumPy's generic introsort keeps the promise of [argsort]. *)
Lemma generic_argsort_sorts : sorts_ascending generic_argsort.
Proof.
  intros keys Hk. unfold generic_argsort.
  apply (argsort_sorts spec_float PyFloat.ltb zero keys ltb_asym).
  intros x y z. apply ltb_ntrans; now apply val_present.
Qed.

Section AnySorter.
Variable argsort : list spec_float -> list nat.
Hypothesis contract : sorts_ascending argsort.

(** The rows with a score, reordered so that no score rises, then the
    rows without one. *)
Lemma sort_values_with_shape (df : table) :
  exists order : list nat,
    Permutation (seq 0 (List.length (filter present df))) order
    /\ not_rising spec_float PyFloat.ltb zero
                  (map chosen (rev (filter present df))) order
    /\ sort_values_with argsort df =
       map (fun p => nth p (rev (filter present df)) empty_record) order
       ++ filter missing_score df.
Proof.
  set (nn := filter present df).
  set (keys := map chosen (rev nn)).
  assert (Hm : List.length keys = List.length nn)
    by (unfold keys; now rewrite length_map, length_rev).
  destruct (contract keys (present_keys df)) as [HP HS].
  exists (rev (argsort keys)).
  split; [|split].
  - rewrite <- Hm. etransitivity; [exact HP|apply Permutation_rev].
  - exact HS.
  - unfold sort_values_with, take, nargsort_desc_with.
    set (n := List.length (map chosen df)).
    assert (Hn : n = List.length df) by (unfold n; apply length_map).
    set (mask := map is_nan (map chosen df)).
    assert (Hmask : mask = map missing_score df)
      by (unfold mask; now rewrite map_map).
    assert (Hnm : map negb mask = map present df)
      by (rewrite Hmask; now rewrite map_map).
    set (row := fun i => nth i df empty_record).
    assert (Hrows : map row (seq 0 n) = df)
      by (rewrite Hn; apply map_nth_seq).
    set (nnidx := rev (select (map negb mask) (seq 0 n))).
    assert (Hnnrows : map row nnidx = rev nn).
    { unfold nnidx, nn. rewrite map_rev, <- select_map, Hrows, Hnm.
      now rewrite select_map_filter. }
    assert (Hkeys : rev (select (map negb mask) (map chosen df)) = keys).
    { unfold keys, nn. rewrite select_map, Hnm, select_map_filter.
      now rewrite map_rev. }
    rewrite Hkeys, map_app. f_equal.
    + rewrite <- (map_rev (fun p => nth p nnidx 0)), map_map.
      apply map_ext_in. intros p Hp.
      transitivity (nth p (map row nnidx) (row 0));
        [symmetry; apply map_nth|].
      rewrite Hnnrows. apply nth_indep.
      apply in_rev in Hp.
      apply (Permutation_in p (Permutation_sym HP)) in Hp.
      apply in_seq in Hp. rewrite length_rev, <- Hm. lia.
    + rewrite <- select_map, Hrows, Hmask. now rewrite select_map_filter.
Qed.

Lemma scored_rows (df : table) order :
  Permutation (seq 0 (List.length (filter present df))) order ->
  Forall (fun r => present r = true)
         (map (fun p => nth p (rev (filter present df)) empty_record) order).
Proof.
  intros Hperm. apply Forall_forall. intros r Hr.
  apply in_map_iff in Hr. destruct Hr as (p & <- & Hp).
  pose proof (order_in_range df order Hperm) as Hr.
  rewrite Forall_forall in Hr. specialize (Hr p Hp).
  assert (Hin : In (nth p (rev (filter present df)) empty_record)
                   (filter present df)) by (apply in_rev, nth_In, Hr).
  apply filter_In in Hin. now destruct Hin.
Qed.

Lemma sort_values_with_perm (df : table) :
  Permutation df (sort_values_with argsort df).
Proof.
  destruct (sort_values_with_shape df) as (order & Hperm & _ & ->).
  transitivity (filter present df ++ filter missing_score df).
  { apply partition_perm. intros r. unfold present.
    now rewrite negb_involutive. }
  apply Permutation_app_tail.
  transitivity (rev (filter present df)); [apply Permutation_rev|].
  rewrite <- (map_nth_seq empty_record (rev (filter present df))) at 1.
  rewrite length_rev. now apply Permutation_map.
Qed.

Lemma sort_values_with_descending (df : table) :
  descending (sort_values_with argsort df).
Proof.
  destruct (sort_values_with_shape df) as (order & Hperm & Hord & ->).
  apply descending_app_missing; [|apply missing_rows].
  apply descending_map_rows; [|exact Hord].
  now apply order_in_range.
Qed.

Lemma sort_values_with_missing_last (df : table) :
  exists scored,
    sort_values_with argsort df = scored ++ filter missing_score df
    /\ Forall (fun r => present r = true) scored.
Proof.
  destruct (sort_values_with_shape df) as (order & Hperm & _ & ->).
  eexists. split; [reflexivity|]. now apply scored_rows.
Qed.

End AnySorter.

End PandasFacts.

(** ** The loop over the combined files *)

Module LoopFacts.

Section Loop.
Variable cfg : config.

Lemma process_file_all_summary st alnfile text :
  all_summary (process_file cfg st alnfile text) =
  all_summary st ++ [sorted_table (basename_of alnfile) text].
Proof. reflexivity. Qed.


Lemma process_files_cons st f files :
  process_files cfg st (f :: files) =
  process_files cfg (process_file cfg st (fst f) (snd f)) files.
Proof. reflexivity. Qed.

Lemma process_files_all_summary files : forall st,
  all_summary (process_files cfg st files) =
  all_summary st ++ map sorted_of files.
Proof.
  induction files as [|f files IH]; intros st.
  - simpl. now rewrite app_nil_r.
  - rewrite process_files_cons, IH, process_file_all_summary.
    simpl. now rewrite <- app_assoc.
Qed.


Lemma dict_get_app_fresh {V} (d1 d2 : Dict.dict V) k :
  ~ In k (Dict.keys d1) -> Dict.get (d1 ++ d2) k = Dict.get d2 k.
Proof.
  induction d1 as [|[k' v'] d1 IH]; simpl; intros Hk; [reflexivity|].
  destruct (String.eqb_spec k' k) as [->|Hne]; [tauto|].
  apply IH. tauto.
Qed.


Lemma process_files_written_prefix files : forall st,
  exists new, written (process_files cfg st files) = written st ++ new.
Proof.
  induction files as [|f files IH]; intros st.
  - exists []. simpl. now rewrite app_nil_r.
  - destruct (IH (process_file cfg st (fst f) (snd f))) as [new Hnew].
    rewrite process_files_cons, Hnew. simpl.
    eexists. rewrite <- app_assoc. reflexivity.
Qed.

End Loop.

Lemma concat_nonempty_ok (frames : list Pandas.table) :
  frames <> [] -> Pandas.concat frames = inr (List.concat frames).
Proof. destruct frames; [congruence | reflexivity]. Qed.

(** A run over at least one file ends with the two global tables. *)
Lemma parse_and_save_nonempty cfg files :
  files <> [] ->
  parse_and_save cfg files =
  mk_outcome
    (written (process_files cfg init_state files) ++
       [WriteTable (summary_path cfg "_all_results_") true
                   (List.concat (map sorted_of files));
        WriteCounts (summary_path cfg "_stack_counts_")
                    (Dict.items (stack_counts (process_files cfg init_state files)))])
    None.
Proof.
  intros Hne. unfold parse_and_save.
  rewrite process_files_all_summary. simpl app.
  rewrite concat_nonempty_ok; [reflexivity|].
  destruct files; [congruence | discriminate].
Qed.


End LoopFacts.

(* ===================================================================== *)
(** * The claims                                                          *)
(* ===================================================================== *)

Import ReSpec SortSpec FloatDefs.
Import StrFacts ReFacts SearchFacts MatchFacts BannerFacts PathFacts FloatFacts
       LoopFacts.

Ltac conj_split := match goal with |- _ /\ _ => split end.

(** ** C1: the chosen score *)

(** C1, as stated, fails: in a block whose first TM-score string is
    [1.2.3] and whose second is [0.65], [float] raises on the first, the
    single [except] clause sets the chosen score to 0.0, and the value
    0.65 of the second string is lost. *)
Lemma chosen_per_value_fallback_fails :
  TM1 Sample.bad_tm1_record = "1.2.3"
  /\ TM2 Sample.bad_tm1_record = "0.65"
  /\ chosen Sample.bad_tm1_record = zero
  /\ Some (spec_chosen (TM1 Sample.bad_tm1_record)
                       (TM2 Sample.bad_tm1_record)) = py_float "0.65"
  /\ chosen Sample.bad_tm1_record <>
     spec_chosen (TM1 Sample.bad_tm1_record) (TM2 Sample.bad_tm1_record).
Proof.
  assert (H1 : chosen Sample.bad_tm1_record = zero) by (vm_compute; reflexivity).
  assert (H2 : Some (spec_chosen (TM1 Sample.bad_tm1_record)
                                 (TM2 Sample.bad_tm1_record)) = py_float "0.65")
    by (vm_compute; reflexivity).
  split; [vm_compute; reflexivity|].
  split; [vm_compute; reflexivity|].
  split; [exact H1|].
  split; [exact H2|].
  intros Heq. rewrite <- Heq, H1 in H2. vm_compute in H2. discriminate H2.
Qed.

(** C1, amended. When each TM-score string that is present is accepted by
    [float] (an absent one counts as 0.0), the chosen score is the larger
    of the two values; when [float] raises on either string the exception
    is caught and the chosen score is 0.0; in every case the chosen score
    is at least 0.0. *)
Theorem chosen_is_max_or_zero :
  forall base block : string,
    let r := parse_block base block in
    (forall a b,
        score_or_zero (TM1 r) = Some a -> score_or_zero (TM2 r) = Some b ->
        chosen r = py_max a b
        /\ (chosen r = a \/ chosen r = b)
        /\ PyFloat.leb a (chosen r) = true
        /\ PyFloat.leb b (chosen r) = true)
    /\ (score_or_zero (TM1 r) = None \/ score_or_zero (TM2 r) = None ->
        chosen r = zero)
    /\ score_or_zero "" = Some zero
    /\ PyFloat.leb zero (chosen r) = true.
Proof.
  intros base block r.
  assert (Hc : chosen r = chosen_of (TM1 r) (TM2 r)) by reflexivity.
  split; [|split; [|split]].
  - intros a b Ha Hb.
    assert (Hmax : chosen r = py_max a b).
    { rewrite Hc. unfold chosen_of, try_chosen. now rewrite Ha, Hb. }
    rewrite Hmax. split; [reflexivity|].
    apply py_max_spec; apply nonneg_not_nan;
      eapply score_or_zero_nonneg; eassumption.
  - intros [H|H]; rewrite Hc; unfold chosen_of, try_chosen; rewrite H;
      [reflexivity|].
    now destruct (score_or_zero (TM1 r)).
  - reflexivity.
  - rewrite Hc. apply nonneg_zero_leb, chosen_of_nonneg.
Qed.

(** ** C2: the order of equal scores *)

(** C2, as stated, fails. [sort_values] is called with the default
    [kind='quicksort'], which promises an ascending order of the keys
    and nothing about equal keys. NumPy's generic introsort, the sort
    that is run where no vectorised one is dispatched, keeps that
    promise and yet swaps index entries of equal keys in its partition:
    eighteen records with the same chosen score leave [sort_values] in
    another order than they entered. So the order of equal scores is not
    kept by every sort that the call may run. *)
Lemma quicksort_reorders_18_ties :
  sorts_ascending Pandas.generic_argsort
  /\ map template (parse_records "qA" Sample.ties18) =
       map (fun t => (t ++ ".pdb")%string) Sample.tie_names
  /\ map chosen (parse_records "qA" Sample.ties18) = repeat Sample.half 18
  /\ map template
       (Pandas.sort_values_with Pandas.generic_argsort
                                (parse_records "qA" Sample.ties18)) =
       ["t01.pdb"; "t02.pdb"; "t17.pdb"; "t16.pdb"; "t15.pdb"; "t14.pdb";
        "t13.pdb"; "t12.pdb"; "t11.pdb"; "t10.pdb"; "t09.pdb"; "t08.pdb";
        "t07.pdb"; "t06.pdb"; "t05.pdb"; "t04.pdb"; "t03.pdb"; "t18.pdb"]
  /\ ~ (forall argsort : list spec_float -> list nat,
          sorts_ascending argsort ->
          forall (df : Pandas.table) (k : spec_float),
            filter (same_score k) (Pandas.sort_values_with argsort df) =
            filter (same_score k) df).
Proof.
  split; [exact PandasFacts.generic_argsort_sorts|].
  split; [vm_compute; reflexivity|].
  split; [vm_compute; reflexivity|].
  split; [vm_compute; reflexivity|].
  intros H.
  specialize (H Pandas.generic_argsort PandasFacts.generic_argsort_sorts
                (parse_records "qA" Sample.ties18) Sample.half).
  apply (f_equal (map template)) in H.
  vm_compute in H. discriminate H.
Qed.

(** C2, amended. Whichever sort NumPy runs for [kind='quicksort'], every
    per-query table comes out of [sort_values] with the same records, no
    chosen score directly followed by a larger one, and the records
    without a score last, in the order they had in the unsorted table.
    The order of records with equal chosen scores is left to the sort
    that is run. *)
Theorem sort_values_descending_missing_last :
  forall (argsort : list spec_float -> list nat) (df : Pandas.table),
    sorts_ascending argsort ->
    let sorted := Pandas.sort_values_with argsort df in
    Permutation df sorted
    /\ descending sorted
    /\ (exists scored,
          sorted = scored ++ filter missing_score df
          /\ Forall (fun r => present r = true) scored)
    /\ filter missing_score sorted = filter missing_score df.
Proof.
  intros argsort df H sorted. split; [|split; [|split]].
  - now apply PandasFacts.sort_values_with_perm.
  - now apply PandasFacts.sort_values_with_descending.
  - now apply PandasFacts.sort_values_with_missing_last.
  - destruct (PandasFacts.sort_values_with_missing_last argsort H df)
      as (scored & E & Hs).
    unfold sorted. rewrite E, filter_app.
    rewrite (PandasFacts.filter_none missing_score scored).
    + simpl. rewrite PandasFacts.filter_filter.
      apply filter_ext. intros r. apply andb_diag.
    + intros r Hr. rewrite Forall_forall in Hs. specialize (Hs r Hr).
      unfold present in Hs. now destruct (missing_score r).
Qed.

(** The sort of the model, NumPy's generic introsort, is one of these
    sorts; for it the table is [Pandas.sort_values df]. *)
Lemma sort_values_descending_missing_last_witness :
  sorts_ascending Pandas.generic_argsort
  /\ let df := parse_records "qA" Sample.ties3 in
     Permutation df (Pandas.sort_values df)
     /\ descending (Pandas.sort_values df)
     /\ (exists scored,
           Pandas.sort_values df = scored ++ filter missing_score df
           /\ Forall (fun r => present r = true) scored)
     /\ filter missing_score (Pandas.sort_values df) = filter missing_score df.
Proof.
  split; [exact PandasFacts.generic_argsort_sorts|].
  exact (sort_values_descending_missing_last
           Pandas.generic_argsort (parse_records "qA" Sample.ties3)
           PandasFacts.generic_argsort_sorts).
Defined.

(** ** C3: identifiers and missing fields *)

(** C3, as stated, fails. In a block without a [Name of Chain_2] line the
    template field of the record is the text [.pdb], not an empty value;
    and a template that TM-align was given as a path keeps its directory
    in the record. *)
Lemma template_field_not_empty_when_missing :
  Re.search Pat.name2 Sample.nameless_block = None
  /\ template Sample.nameless_record = ".pdb"
  /\ template Sample.nameless_record <> ""
  /\ template Sample.path_record = "t/e1bamA1.pdb.pdb"
  /\ contains "/" (template Sample.path_record) = true.
Proof.
  assert (H : template Sample.nameless_record = ".pdb") by (vm_compute; reflexivity).
  split; [vm_compute; reflexivity|].
  split; [exact H|].
  split; [rewrite H; discriminate|].
  split; vm_compute; reflexivity.
Qed.

(** C3, amended. The query identifier of a record is the base name of
    the combined file followed by [.pdb] and holds no directory
    separator. A metric whose pattern finds nothing in the block, in
    particular one whose label does not occur there, is the empty string;
    the template field is then the bare suffix [.pdb]. Building the
    record raises nothing. *)
Theorem record_identifiers_and_missing_fields :
  forall alnfile block : string,
    let r := parse_block (basename_of alnfile) block in
    (query r = (basename_of alnfile ++ ".pdb")%string
     /\ contains "/" (query r) = false)
    /\ ((Re.search Pat.name2 block = None -> template r = ".pdb")
        /\ (Re.search Pat.len1 block = None -> qlen r = "")
        /\ (Re.search Pat.len2 block = None -> tlen r = "")
        /\ (Re.search Pat.rmsd block = None -> RMSD r = "")
        /\ (Re.search Pat.seqid block = None -> ident r = "")
        /\ (Re.search Pat.tm1 block = None -> TM1 r = "")
        /\ (Re.search Pat.tm2 block = None -> TM2 r = ""))
    /\ ((contains "Name of Chain_2:" block = false -> template r = ".pdb")
        /\ (contains "Length of Chain_1:" block = false -> qlen r = "")
        /\ (contains "Length of Chain_2:" block = false -> tlen r = "")
        /\ (contains "RMSD=" block = false -> RMSD r = "")
        /\ (contains "Seq_ID=n_identical/n_aligned=" block = false -> ident r = "")
        /\ (contains "TM-score=" block = false -> TM1 r = "" /\ TM2 r = "")).
Proof.
  intros alnfile block r. split; [|split].
  - split; [reflexivity | apply query_file_no_slash].
  - unfold r. simpl. unfold template_id, field.
    repeat conj_split; intros ->; reflexivity.
  - unfold r. simpl.
    repeat conj_split; intros Hc;
      try (apply field_without_label; exact Hc).
    + unfold template_id.
      change (group1_or_empty (Re.search Pat.name2 block))
        with (field Pat.name2 block).
      unfold Pat.name2. now rewrite field_without_label.
    + unfold Pat.tm1, Pat.tm2, Pat.tm.
      split; apply field_without_label; exact Hc.
Qed.

(** ** C4: the stack filter *)



(** A report with TM-score 0.6 is in the stack of the default threshold. *)
Example boundary_report_in_stack :
  map template (stack_table (default_config "20261103") "qA"
                            Sample.boundary_text) = ["t1.pdb"].
Proof. vm_compute. reflexivity. Qed.

(** ** C5: no combined file *)

(** C5. With no per-query file the loop appends nothing to [all_summary],
    [pd.concat] raises [ValueError], and neither global file is written:
    the run ends in a raised exception, not in an empty summary. A run
    over at least one file raises nothing. *)
Theorem zero_files_concat_raises :
  forall cfg : config,
    raised (parse_and_save cfg []) =
      Some (Pandas.ValueError "No objects to concatenate")
    /\ files_written (parse_and_save cfg []) = []
    /\ (forall files, raised (parse_and_save cfg files) = None <-> files <> []).
Proof.
  intros cfg. split; [reflexivity|]. split; [reflexivity|].
  intros files. split.
  - intros H ->. discriminate H.
  - intros Hne. now rewrite parse_and_save_nonempty.
Qed.

(** ** C6: the block splitter *)

(** C6. [re.split] cuts the text at its leftmost banner, then cuts what
    follows that banner in the same way, and these cuts are the only
    ones: the segment before the first banner is dropped and the others
    are the blocks, in their order, one record per block. Each cut is
    where [re.search] finds the pattern first. A text has no block
    exactly when no banner starts anywhere in it, and its per-query
    table is then empty. *)
Theorem block_splitter_segments :
  forall base text : string,
    (exists first,
        Re.split Pat.banner text = first :: blocks text
        /\ Cuts text first (blocks text)
        /\ Segments Pat.banner text first (blocks text)
        /\ forall first' others',
             Cuts text first' others' ->
             first' = first /\ others' = blocks text)
    /\ parse_records base text = map (parse_block base) (blocks text)
    /\ List.length (parse_records base text) = List.length (blocks text)
    /\ (no_banner text <-> blocks text = [])
    /\ (no_banner text <-> Re.search Pat.banner text = None)
    /\ (no_banner text -> parse_records base text = []).
Proof.
  intros base text.
  destruct (split_segments Pat.banner banner_match_nonempty text)
    as (first & others & Heq & Hseg).
  assert (Hb : blocks text = others) by (unfold blocks; now rewrite Heq).
  pose proof (Segments_Cuts _ _ _ Hseg) as Hcuts.
  assert (Hno : no_banner text <-> blocks text = []).
  { rewrite Hb. split.
    - intros Hno. apply (Cuts_unique _ _ _ (Cuts_none text Hno)) in Hcuts.
      now destruct Hcuts.
    - intros E. rewrite E in Hcuts. apply Cuts_inv in Hcuts.
      destruct Hcuts as [(Hno & _)|(seg & m & rest & b & bs & _ & _ & D & _)];
        [exact Hno|discriminate D]. }
  split; [|split; [|split; [|split; [|split]]]].
  - exists first. rewrite Hb. split; [assumption|]. split; [assumption|].
    split; [assumption|].
    intros first' others' H'.
    destruct (Cuts_unique _ _ _ Hcuts _ _ H') as [-> ->]. auto.
  - reflexivity.
  - unfold parse_records. apply length_map.
  - exact Hno.
  - split.
    + intros H. destruct (Re.search Pat.banner text) as [[[i n] g]|] eqn:Hs;
        [|reflexivity].
      exfalso. apply search_from_at in Hs.
      destruct Hs as (pre & suf & E & _ & Hm & _).
      apply banner_sound in Hm. destruct Hm as (m & post & Hbn & _).
      exact (H pre suf m post E Hbn).
    + intros Hs pre suf m post E. apply no_match_no_banner.
      now apply (search_from_none Pat.banner text 0 Hs pre suf).
  - intros H. apply Hno in H. unfold parse_records. now rewrite H.
Qed.

(** ** C7: the template identifier *)

(** C7. For a block in which the text [Name of Chain_2] does not occur,
    the extracted template identifier is the empty string; the
    extraction is a total function and raises nothing. *)
Theorem template_id_empty_without_name_line :
  forall block : string,
    contains "Name of Chain_2" block = false ->
    template_id block = "".
Proof.
  intros block H. unfold template_id.
  change (group1_or_empty (Re.search Pat.name2 block)) with (field Pat.name2 block).
  apply field_without_label.
  destruct (contains "Name of Chain_2:" block) eqn:Hc; [|reflexivity].
  change "Name of Chain_2:" with ("Name of Chain_2" ++ ":")%string in Hc.
  apply contains_app in Hc. congruence.
Qed.

Lemma template_id_empty_without_name_line_witness :
  template_id Sample.nameless_block = "".
Proof.
  apply template_id_empty_without_name_line. reflexivity.
Defined.

(** ** C8: the stack file *)

(** C8. Processing one combined file appends to the files written a
    headerless table at the query's stack path exactly when the stack
    table is not empty, and that table is the stack table; with an empty
    stack table nothing is written at that path. *)
Theorem stack_file_written_iff_nonempty :
  forall (cfg : config) (st : state) (alnfile text : string),
    let base := basename_of alnfile in
    let stack := stack_table cfg base text in
    exists new : list fs_write,
      written (process_file cfg st alnfile text) = written st ++ new
      /\ ((exists h rows, In (WriteTable (stack_path base) h rows) new)
          <-> stack <> [])
      /\ (forall h rows,
             In (WriteTable (stack_path base) h rows) new <->
             h = false /\ rows = stack /\ stack <> []).
Proof.
  intros cfg st alnfile text base stack.
  eexists. split; [reflexivity|].
  fold base. change (Pandas.at_least (score_threshold cfg)
                       (Pandas.sort_values (parse_records base text))) with stack.
  assert (Hiff : forall h rows,
             In (WriteTable (stack_path base) h rows)
                ([WriteTable ("c-tm/all_tab/" ++ base ++ ".tab")%string true
                             (parse_records base text);
                  WriteTable ("c-tm/all_tab_sorted/" ++ base ++ "_sorted.tab")%string
                             true (Pandas.sort_values (parse_records base text))] ++
                 match stack with
                 | [] => []
                 | _ :: _ => [WriteTable (stack_path base) false stack]
                 end) <->
             h = false /\ rows = stack /\ stack <> []).
  { intros h rows. split.
    - intros [H|[H|H]]; try discriminate H.
      destruct stack as [|r stack']; [destruct H|].
      destruct H as [H|[]]. injection H as <- <-.
      split; [reflexivity|]. split; [reflexivity | discriminate].
    - intros (-> & -> & Hne). right; right.
      destruct stack; [congruence | now left]. }
  split; [|exact Hiff].
  split.
  - intros (h & rows & H). now apply Hiff in H.
  - intros Hne. exists false, stack. apply Hiff. auto.
Qed.

(** ** C9: the count registry *)



(** ** C10: determinism of the parse *)

(** C10. The per-query table written for a combined file is the same for
    any two runs that read the same text under the same base name,
    whatever the configuration, the state accumulated from earlier files
    and the directory of the path: it holds one record per block, in block
    order, each computed from the block and the base name alone. *)
Theorem parsing_depends_only_on_text_and_basename :
  forall (cfg1 cfg2 : config) (st1 st2 : state)
         (alnfile1 alnfile2 text : string),
    basename_of alnfile1 = basename_of alnfile2 ->
    exists path df rest1 rest2,
      written (process_file cfg1 st1 alnfile1 text) =
        written st1 ++ WriteTable path true df :: rest1
      /\ written (process_file cfg2 st2 alnfile2 text) =
        written st2 ++ WriteTable path true df :: rest2
      /\ df = map (parse_block (basename_of alnfile1)) (blocks text).
Proof.
  intros cfg1 cfg2 st1 st2 f1 f2 text Hbase.
  unfold process_file. rewrite <- Hbase. simpl written.
  do 4 eexists. split; [reflexivity|]. split; reflexivity.
Qed.

Lemma parsing_depends_only_on_text_and_basename_witness :
  exists path df rest1 rest2,
    written (process_file Scenario.cfg init_state "c-tm/all/qA.aln"
                          Scenario.qA_text) =
      written init_state ++ WriteTable path true df :: rest1
    /\ written (process_file Scenario.other_cfg Scenario.later_state
                             "elsewhere/qA.aln" Scenario.qA_text) =
      written Scenario.later_state ++ WriteTable path true df :: rest2
    /\ df = map (parse_block (basename_of "c-tm/all/qA.aln"))
                (blocks Scenario.qA_text).
Proof.
  apply (parsing_depends_only_on_text_and_basename
           Scenario.cfg Scenario.other_cfg init_state Scenario.later_state
           "c-tm/all/qA.aln" "elsewhere/qA.aln" Scenario.qA_text).
  vm_compute. reflexivity.
Defined.

(** ** The scenario of the specification *)

Example scenario_run :
  parse_records "qA" Scenario.qA_text =
    [mk_record "qA.pdb" "t1.pdb" "136" "142" "2.31" "0.175" "0.72" "0.65"
               (S754_finite false 6485183463413514 (-53));
     mk_record "qA.pdb" "t2.pdb" "136" "142" "2.31" "0.175" "0.40" ""
               (S754_finite false 7205759403792794 (-54))]
  /\ map template (sorted_table "qA" Scenario.qA_text) = ["t1.pdb"; "t2.pdb"]
  /\ map template (stack_table Scenario.cfg "qA" Scenario.qA_text) = ["t1.pdb"]
  /\ files_written (parse_and_save Scenario.cfg Scenario.files) =
     [WriteTable "c-tm/all_tab/qA.tab" true (parse_records "qA" Scenario.qA_text);
      WriteTable "c-tm/all_tab_sorted/qA_sorted.tab" true
                 (sorted_table "qA" Scenario.qA_text);
      WriteTable "tm-stacks/qA.tab" false
                 (stack_table Scenario.cfg "qA" Scenario.qA_text);
      WriteTable "c-tm/all_tab/qB.tab" true [];
      WriteTable "c-tm/all_tab_sorted/qB_sorted.tab" true [];
      WriteTable "my_job_all_results_20261103.tab" true
                 (sorted_table "qA" Scenario.qA_text);
      WriteCounts "my_job_stack_counts_20261103.tab" [("qA", 1); ("qB", 0)]]
  /\ raised (parse_and_save Scenario.cfg Scenario.files) = None.
Proof. repeat conj_split; vm_compute; reflexivity. Qed.

(* ===================================================================== *)
(** * The rest of the script: paths, commands, fields and tables          *)
(* ===================================================================== *)

(** ** [os.path.join] and [os.path.dirname] on the paths of the script *)

Module JoinFacts.

Lemma contains_sep_head name :
  contains "/" name = false -> Path.starts_with_sep name = false.
Proof.
  destruct name as [|a name]; [reflexivity|].
  rewrite contains_char_cons. intros H. apply orb_false_iff in H.
  simpl. rewrite Ascii.eqb_sym. apply H.
Qed.

Lemma rfind_sep_join dir name :
  contains "/" name = false ->
  Path.rfind "/" (dir ++ "/" ++ name) = Z.of_nat (String.length dir).
Proof.
  intros H. unfold Path.rfind. rewrite rfind_from_app. simpl.
  now rewrite rfind_from_absent.
Qed.

Lemma basename_in_dir dir name :
  contains "/" name = false -> Path.basename (dir ++ "/" ++ name) = name.
Proof.
  intros H. unfold Path.basename. rewrite rfind_sep_join by exact H.
  replace (Z.to_nat (Z.of_nat (String.length dir) + 1))
    with (String.length (dir ++ "/")) by (rewrite slength_app; simpl; lia).
  rewrite <- sapp_assoc. apply drop_app.
Qed.

Lemma splitext_root_stem stem ext :
  Glob.stem_ok stem = true ->
  contains "." ext = false -> contains "/" ext = false ->
  Path.splitext_root (stem ++ "." ++ ext) = stem.
Proof.
  unfold Glob.stem_ok. intros H Hdot Hsep. apply andb_true_iff in H.
  destruct H as [Hs Hd]. apply negb_true_iff in Hs.
  assert (Hsep' : contains "/" (stem ++ "." ++ ext) = false).
  { rewrite contains_char_app, Hs. cbn [append].
    rewrite contains_char_cons, Hsep. reflexivity. }
  unfold Path.splitext_root, Path.rfind.
  rewrite (rfind_from_absent "/") by exact Hsep'.
  rewrite rfind_from_app. simpl Path.rfind_from.
  rewrite (rfind_from_absent ".") by exact Hdot.
  assert (Hlt : (-1 <? Z.of_nat (String.length stem))%Z = true)
    by (apply Z.ltb_lt; lia).
  rewrite Hlt.
  replace (Z.to_nat (-1 + 1)) with 0 by reflexivity.
  rewrite Nat2Z.id, Nat.sub_0_r.
  unfold Path.take. rewrite substring_0_app.
  destruct stem as [|a stem]; [discriminate|].
  simpl. apply negb_true_iff in Hd. now rewrite Hd.
Qed.

Lemma stem_no_sep stem : Glob.stem_ok stem = true -> contains "/" stem = false.
Proof.
  unfold Glob.stem_ok. intros H. apply andb_true_iff in H.
  now apply negb_true_iff.
Qed.

(** The root of a listed [.pdb] file is its stem. *)
Lemma query_root_pdb_path dir stem :
  Glob.stem_ok stem = true -> query_root (Glob.pdb_path dir stem) = stem.
Proof.
  intros H. unfold query_root, Glob.pdb_path.
  rewrite basename_in_dir.
  - now apply (splitext_root_stem stem "pdb").
  - rewrite contains_char_app, (stem_no_sep stem H). reflexivity.
Qed.

Lemma basename_pdb_path dir stem :
  Glob.stem_ok stem = true ->
  Path.basename (Glob.pdb_path dir stem) = (stem ++ ".pdb")%string.
Proof.
  intros H. unfold Glob.pdb_path. apply basename_in_dir.
  rewrite contains_char_app, (stem_no_sep stem H). reflexivity.
Qed.

Lemma all_seps_app s t :
  Path.all_seps (s ++ t) = Path.all_seps s && Path.all_seps t.
Proof.
  induction s as [|a s IH]; simpl; [reflexivity|].
  now rewrite IH, andb_assoc.
Qed.

Lemma not_all_seps s :
  s <> "" -> Path.ends_with_sep s = false -> Path.all_seps s = false.
Proof.
  induction s as [|a s IH]; intros Hne He; [congruence|].
  destruct s as [|b s].
  - simpl in *. now rewrite He.
  - change (Path.ends_with_sep (String a (String b s)))
      with (Path.ends_with_sep (String b s)) in He.
    change (Path.all_seps (String a (String b s)))
      with (Ascii.eqb a "/" && Path.all_seps (String b s)).
    rewrite (IH ltac:(discriminate) He). apply andb_false_r.
Qed.

Lemma rstrip_sep_id s : Path.ends_with_sep s = false -> Path.rstrip_sep s = s.
Proof.
  induction s as [|a s IH]; intros He; [reflexivity|].
  destruct s as [|b s].
  - simpl in *. now rewrite He.
  - change (Path.ends_with_sep (String a (String b s)))
      with (Path.ends_with_sep (String b s)) in He.
    change (Path.rstrip_sep (String a (String b s)))
      with (match Path.rstrip_sep (String b s) with
            | EmptyString =>
                if Ascii.eqb a "/" then EmptyString else String a EmptyString
            | String _ _ as r => String a r
            end).
    now rewrite (IH He).
Qed.

Lemma rstrip_sep_last s : Path.rstrip_sep (s ++ "/") = Path.rstrip_sep s.
Proof.
  induction s as [|a s IH]; [reflexivity|].
  simpl. now rewrite IH.
Qed.

Lemma join_in_dir dir name :
  dir <> "" -> Path.ends_with_sep dir = false -> contains "/" name = false ->
  Path.join dir name = (dir ++ "/" ++ name)%string.
Proof.
  intros Hne He Hn. unfold Path.join.
  rewrite (contains_sep_head name Hn), He.
  destruct dir; [congruence|reflexivity].
Qed.

Lemma dirname_in_dir dir name :
  dir <> "" -> Path.ends_with_sep dir = false -> contains "/" name = false ->
  Path.dirname (dir ++ "/" ++ name) = dir.
Proof.
  intros Hne He Hn. unfold Path.dirname.
  rewrite rfind_sep_join by exact Hn.
  replace (Z.to_nat (Z.of_nat (String.length dir) + 1))
    with (String.length (dir ++ "/")) by (rewrite slength_app; simpl; lia).
  unfold Path.take. rewrite <- sapp_assoc, substring_0_app.
  rewrite all_seps_app, (not_all_seps dir Hne He).
  destruct (String.eqb (dir ++ "/") EmptyString) eqn:E.
  - apply String.eqb_eq in E. destruct dir; discriminate.
  - simpl. rewrite rstrip_sep_last. now apply rstrip_sep_id.
Qed.

Lemma dirname_no_sep name : contains "/" name = false -> Path.dirname name = "".
Proof.
  intros Hn. unfold Path.dirname, Path.rfind.
  rewrite rfind_from_absent by exact Hn. simpl.
  unfold Path.take. now destruct name.
Qed.

Lemma dirname_join dir name :
  Path.ends_with_sep dir = false -> contains "/" name = false ->
  Path.dirname (Path.join dir name) = dir.
Proof.
  intros He Hn. destruct (string_dec dir "") as [->|Hne].
  - unfold Path.join. rewrite (contains_sep_head name Hn). simpl.
    now apply dirname_no_sep.
  - rewrite join_in_dir by assumption. now apply dirname_in_dir.
Qed.

Lemma outfile_name_no_sep query templ :
  contains "/" (Path.splitext_root (Path.basename query) ++ "_"
                ++ Path.splitext_root (Path.basename templ) ++ ".aln") = false.
Proof.
  rewrite contains_char_app, splitext_root_no_slash by apply basename_no_slash.
  cbn [append]. rewrite contains_char_cons.
  rewrite contains_char_app, splitext_root_no_slash by apply basename_no_slash.
  reflexivity.
Qed.

Lemma sapp_inv_head p : forall a b, (p ++ a)%string = (p ++ b)%string -> a = b.
Proof. induction p as [|c p IH]; simpl; intros a b H; [exact H|]. injection H. apply IH. Qed.

Lemma sapp_inv_tail s : forall a b, (a ++ s)%string = (b ++ s)%string -> a = b.
Proof.
  induction a as [|c a IH]; intros b H.
  - destruct b as [|d b]; [reflexivity|].
    apply (f_equal String.length) in H. simpl in H. rewrite slength_app in H. lia.
  - destruct b as [|d b].
    + apply (f_equal String.length) in H. simpl in H. rewrite slength_app in H. lia.
    + simpl in H. injection H as -> H. f_equal. now apply IH.
Qed.

Lemma NoDup_map_inj_in {A B} (f : A -> B) (l : list A) :
  (forall x y, In x l -> In y l -> f x = f y -> x = y) ->
  NoDup l -> NoDup (map f l).
Proof.
  intros Hinj Hnd. induction Hnd as [|x l Hx Hnd IH]; [constructor|].
  simpl. constructor.
  - intros Hin. apply in_map_iff in Hin. destruct Hin as (y & Hy & Hyl).
    apply Hx. rewrite (Hinj x y); auto; [now left|now right].
  - apply IH. intros a b Ha Hb. apply Hinj; now right.
Qed.

Lemma join_inj dir a b :
  contains "/" a = false -> contains "/" b = false ->
  Path.join dir a = Path.join dir b -> a = b.
Proof.
  intros Ha Hb. unfold Path.join.
  rewrite (contains_sep_head a Ha), (contains_sep_head b Hb).
  destruct (_ || _).
  - apply sapp_inv_head.
  - intros H. apply sapp_inv_head in H. now apply (sapp_inv_head "/").
Qed.

Lemma stem_ok_joined qs ts :
  Glob.stem_ok qs = true -> Glob.stem_ok ts = true ->
  Glob.stem_ok (qs ++ "_" ++ ts) = true.
Proof.
  intros Hq Ht. unfold Glob.stem_ok.
  rewrite contains_char_app, (stem_no_sep qs Hq). cbn [append].
  rewrite contains_char_cons, (stem_no_sep ts Ht).
  unfold Glob.stem_ok in Hq. apply andb_true_iff in Hq.
  destruct qs as [|a qs]; [now destruct Hq|]. simpl. apply Hq.
Qed.

Lemma stem_ok_nonempty stem : Glob.stem_ok stem = true -> stem <> "".
Proof. intros H ->. discriminate H. Qed.

Lemma ends_with_sep_app_no_sep dir name :
  name <> "" -> contains "/" name = false ->
  Path.ends_with_sep (dir ++ name) = false.
Proof.
  intros Hne Hn. induction dir as [|a dir IH].
  - simpl. induction name as [|b name IHn]; [congruence|].
    rewrite contains_char_cons in Hn. apply orb_false_iff in Hn.
    destruct Hn as [Hb Hn]. destruct name as [|c name].
    + simpl. now rewrite Ascii.eqb_sym.
    + change (Path.ends_with_sep (String b (String c name)))
        with (Path.ends_with_sep (String c name)).
      apply IHn; [discriminate|exact Hn].
  - simpl. destruct (dir ++ name)%string eqn:E; [|exact IH].
    destruct dir; [|discriminate]. simpl in E. congruence.
Qed.

Lemma outfile_listed qs ts :
  Glob.stem_ok qs = true -> Glob.stem_ok ts = true ->
  outfile (Glob.pdb_path "q" qs) (Glob.pdb_path "t" ts)
          (out_dir_of (Glob.pdb_path "q" qs)) =
  ("c-tm/" ++ qs ++ "/" ++ (qs ++ "_" ++ ts) ++ ".aln")%string.
Proof.
  intros Hq Ht. unfold outfile, out_dir_of.
  fold (query_root (Glob.pdb_path "q" qs)).
  fold (query_root (Glob.pdb_path "t" ts)).
  rewrite !query_root_pdb_path by assumption.
  rewrite join_in_dir.
  - simpl. now rewrite !sapp_assoc.
  - discriminate.
  - apply (ends_with_sep_app_no_sep "c-tm/" qs);
      [now apply stem_ok_nonempty|now apply stem_no_sep].
  - rewrite contains_char_app, (stem_no_sep qs Hq). cbn [append].
    rewrite contains_char_cons, contains_char_app, (stem_no_sep ts Ht).
    reflexivity.
Qed.

End JoinFacts.

(** ** The command lines, as the shell reads them *)

Module ShFacts.
Import Sh.

Lemma all_chars_impl (c d : ascii -> bool) w :
  (forall a, c a = true -> d a = true) ->
  all_chars c w = true -> all_chars d w = true.
Proof.
  intros Hcd. induction w as [|a w IH]; simpl; [reflexivity|].
  intros H. apply andb_true_iff in H. destruct H as [Ha Hw].
  now rewrite (Hcd a Ha), IH.
Qed.

Lemma all_chars_drop c : forall n s,
  all_chars c s = true -> all_chars c (Path.drop n s) = true.
Proof.
  induction n as [|n IH]; intros [|a s] H; simpl; auto.
  simpl in H. apply andb_true_iff in H. now apply IH.
Qed.

Lemma all_chars_substring c : forall s i n,
  all_chars c s = true -> all_chars c (substring i n s) = true.
Proof.
  induction s as [|a s IH]; intros i n H.
  - now destruct i, n.
  - simpl in H. apply andb_true_iff in H. destruct H as [Ha Hs].
    destruct i as [|i]; simpl.
    + destruct n as [|n]; [reflexivity|]. simpl. now rewrite Ha, IH.
    + now apply IH.
Qed.

Lemma all_chars_basename c p :
  all_chars c p = true -> all_chars c (Path.basename p) = true.
Proof. apply all_chars_drop. Qed.

Lemma all_chars_splitext_root c p :
  all_chars c p = true -> all_chars c (Path.splitext_root p) = true.
Proof.
  intros H. unfold Path.splitext_root.
  destruct (_ <? _)%Z; [|exact H].
  destruct (Path.all_dots _); [exact H|].
  now apply all_chars_substring.
Qed.

Lemma plain_chars w : plain w = true -> all_chars is_plain w = true /\ w <> "".
Proof.
  unfold plain. intros H. apply andb_true_iff in H. destruct H as [H1 H2].
  split; [exact H1|]. intros ->. discriminate H2.
Qed.

Lemma chars_plain w : all_chars is_plain w = true -> w <> "" -> plain w = true.
Proof.
  intros H Hne. unfold plain. rewrite H. destruct w; [congruence|reflexivity].
Qed.

Lemma plain_app_l s t :
  plain s = true -> all_chars is_plain t = true -> plain (s ++ t) = true.
Proof.
  intros Hs Ht. apply plain_chars in Hs. destruct Hs as [Hs Hne].
  apply chars_plain.
  - now rewrite all_chars_app, Hs, Ht.
  - destruct s; [congruence|discriminate].
Qed.

Lemma plain_app_r s t :
  all_chars is_plain s = true -> plain t = true -> plain (s ++ t) = true.
Proof.
  intros Hs Ht. apply plain_chars in Ht. destruct Ht as [Ht Hne].
  apply chars_plain.
  - now rewrite all_chars_app, Hs, Ht.
  - destruct s; [exact Hne|discriminate].
Qed.

Lemma plain_not_blank a : is_plain a = true -> is_blank a = false.
Proof.
  unfold is_plain, is_blank. destruct (Chars.code a =? 32) eqn:E; [|reflexivity].
  apply Nat.eqb_eq in E. rewrite E. discriminate.
Qed.

Lemma pattern_not_blank a : is_pattern_char a = true -> is_blank a = false.
Proof.
  unfold is_pattern_char, is_plain, is_blank, Chars.is_star.
  destruct (Chars.code a =? 32) eqn:E; [|reflexivity].
  apply Nat.eqb_eq in E. rewrite E. discriminate.
Qed.

Lemma plain_pattern_char a : is_plain a = true -> is_pattern_char a = true.
Proof. unfold is_pattern_char. now intros ->. Qed.

(** A run of characters that are no blanks goes into the field being
    read. *)
Lemma fields_from_word : forall w s cur,
  all_chars (fun a => negb (is_blank a)) w = true ->
  fields_from (w ++ s) cur = fields_from s (cur ++ w).
Proof.
  induction w as [|a w IH]; intros s cur H.
  - simpl. now rewrite sapp_nil_r.
  - simpl in H. apply andb_true_iff in H. destruct H as [Ha Hw].
    apply negb_true_iff in Ha.
    simpl. rewrite Ha, IH by exact Hw.
    now rewrite sapp_assoc.
Qed.

Lemma fields_word_blank w s :
  all_chars (fun a => negb (is_blank a)) w = true -> w <> "" ->
  fields (w ++ String " " s) = w :: fields s.
Proof.
  intros H Hne. unfold fields. rewrite fields_from_word by exact H.
  simpl. destruct w; [congruence|reflexivity].
Qed.

Lemma fields_last_word w :
  all_chars (fun a => negb (is_blank a)) w = true -> w <> "" -> fields w = [w].
Proof.
  intros H Hne. unfold fields.
  rewrite <- (sapp_nil_r w) at 1. rewrite fields_from_word by exact H.
  simpl. destruct w; [congruence|reflexivity].
Qed.

Lemma pattern_no_blank w :
  all_chars is_pattern_char w = true ->
  all_chars (fun a => negb (is_blank a)) w = true.
Proof.
  apply all_chars_impl. intros a Ha. now rewrite (pattern_not_blank a Ha).
Qed.

Lemma plain_word w :
  plain w = true ->
  all_chars (fun a => negb (is_blank a)) w = true /\ w <> "".
Proof.
  intros H. apply plain_chars in H. destruct H as [H Hne]. split; [|exact Hne].
  apply pattern_no_blank. revert H. apply all_chars_impl, plain_pattern_char.
Qed.

Lemma plain_not_redirect w : plain w = true -> String.eqb w ">" = false.
Proof.
  intros H. destruct (String.eqb_spec w ">") as [->|]; [discriminate H|reflexivity].
Qed.

Lemma read_words_literal w ws :
  plain w = true ->
  read_words (w :: ws) =
  match read_words ws with
  | Some (args, out) => Some (Literal w :: args, out)
  | None => None
  end.
Proof.
  intros H. simpl. rewrite (plain_not_redirect w H). unfold classify.
  rewrite H. now destruct (read_words ws) as [[args out]|].
Qed.

Lemma read_words_redirect t : plain t = true -> read_words [">"; t] = Some ([], Some t).
Proof. intros H. simpl. now rewrite H. Qed.

(** A word with a star is a pattern. *)
Lemma classify_pattern pre post :
  all_chars is_plain pre = true -> all_chars is_plain post = true ->
  classify (pre ++ "*" ++ post) = Some (Pattern (pre ++ "*" ++ post)).
Proof.
  intros Hpre Hpost. unfold classify, plain.
  assert (Hstar : all_chars is_plain (pre ++ "*" ++ post) = false).
  { rewrite all_chars_app. simpl. apply andb_false_r. }
  rewrite Hstar. simpl.
  rewrite all_chars_app.
  rewrite (all_chars_impl _ _ pre plain_pattern_char Hpre).
  simpl. rewrite (all_chars_impl _ _ post plain_pattern_char Hpost).
  destruct pre; reflexivity.
Qed.

Lemma pattern_chars pre post :
  all_chars is_plain pre = true -> all_chars is_plain post = true ->
  all_chars is_pattern_char (pre ++ "*" ++ post) = true
  /\ (pre ++ "*" ++ post)%string <> "".
Proof.
  intros Hpre Hpost. split.
  - rewrite all_chars_app.
    rewrite (all_chars_impl _ _ pre plain_pattern_char Hpre).
    simpl. now rewrite (all_chars_impl _ _ post plain_pattern_char Hpost).
  - destruct pre; discriminate.
Qed.

Lemma pattern_not_redirect pre post :
  String.eqb (pre ++ "*" ++ post) ">" = false.
Proof.
  destruct (String.eqb_spec (pre ++ "*" ++ post) ">") as [E|]; [|reflexivity].
  destruct pre as [|a [|b pre]]; simpl in E; discriminate.
Qed.

(** [TMalign query templ > out], read by the shell. *)
Lemma parse_tmalign query templ out :
  plain query = true -> plain templ = true -> plain out = true ->
  parse ("TMalign " ++ query ++ " " ++ templ ++ " > " ++ out) =
  Some (mk_simple_command [Literal "TMalign"; Literal query; Literal templ]
                          (Some out)).
Proof.
  intros Hq Ht Ho. unfold parse.
  destruct (plain_word _ Hq) as [Hq1 Hq2].
  destruct (plain_word _ Ht) as [Ht1 Ht2].
  destruct (plain_word _ Ho) as [Ho1 Ho2].
  change ("TMalign " ++ query ++ " " ++ templ ++ " > " ++ out)%string
    with ("TMalign" ++ String " " (query ++ String " " (templ ++ String " "
            (">" ++ String " " out))))%string.
  rewrite fields_word_blank by (try reflexivity; discriminate).
  rewrite fields_word_blank by assumption.
  rewrite fields_word_blank by assumption.
  rewrite fields_word_blank by (try reflexivity; discriminate).
  rewrite fields_last_word by assumption.
  rewrite read_words_literal by reflexivity.
  rewrite read_words_literal by exact Hq.
  rewrite read_words_literal by exact Ht.
  rewrite read_words_redirect by exact Ho.
  reflexivity.
Qed.

(** [cat dir/*.aln > out], read by the shell. *)
Lemma parse_cat dir out :
  all_chars is_plain dir = true -> plain out = true ->
  parse ("cat " ++ dir ++ "*.aln > " ++ out) =
  Some (mk_simple_command [Literal "cat"; Pattern (dir ++ "*.aln")] (Some out)).
Proof.
  intros Hd Ho. unfold parse.
  destruct (plain_word _ Ho) as [Ho1 Ho2].
  destruct (pattern_chars dir ".aln" Hd eq_refl) as [Hp1 Hp2].
  change ("cat " ++ dir ++ "*.aln > " ++ out)%string
    with ("cat" ++ String " " (dir ++ "*.aln " ++ String ">" (String " " out)))%string.
  rewrite fields_word_blank by (try reflexivity; discriminate).
  replace (dir ++ "*.aln " ++ String ">" (String " " out))%string
    with ((dir ++ "*" ++ ".aln") ++ String " " (">" ++ String " " out))%string
    by (rewrite !sapp_assoc; reflexivity).
  rewrite fields_word_blank by (try exact Hp2; now apply pattern_no_blank).
  rewrite fields_word_blank by (try reflexivity; discriminate).
  rewrite fields_last_word by assumption.
  rewrite read_words_literal by reflexivity.
  cbn [read_words]. rewrite pattern_not_redirect.
  rewrite classify_pattern by (try exact Hd; reflexivity).
  rewrite Ho. reflexivity.
Qed.

Lemma has_nul_app s t : has_nul (s ++ t) = has_nul s || has_nul t.
Proof.
  induction s as [|a s IH]; simpl; [reflexivity|].
  now rewrite IH, orb_assoc.
Qed.

Lemma pattern_no_nul w : all_chars is_pattern_char w = true -> has_nul w = false.
Proof.
  induction w as [|a w IH]; simpl; [reflexivity|].
  intros H. apply andb_true_iff in H. destruct H as [Ha Hw].
  rewrite (IH Hw), orb_false_r.
  unfold is_pattern_char, is_plain, Chars.is_star in Ha.
  destruct (Chars.code a =? 0) eqn:E; [|reflexivity].
  apply Nat.eqb_eq in E. rewrite E in Ha. discriminate Ha.
Qed.

Lemma plain_no_nul w : plain w = true -> has_nul w = false.
Proof.
  intros H. apply plain_chars in H. destruct H as [H _].
  apply pattern_no_nul. revert H. apply all_chars_impl, plain_pattern_char.
Qed.

End ShFacts.

(** ** Runs that an exception may end *)

Module RunFacts.
Import Sh ShFacts JoinFacts.

Lemma and_then_ok r next :
  failure r = None ->
  and_then r next = mk_progress (actions r ++ actions next) (failure next).
Proof. intros H. unfold and_then. now rewrite H. Qed.

Lemma actions_and_then r next :
  failure r = None -> actions (and_then r next) = actions r ++ actions next.
Proof. intros H. now rewrite and_then_ok. Qed.

Lemma and_then_failed r next e : failure r = Some e -> and_then r next = r.
Proof. intros H. unfold and_then. now rewrite H. Qed.

Lemma failure_and_then r next :
  failure (and_then r next) = None -> failure r = None /\ failure next = None.
Proof.
  unfold and_then. destruct (failure r) eqn:E; [congruence|]. simpl. auto.
Qed.

Lemma failure_for_each {A} (body : A -> progress) : forall l,
  failure (for_each body l) = None ->
  forall x, In x l -> failure (body x) = None.
Proof.
  induction l as [|y l IH]; intros H x Hx; [destruct Hx|].
  simpl in H. apply failure_and_then in H. destruct H as [Hy Hl].
  destruct Hx as [<-|Hx]; [exact Hy|now apply IH].
Qed.

Lemma for_each_ok {A} (body : A -> progress) : forall l,
  (forall x, In x l -> failure (body x) = None) ->
  for_each body l = mk_progress (flat_map (fun x => actions (body x)) l) None.
Proof.
  induction l as [|y l IH]; intros H; [reflexivity|].
  simpl. rewrite and_then_ok by (apply H; now left).
  rewrite IH by (intros x Hx; apply H; now right). reflexivity.
Qed.

Lemma system_ok c : has_nul c = false -> system c = mk_progress [System c] None.
Proof. intros H. unfold system. now rewrite H. Qed.

Lemma system_inv c :
  failure (system c) = None -> system c = mk_progress [System c] None.
Proof. unfold system. now destruct (has_nul c). Qed.

Lemma flat_map_single {A B} (f : A -> B) (l : list A) :
  flat_map (fun x => [f x]) l = map f l.
Proof. induction l as [|x l IH]; simpl; congruence. Qed.

(** The name of the alignment file is made of characters of the two
    paths. *)
Lemma outfile_name_plain query templ :
  all_chars is_plain query = true -> all_chars is_plain templ = true ->
  all_chars is_plain
    (Path.splitext_root (Path.basename query) ++ "_"
       ++ Path.splitext_root (Path.basename templ) ++ ".aln") = true.
Proof.
  intros Hq Ht.
  rewrite !all_chars_app.
  rewrite !all_chars_splitext_root by now apply all_chars_basename.
  reflexivity.
Qed.

Lemma outfile_plain query templ out_dir :
  plain query = true -> plain templ = true -> plain out_dir = true ->
  plain (outfile query templ out_dir) = true.
Proof.
  intros Hq Ht Ho. apply plain_chars in Hq, Ht.
  destruct Hq as [Hq _], Ht as [Ht _].
  pose proof (outfile_name_plain query templ Hq Ht) as Hn.
  unfold outfile, Path.join.
  rewrite (contains_sep_head _ (outfile_name_no_sep query templ)).
  destruct (_ || _).
  - now apply plain_app_l.
  - apply plain_app_l; [exact Ho|]. now rewrite all_chars_app, Hn.
Qed.

Lemma parse_tmalign_command query templ out_dir :
  plain query = true -> plain templ = true -> plain out_dir = true ->
  parse (tmalign_command query templ out_dir) =
  Some (mk_simple_command [Literal "TMalign"; Literal query; Literal templ]
                          (Some (outfile query templ out_dir))).
Proof.
  intros Hq Ht Ho. unfold tmalign_command.
  apply parse_tmalign; try assumption. now apply outfile_plain.
Qed.

Lemma tmalign_command_no_nul query templ out_dir :
  plain query = true -> plain templ = true -> plain out_dir = true ->
  has_nul (tmalign_command query templ out_dir) = false.
Proof.
  intros Hq Ht Ho. unfold tmalign_command.
  change ("TMalign " ++ query ++ " " ++ templ ++ " > "
            ++ outfile query templ out_dir)%string
    with ("TMalign " ++ (query ++ (" " ++ (templ ++ (" > "
            ++ outfile query templ out_dir)))))%string.
  rewrite !has_nul_app.
  rewrite (plain_no_nul _ Hq), (plain_no_nul _ Ht),
    (plain_no_nul _ (outfile_plain _ _ _ Hq Ht Ho)).
  reflexivity.
Qed.

(** A listed [.pdb] file with a plain stem has a plain path. *)
Lemma pdb_path_plain dir stem :
  plain dir = true -> plain stem = true -> plain (Glob.pdb_path dir stem) = true.
Proof.
  intros Hd Hs. unfold Glob.pdb_path. apply plain_app_l; [exact Hd|].
  apply plain_chars in Hs. destruct Hs as [Hs _].
  now rewrite !all_chars_app, Hs.
Qed.

Lemma out_dir_of_listed qs :
  Glob.stem_ok qs = true -> out_dir_of (Glob.pdb_path "q" qs) = ("c-tm/" ++ qs)%string.
Proof. intros H. unfold out_dir_of. now rewrite query_root_pdb_path. Qed.

Lemma out_dir_plain qs : plain qs = true -> plain ("c-tm/" ++ qs) = true.
Proof. intros H. now apply plain_app_r. Qed.

(** [cat c-tm/Q/*.aln > c-tm/all/Q.aln], read by the shell. *)
Lemma parse_cat_command qs :
  Glob.stem_ok qs = true -> plain qs = true ->
  cat_command (Glob.pdb_path "q" qs) =
    ("cat c-tm/" ++ qs ++ "/*.aln > c-tm/all/" ++ qs ++ ".aln")%string
  /\ parse (cat_command (Glob.pdb_path "q" qs)) =
     Some (mk_simple_command
             [Literal "cat"; Pattern ("c-tm/" ++ qs ++ "/*.aln")]
             (Some (Glob.aln_path qs))).
Proof.
  intros Hok Hq. unfold cat_command, combined_path.
  rewrite query_root_pdb_path by exact Hok.
  split; [reflexivity|].
  pose proof (plain_chars _ Hq) as [Hc _].
  replace ("cat c-tm/" ++ qs ++ "/*.aln > " ++ "c-tm/all/" ++ qs ++ ".aln")%string
    with ("cat " ++ ("c-tm/" ++ qs ++ "/") ++ "*.aln > " ++ Glob.aln_path qs)%string
    by (unfold Glob.aln_path; simpl; rewrite !sapp_assoc; reflexivity).
  rewrite parse_cat.
  - rewrite !sapp_assoc. reflexivity.
  - now rewrite !all_chars_app, Hc.
  - unfold Glob.aln_path. apply (plain_app_l "c-tm/all/"); [reflexivity|].
    now rewrite all_chars_app, Hc.
Qed.

Lemma flat_map_systems {A} (cmd : A -> string) : forall l,
  (forall x, In x l -> failure (system (cmd x)) = None) ->
  flat_map (fun x => actions (system (cmd x))) l =
  map (fun x => System (cmd x)) l.
Proof.
  induction l as [|y l IH]; intros H; [reflexivity|].
  simpl. rewrite (system_inv (cmd y)) by (apply H; now left).
  rewrite IH by (intros x Hx; apply H; now right). reflexivity.
Qed.

(** What a run of [run_tm_align] that nothing ends has done. *)
Lemma run_tm_align_done os_says glob query template_dir out_dir templs :
  glob (Path.join template_dir "*.pdb") = inr templs ->
  failure (run_tm_align os_says glob query template_dir out_dir) = None ->
  actions (run_tm_align os_says glob query template_dir out_dir) =
  MakeDirs out_dir
    :: map (fun templ => System (tmalign_command query templ out_dir)) templs.
Proof.
  intros Hg Hf. unfold run_tm_align in *. rewrite Hg in *.
  apply failure_and_then in Hf. destruct Hf as [Hm Hl].
  rewrite and_then_ok by exact Hm.
  pose proof (failure_for_each _ _ Hl) as Hall.
  rewrite for_each_ok by exact Hall.
  cbn [actions make_folder create_folder app]. f_equal.
  now apply flat_map_systems.
Qed.

(** What a run of [main] that nothing ends has done in the turn of a
    listed query. *)
Lemma main_done os_says glob0 glob_at cfg files queries query templs :
  glob0 "q/*.pdb" = inr queries -> In query queries ->
  glob_at query "t/*.pdb" = inr templs ->
  failure (fst (main os_says glob0 glob_at cfg files)) = None ->
  let done := actions (fst (main os_says glob0 glob_at cfg files)) in
  In (MakeDirs (out_dir_of query)) done
  /\ (forall templ, In templ templs ->
        In (System (tmalign_command query templ (out_dir_of query))) done)
  /\ In (System (cat_command query)) done
  /\ snd (main os_says glob0 glob_at cfg files) = Some (parse_and_save cfg files).
Proof.
  intros Hg0 Hq Hgt Hf done.
  assert (Hsnd : snd (main os_says glob0 glob_at cfg files)
                 = Some (parse_and_save cfg files)).
  { unfold main in *. cbn [fst snd] in *. now rewrite Hf. }
  refine ((fun H => conj (proj1 H) (conj (proj1 (proj2 H))
                      (conj (proj2 (proj2 H)) Hsnd))) _).
  clear Hsnd.
  unfold done, main in *. cbn [fst] in *. clear done. rewrite Hg0 in *.
  apply failure_and_then in Hf. destruct Hf as [Hm Hl].
  rewrite and_then_ok by exact Hm.
  pose proof (failure_for_each _ _ Hl) as Hall.
  rewrite for_each_ok by exact Hall. cbn [actions].
  specialize (Hall query Hq). unfold main_step in Hall.
  apply failure_and_then in Hall. destruct Hall as [Hrun Hcat].
  assert (Hstep : actions (main_step os_says (glob_at query) query) =
                  (MakeDirs (out_dir_of query)
                     :: map (fun templ =>
                               System (tmalign_command query templ (out_dir_of query)))
                            templs)
                  ++ [System (cat_command query)]).
  { unfold main_step. rewrite actions_and_then by exact Hrun.
    rewrite (run_tm_align_done os_says (glob_at query) query "t"
               (out_dir_of query) templs Hgt Hrun).
    now rewrite (system_inv _ Hcat). }
  assert (Hin : forall a,
             In a (actions (main_step os_says (glob_at query) query)) ->
             In a (actions (make_folder os_says "c-tm/all")
                     ++ flat_map (fun x => actions (main_step os_says (glob_at x) x))
                                 queries)).
  { intros a Ha. apply in_or_app. right. apply in_flat_map.
    exists query. split; assumption. }
  split; [|split].
  - apply Hin. rewrite Hstep. now left.
  - intros templ Ht. apply Hin. rewrite Hstep. right. apply in_or_app. left.
    apply in_map_iff. exists templ. split; [reflexivity|exact Ht].
  - apply Hin. rewrite Hstep. apply in_or_app. right. now left.
Qed.

End RunFacts.

(** ** The stack as a part of the sorted table *)

Module StackFacts.
Import PandasFacts.

(** [t <= c'] and not [c < c'] give [t <= c]. *)
Lemma leb_above t c c' :
  is_nan c = false ->
  PyFloat.leb t c' = true -> PyFloat.ltb c c' = false -> PyFloat.leb t c = true.
Proof.
  unfold PyFloat.leb, PyFloat.ltb, SFleb, SFltb.
  destruct t as [st|st| |st mt et], c as [sc|sc| |sc mc ec],
           c' as [s'|s'| |s' m' e']; try discriminate; intros _;
    try reflexivity;
    try (destruct st, sc, s'; simpl; intros; congruence).
  destruct st, sc, s'; cbn [SFcompare]; try congruence; try reflexivity.
  - pose proof (lex_cases et e' mt m') as H1.
    pose proof (lex_cases ec e' mc m') as H2.
    pose proof (lex_cases et ec mt mc) as H3.
    destruct (et ?= e')%Z, (ec ?= e')%Z, (et ?= ec)%Z; try discriminate;
      try reflexivity; try lia;
      destruct H1 as [? H1], H2 as [? H2], H3 as [? H3];
      destruct (Pos.compare_cont Eq mt m'), (Pos.compare_cont Eq mc m'),
               (Pos.compare_cont Eq mt mc); simpl;
      try discriminate; try reflexivity; lia.
  - pose proof (lex_cases et e' mt m') as H1.
    pose proof (lex_cases ec e' mc m') as H2.
    pose proof (lex_cases et ec mt mc) as H3.
    destruct (et ?= e')%Z, (ec ?= e')%Z, (et ?= ec)%Z; try discriminate;
      try reflexivity; try lia;
      destruct H1 as [? H1], H2 as [? H2], H3 as [? H3];
      destruct (Pos.compare_cont Eq mt m'), (Pos.compare_cont Eq mc m'),
               (Pos.compare_cont Eq mt mc); simpl;
      try discriminate; try reflexivity; lia.
Qed.

Lemma leb_trans a b c :
  PyFloat.leb a b = true -> PyFloat.leb b c = true -> PyFloat.leb a c = true.
Proof.
  unfold PyFloat.leb, SFleb.
  destruct a as [sa|sa| |sa ma ea], b as [sb|sb| |sb mb eb],
           c as [sc|sc| |sc mc ec]; try discriminate;
    try reflexivity;
    try (destruct sa, sb, sc; simpl; intros; congruence).
  destruct sa, sb, sc; cbn [SFcompare]; try congruence; try reflexivity.
  - pose proof (lex_cases ea eb ma mb) as H1.
    pose proof (lex_cases eb ec mb mc) as H2.
    pose proof (lex_cases ea ec ma mc) as H3.
    destruct (ea ?= eb)%Z, (eb ?= ec)%Z, (ea ?= ec)%Z; try discriminate;
      try reflexivity; try lia;
      destruct H1 as [? H1], H2 as [? H2], H3 as [? H3];
      destruct (Pos.compare_cont Eq ma mb), (Pos.compare_cont Eq mb mc),
               (Pos.compare_cont Eq ma mc); simpl;
      try discriminate; try reflexivity; lia.
  - pose proof (lex_cases ea eb ma mb) as H1.
    pose proof (lex_cases eb ec mb mc) as H2.
    pose proof (lex_cases ea ec ma mc) as H3.
    destruct (ea ?= eb)%Z, (eb ?= ec)%Z, (ea ?= ec)%Z; try discriminate;
      try reflexivity; try lia;
      destruct H1 as [? H1], H2 as [? H2], H3 as [? H3];
      destruct (Pos.compare_cont Eq ma mb), (Pos.compare_cont Eq mb mc),
               (Pos.compare_cont Eq ma mc); simpl;
      try discriminate; try reflexivity; lia.
Qed.

Lemma leb_nan_r t : PyFloat.leb t S754_nan = false.
Proof. now destruct t as [[]|[]| |[] m e]. Qed.

Lemma present_not_nan r : present r = true -> is_nan (chosen r) = false.
Proof. unfold present, missing_score. now destruct (is_nan (chosen r)). Qed.

(** In a descending run of records with a score, none is above the
    first. *)
Lemma descending_head_max : forall l r,
  descending (r :: l) -> Forall (fun x => present x = true) (r :: l) ->
  forall r', In r' l -> PyFloat.ltb (chosen r) (chosen r') = false.
Proof.
  induction l as [|r2 l IH]; intros r Hd Hp r' Hin; [destruct Hin|].
  destruct Hd as [H12 Hd].
  inversion Hp as [|? ? Hr Hp']; subst.
  inversion Hp' as [|? ? Hr2 _]; subst.
  destruct Hin as [<-|Hin]; [exact H12|].
  apply (ltb_ntrans _ (chosen r2)); try (now apply present_not_nan); try exact H12.
  - rewrite Forall_forall in Hp'. apply present_not_nan, Hp'. now right.
  - now apply (IH r2).
Qed.

Lemma descending_tail r l : descending (r :: l) -> descending l.
Proof. destruct l; [intros; exact I|]. now intros [_ H]. Qed.

Lemma at_least_prefix t : forall l,
  descending l -> Forall (fun x => present x = true) l ->
  Pandas.at_least t l = firstn (List.length (Pandas.at_least t l)) l.
Proof.
  unfold Pandas.at_least.
  induction l as [|r l IH]; intros Hd Hp; [reflexivity|].
  inversion Hp as [|? ? Hr Hp']; subst.
  simpl. destruct (PyFloat.leb t (chosen r)) eqn:Hle.
  - simpl. f_equal. apply IH; [now apply descending_tail in Hd|exact Hp'].
  - rewrite (filter_none _ l); [reflexivity|].
    intros r' Hin. destruct (PyFloat.leb t (chosen r')) eqn:Hle'; [|reflexivity].
    rewrite <- Hle. symmetry. apply (leb_above t (chosen r) (chosen r'));
      [now apply present_not_nan|exact Hle'|].
    now apply (descending_head_max l r Hd Hp).
Qed.

Lemma sorted_parts (df : Pandas.table) :
  exists P,
    Pandas.sort_values df = P ++ filter missing_score df
    /\ descending P /\ Forall (fun x => present x = true) P.
Proof.
  destruct (sort_values_shape df) as (order & Hperm & Hord & E).
  pose proof (order_in_range df order Hperm) as Hr.
  eexists. split; [exact E|]. split.
  - now apply descending_map_rows.
  - apply Forall_forall. intros r Hin. apply in_map_iff in Hin.
    destruct Hin as (p & <- & Hp). rewrite Forall_forall in Hr.
    specialize (Hr p Hp).
    assert (Hin : In (nth p (rev (filter present df)) Pandas.empty_record)
                     (filter present df)) by (apply in_rev, nth_In, Hr).
    now apply filter_In in Hin.
Qed.

Lemma at_least_missing t df :
  Pandas.at_least t (filter missing_score df) = [].
Proof.
  unfold Pandas.at_least. apply filter_none. intros r Hr.
  apply filter_In in Hr. destruct Hr as [_ Hr]. unfold missing_score in Hr.
  destruct (chosen r); try discriminate. apply leb_nan_r.
Qed.

Lemma at_least_sorted_prefix t df :
  Pandas.at_least t (Pandas.sort_values df) =
  firstn (List.length (Pandas.at_least t (Pandas.sort_values df)))
         (Pandas.sort_values df).
Proof.
  destruct (sorted_parts df) as (P & -> & Hd & Hp).
  assert (E : Pandas.at_least t (P ++ filter missing_score df) = Pandas.at_least t P).
  { unfold Pandas.at_least. rewrite filter_app.
    fold (Pandas.at_least t (filter missing_score df)).
    rewrite at_least_missing. apply app_nil_r. }
  rewrite E. rewrite firstn_app.
  replace (List.length (Pandas.at_least t P) - List.length P) with 0.
  - simpl. rewrite app_nil_r. now apply at_least_prefix.
  - unfold Pandas.at_least. pose proof (filter_length_le (fun r => PyFloat.leb t (chosen r)) P). lia.
Qed.

Lemma Permutation_filter {A} (f : A -> bool) (l l' : list A) :
  Permutation l l' -> Permutation (filter f l) (filter f l').
Proof.
  induction 1 as [|x l l' _ IH|x y l|l l' l'' _ IH1 _ IH2]; simpl.
  - constructor.
  - destruct (f x); [now constructor|exact IH].
  - destruct (f x), (f y); try reflexivity. apply perm_swap.
  - etransitivity; eassumption.
Qed.

Lemma descending_suffix : forall l1 l, descending (l1 ++ l) -> descending l.
Proof.
  induction l1 as [|r l1 IH]; intros l H; [exact H|].
  apply IH. now apply (descending_tail r).
Qed.

Lemma parse_records_present base text :
  Forall (fun r => present r = true) (parse_records base text).
Proof.
  apply Forall_forall. intros r Hr. unfold parse_records in Hr.
  apply in_map_iff in Hr. destruct Hr as (block & <- & _).
  unfold present, missing_score. cbn [chosen parse_block].
  now rewrite (nonneg_not_nan _ (chosen_of_nonneg _ _)).
Qed.

End StackFacts.

(** ** The files written *)

Module WriteFacts.
Import PandasFacts JoinFacts.

Lemma written_process_file cfg st alnfile text :
  written (process_file cfg st alnfile text) =
  written st ++ writes_of cfg (alnfile, text).
Proof. reflexivity. Qed.

Lemma written_process_files cfg files : forall st,
  written (process_files cfg st files) =
  written st ++ flat_map (writes_of cfg) files.
Proof.
  induction files as [|[alnfile text] files IH]; intros st.
  - simpl. now rewrite app_nil_r.
  - rewrite process_files_cons, IH, written_process_file.
    cbn [fst snd flat_map]. now rewrite app_assoc.
Qed.

(** The paths that one combined file is written to. *)
Lemma paths_of_writes cfg f :
  map path_of (writes_of cfg f) = [tab_path (base_of f); sorted_path (base_of f)]
  \/ map path_of (writes_of cfg f) =
     [tab_path (base_of f); sorted_path (base_of f); stack_path (base_of f)].
Proof.
  unfold writes_of, process_file. cbn [written init_state app].
  destruct (Pandas.at_least _ _); [left|right]; reflexivity.
Qed.

Lemma dirname_tab_path alnfile :
  Path.dirname (tab_path (basename_of alnfile)) = "c-tm/all_tab".
Proof.
  apply (dirname_in_dir "c-tm/all_tab"); [discriminate|reflexivity|].
  rewrite contains_char_app, basename_of_no_slash. reflexivity.
Qed.

Lemma dirname_sorted_path alnfile :
  Path.dirname (sorted_path (basename_of alnfile)) = "c-tm/all_tab_sorted".
Proof.
  apply (dirname_in_dir "c-tm/all_tab_sorted"); [discriminate|reflexivity|].
  rewrite contains_char_app, basename_of_no_slash. reflexivity.
Qed.

Lemma dirname_stack_path alnfile :
  Path.dirname (stack_path (basename_of alnfile)) = "tm-stacks".
Proof.
  apply (dirname_in_dir "tm-stacks"); [discriminate|reflexivity|].
  rewrite contains_char_app, basename_of_no_slash. reflexivity.
Qed.

Lemma tab_path_inj b b' : tab_path b = tab_path b' -> b = b'.
Proof.
  unfold tab_path. intros H. apply sapp_inv_head in H. now apply sapp_inv_tail in H.
Qed.

Lemma sorted_path_inj b b' : sorted_path b = sorted_path b' -> b = b'.
Proof.
  unfold sorted_path. intros H. apply sapp_inv_head in H. now apply sapp_inv_tail in H.
Qed.

Lemma stack_path_inj b b' : stack_path b = stack_path b' -> b = b'.
Proof.
  unfold stack_path. intros H. apply sapp_inv_head in H. now apply sapp_inv_tail in H.
Qed.

Lemma paths_differ b b' :
  tab_path b <> sorted_path b' /\ tab_path b <> stack_path b'
  /\ sorted_path b <> stack_path b'.
Proof. unfold tab_path, sorted_path, stack_path. repeat split; discriminate. Qed.

Lemma path_owner cfg f p :
  In p (map path_of (writes_of cfg f)) ->
  p = tab_path (base_of f) \/ p = sorted_path (base_of f)
  \/ p = stack_path (base_of f).
Proof.
  intros H. destruct (paths_of_writes cfg f) as [E|E]; rewrite E in H;
    simpl in H; intuition auto.
Qed.

Lemma one_owner cfg f f' p :
  In p (map path_of (writes_of cfg f)) -> In p (map path_of (writes_of cfg f')) ->
  base_of f = base_of f'.
Proof.
  intros H H'. apply path_owner in H, H'.
  destruct (paths_differ (base_of f) (base_of f')) as (D1 & D2 & D3).
  destruct (paths_differ (base_of f') (base_of f)) as (D1' & D2' & D3').
  destruct H as [-> | [-> | ->]], H' as [H'|[H'|H']];
    try (now apply tab_path_inj); try (now apply sorted_path_inj);
    try (now apply stack_path_inj); congruence.
Qed.

Lemma NoDup_paths_of_writes cfg f : NoDup (map path_of (writes_of cfg f)).
Proof.
  destruct (paths_differ (base_of f) (base_of f)) as (D1 & D2 & D3).
  destruct (paths_of_writes cfg f) as [E|E]; rewrite E;
    repeat constructor; simpl; intuition congruence.
Qed.

Lemma NoDup_paths cfg files :
  NoDup (map base_of files) ->
  NoDup (map path_of (flat_map (writes_of cfg) files)).
Proof.
  induction files as [|f files IH]; intros Hnd; [constructor|].
  inversion Hnd as [|? ? Hf Hnd']; subst.
  cbn [flat_map]. rewrite map_app. apply NoDup_app.
  - apply NoDup_paths_of_writes.
  - now apply IH.
  - intros p Hp Hq. apply in_map_iff in Hq. destruct Hq as (w & <- & Hw).
    apply in_flat_map in Hw. destruct Hw as (f' & Hf' & Hw).
    apply Hf. rewrite (one_owner cfg f f' (path_of w) Hp (in_map path_of _ _ Hw)).
    now apply in_map.
Qed.

Lemma length_parse_records base text :
  List.length (parse_records base text) = List.length (blocks text).
Proof. apply length_map. Qed.

End WriteFacts.

(** ** The strings on which [float] raises *)

Module NumberFacts.
Import Chars.

Lemma digit_not_point a : is_digit a = true -> is_point a = false.
Proof.
  unfold is_digit, is_point. intros H. apply andb_true_iff in H.
  destruct H as [H1 H2]. apply Nat.leb_le in H1. apply Nat.eqb_neq. lia.
Qed.

Lemma num_char_cases a :
  is_num_char a = true -> is_digit a = false -> is_point a = true.
Proof. unfold is_num_char, is_point. intros H E. rewrite E in H. exact H. Qed.

Lemma point_not_digit a : is_point a = true -> is_digit a = false.
Proof.
  intros H. destruct (is_digit a) eqn:E; [|reflexivity].
  apply digit_not_point in E. congruence.
Qed.

Lemma count_chars_app c s t :
  count_chars c (s ++ t) = count_chars c s + count_chars c t.
Proof. induction s as [|a s IH]; simpl; [reflexivity|]. rewrite IH. lia. Qed.

Lemma count_digits_run ds :
  all_chars is_digit ds = true ->
  count_chars is_digit ds = String.length ds /\ count_chars is_point ds = 0.
Proof.
  induction ds as [|a ds IH]; intros H; [split; reflexivity|].
  simpl in H. apply andb_true_iff in H. destruct H as [Ha H].
  destruct (IH H) as [E1 E2]. simpl. rewrite Ha, (digit_not_point a Ha), E1, E2.
  split; reflexivity.
Qed.

(** [read_digits] reads the longest run of digits at the head. *)
Lemma read_digits_run : forall s acc cnt,
  exists ds rest acc',
    s = (ds ++ rest)%string /\ all_chars is_digit ds = true
    /\ read_digits s acc cnt = (acc', cnt + String.length ds, rest)
    /\ match rest with
       | String a _ => is_digit a = false
       | EmptyString => True
       end.
Proof.
  induction s as [|a s IH]; intros acc cnt.
  - exists "", "", acc. simpl. rewrite Nat.add_0_r. auto.
  - cbn [read_digits]. destruct (is_digit a) eqn:Ha.
    + destruct (IH (10 * acc + digit_value a)%Z (S cnt))
        as (ds & rest & acc' & -> & Hall & E & Hrest).
      exists (String a ds), rest, acc'.
      cbn [append all_chars String.length]. rewrite Ha, Hall, E.
      repeat split; auto. f_equal. f_equal. lia.
    + exists "", (String a s), acc. cbn [append all_chars String.length].
      rewrite Nat.add_0_r. auto.
Qed.

(** On digits and points [float] raises exactly for more than one point
    or no digit. *)
Lemma py_float_none_iff s :
  all_chars is_num_char s = true ->
  (py_float s = None <-> ill_formed s = true).
Proof.
  intros Hnum. unfold py_float, ill_formed.
  destruct (read_digits_run s 0%Z 0) as (ds & rest & ip & -> & Hds & E & Hrest).
  rewrite E. simpl Nat.add.
  rewrite all_chars_app in Hnum. apply andb_true_iff in Hnum.
  destruct Hnum as [_ Hnum].
  destruct (count_digits_run ds Hds) as [Cd Cp].
  rewrite !count_chars_app, Cd, Cp.
  destruct rest as [|c rest'].
  - simpl. rewrite Nat.add_0_r.
    destruct (String.length ds =? 0) eqn:E0; split; intros H;
      try reflexivity; try discriminate.
  - simpl in Hnum. apply andb_true_iff in Hnum. destruct Hnum as [Hc Hnum].
    assert (Hp : is_point c = true) by now apply num_char_cases.
    change (code c =? 46) with (is_point c). rewrite Hp.
    destruct (read_digits_run rest' ip 0)
      as (ds2 & rest2 & all & -> & Hds2 & E2 & Hrest2).
    rewrite E2. simpl Nat.add.
    rewrite all_chars_app in Hnum. apply andb_true_iff in Hnum.
    destruct Hnum as [_ Hnum].
    destruct (count_digits_run ds2 Hds2) as [Cd2 Cp2].
    simpl count_chars. rewrite Hp, Hrest, !count_chars_app, Cd2, Cp2.
    destruct rest2 as [|c2 rest3].
    + simpl. rewrite !Nat.add_0_r.
      destruct (String.length ds + String.length ds2 =? 0) eqn:E0;
        split; intros H; try reflexivity; try discriminate.
    + simpl in Hnum. apply andb_true_iff in Hnum. destruct Hnum as [Hc2 _].
      assert (Hp2 : is_point c2 = true) by now apply num_char_cases.
      simpl count_chars. rewrite Hp2. split; [reflexivity|intros _; reflexivity].
Qed.

End NumberFacts.

(** ** What the patterns capture *)

Module FieldFacts.
Import Chars.

(** Where a value follows the label, [label\s*(c+)] matches. *)
Lemma simple_pattern_complete label c suf :
  has_value label c suf ->
  match_here (Cat (Lit label) (Cat (star is_space) (Group (plus c)))) suf <> None.
Proof.
  intros (ws & a & post & -> & Hws & Ha).
  unfold match_here. cbn [run star plus]. rewrite lit_complete.
  apply rep_greedy_over_run; [exact Hws|].
  intros m. simpl. rewrite Ha.
  destruct (rep_greedy c 0 post (S m) _) eqn:E; [discriminate|].
  apply rep_greedy_total in E; [destruct E|discriminate].
Qed.

Lemma match_here_value label c suf n g :
  match_here (Cat (Lit label) (Cat (star is_space) (Group (plus c)))) suf
    = Some (n, g) ->
  exists f, g = Some f /\ value_at label c suf f.
Proof.
  intros Hm. unfold match_here in Hm. cbn [run star plus] in Hm.
  destruct (lit label suf) as [s1|] eqn:Hl; [|discriminate].
  apply lit_sound in Hl. subst suf.
  apply rep_greedy_sound in Hm.
  destruct Hm as (ws & s2 & -> & Hws & _ & Hm).
  apply rep_greedy_max in Hm; [|discriminate].
  destruct Hm as (f & post & -> & Hf & Hlen & Hk & Hst).
  injection Hk as _ <-.
  exists f. split.
  - f_equal. cbn [Nat.add].
    replace (String.length label + String.length ws + String.length f
             - (String.length label + String.length ws))
      with (String.length f) by lia.
    apply substring_0_app.
  - exists ws, post. repeat split; auto. now apply length_nonempty.
Qed.

(** The field of [label\s*(c+)]: the value that follows the label where
    one first does, the empty string where none does. *)
Lemma simple_field_first label c block :
  let r := Cat (Lit label) (Cat (star is_space) (Group (plus c))) in
  (no_value label c block /\ field r block = "")
  \/ first_value label c block (field r block).
Proof.
  intros r. unfold field, Re.search.
  destruct (search_from r block 0) as [[[i n] g]|] eqn:Hs.
  - right. apply search_from_first in Hs.
    destruct Hs as (pre & suf & -> & Hm & Hfirst).
    apply match_here_value in Hm. destruct Hm as (f & -> & Hv).
    exists pre, suf. split; [reflexivity|]. split; [exact Hv|].
    intros pre' suf' E Hlt Hhas.
    apply (simple_pattern_complete label c suf' Hhas).
    now apply (Hfirst pre' suf').
  - left. split; [|reflexivity].
    intros pre suf E Hhas.
    apply (simple_pattern_complete label c suf Hhas).
    now apply (search_from_none r block 0 Hs pre suf).
Qed.

Lemma tm_field chain block :
  (Re.search (Pat.tm chain) block = None /\ field (Pat.tm chain) block = "")
  \/ tm_line chain block (field (Pat.tm chain) block).
Proof.
  unfold field.
  destruct (Re.search (Pat.tm chain) block) as [[[i n] g]|] eqn:Hs;
    [right|left; auto].
  apply search_from_sound in Hs. destruct Hs as (pre & suf & -> & Hm).
  apply match_here_sound in Hm. destruct Hm as (w & post & -> & _ & Hd).
  unfold Pat.tm in Hd. simpl in Hd.
  destruct Hd as (w1 & w2 & g1 & -> & (-> & ->) & Hd).
  destruct Hd as (w3 & w4 & g2 & -> & (Hws & _ & ->) & Hd).
  destruct Hd as (w5 & w6 & g3 & -> & ((g' & Hnum & Hlen & _) & ->) & Hd).
  destruct Hd as (w7 & w8 & g4 & -> & (Hws' & _ & ->) & Hd).
  destruct Hd as (w9 & w10 & g5 & -> & (-> & ->) & Hd).
  destruct Hd as (w11 & w12 & g6 & -> & (Hrest & _ & ->) & (-> & ->)).
  simpl group1_or_empty.
  exists pre, w3, w7, w11, post. repeat split; auto.
  - rewrite ?sapp_assoc. simpl. rewrite ?sapp_assoc. reflexivity.
  - now apply length_nonempty.
Qed.

Lemma contains_middle b p post : forall pre,
  contains (String b p) (pre ++ String b p ++ post) = true.
Proof.
  induction pre as [|a pre IH].
  - change (contains (String b p) ("" ++ String b p ++ post))
      with (match lit (String b p) (String b p ++ post) with
            | Some _ => true
            | None => contains (String b p) (p ++ post)
            end).
    now rewrite lit_complete.
  - change (contains (String b p) (String a pre ++ String b p ++ post))
      with (match lit (String b p) (String a (pre ++ String b p ++ post)) with
            | Some _ => true
            | None => contains (String b p) (pre ++ String b p ++ post)
            end).
    rewrite IH. now destruct (lit _ _).
Qed.

Lemma banner_match_shape text i n g :
  Re.search Pat.banner text = Some (i, n, g) -> banner_line text.
Proof.
  intros Hs. apply search_from_sound in Hs. destruct Hs as (pre & suf & -> & Hm).
  apply match_here_sound in Hm. destruct Hm as (w & post & -> & _ & Hd).
  unfold Pat.banner in Hd. simpl in Hd.
  destruct Hd as (w1 & w2 & g1 & -> & (Hst & Hl1 & ->) & Hd).
  destruct Hd as (w3 & w4 & g2 & -> & (Hws & _ & ->) & Hd).
  destruct Hd as (w5 & w6 & g3 & -> & (-> & ->) & Hd).
  destruct Hd as (w7 & w8 & g4 & -> & (Hrest & _ & ->) & (Hst' & Hl2 & ->)).
  exists pre, w1, w3, w7, w8, post. repeat split; auto.
  - rewrite ?sapp_assoc. reflexivity.
  - now apply length_nonempty.
  - now apply length_nonempty.
Qed.

End FieldFacts.

(* ===================================================================== *)
(** * Further properties                                                  *)
(* ===================================================================== *)

Import Chars PandasFacts.
Import JoinFacts ShFacts RunFacts StackFacts WriteFacts NumberFacts FieldFacts.

(** ** [run_tm_align] and [main] *)

(** X1. [run_tm_align] asks for [out_dir] first: when that raises, as it
    does for the empty path, no command is handed to the shell. When it
    returns, one [TMalign] command per listed template follows; for
    plain paths the shell reads each as the program [TMalign] with the
    query and the template as its arguments and the alignment file as
    the file that standard output goes to, and that file lies directly
    in [out_dir], given that [out_dir] does not end with a separator. *)
Theorem run_tm_align_makes_the_folder_then_aligns :
  forall (os_says : string -> option error)
         (glob : string -> error + list string)
         (query template_dir out_dir : string),
    (forall e,
        failure (make_folder os_says out_dir) = Some e ->
        run_tm_align os_says glob query template_dir out_dir =
          mk_progress [MakeDirs out_dir] (Some e))
    /\ run_tm_align os_says glob query template_dir "" =
         mk_progress [MakeDirs ""] (Some FileNotFoundError)
    /\ (forall templs,
          failure (make_folder os_says out_dir) = None ->
          glob (Path.join template_dir "*.pdb") = inr templs ->
          Sh.plain query = true -> forallb Sh.plain templs = true ->
          Sh.plain out_dir = true -> Path.ends_with_sep out_dir = false ->
          run_tm_align os_says glob query template_dir out_dir =
            mk_progress
              (MakeDirs out_dir
                 :: map (fun templ => System (tmalign_command query templ out_dir))
                        templs)
              None
          /\ forall templ, In templ templs ->
               Sh.parse (tmalign_command query templ out_dir) =
                 Some (Sh.mk_simple_command
                         [Sh.Literal "TMalign"; Sh.Literal query; Sh.Literal templ]
                         (Some (outfile query templ out_dir)))
               /\ Path.dirname (outfile query templ out_dir) = out_dir).
Proof.
  intros os_says glob query template_dir out_dir. split; [|split].
  - intros e He. unfold run_tm_align. rewrite (and_then_failed _ _ e He).
    unfold make_folder in *. cbn [failure] in He. now rewrite He.
  - reflexivity.
  - intros templs Hm Hg Hq Hts Ho Hend. rewrite forallb_forall in Hts.
    split.
    + unfold run_tm_align. rewrite Hg, and_then_ok by exact Hm.
      rewrite for_each_ok.
      * cbn [actions make_folder create_folder app failure]. f_equal. f_equal.
        apply flat_map_systems. intros templ Ht.
        rewrite system_ok; [reflexivity|].
        apply tmalign_command_no_nul; auto.
      * intros templ Ht. rewrite system_ok; [reflexivity|].
        apply tmalign_command_no_nul; auto.
    + intros templ Ht. split.
      * apply parse_tmalign_command; auto.
      * unfold outfile. apply dirname_join; [exact Hend|apply outfile_name_no_sep].
Qed.

Lemma run_tm_align_makes_the_folder_then_aligns_witness :
  run_tm_align Scenario.os_says (Scenario.glob_at "q/qA.pdb") "q/qA.pdb" "t" "c-tm/qA" =
    mk_progress
      [MakeDirs "c-tm/qA";
       System "TMalign q/qA.pdb t/t1.pdb > c-tm/qA/qA_t1.aln";
       System "TMalign q/qA.pdb t/t2.pdb > c-tm/qA/qA_t2.aln"]
      None
  /\ forall templ, In templ ["t/t1.pdb"; "t/t2.pdb"] ->
       Sh.parse (tmalign_command "q/qA.pdb" templ "c-tm/qA") =
         Some (Sh.mk_simple_command
                 [Sh.Literal "TMalign"; Sh.Literal "q/qA.pdb"; Sh.Literal templ]
                 (Some (outfile "q/qA.pdb" templ "c-tm/qA")))
       /\ Path.dirname (outfile "q/qA.pdb" templ "c-tm/qA") = "c-tm/qA".
Proof.
  exact (proj2 (proj2 (run_tm_align_makes_the_folder_then_aligns
                         Scenario.os_says (Scenario.glob_at "q/qA.pdb")
                         "q/qA.pdb" "t" "c-tm/qA"))
               ["t/t1.pdb"; "t/t2.pdb"]
               eq_refl eq_refl eq_refl eq_refl eq_refl eq_refl).
Defined.

(** X2. For one query and plain paths, the [.pdb] files of one template
    directory get alignment files with pairwise different paths, and
    these paths are the files that the shell redirects the commands to:
    no alignment overwrites another. *)
Theorem run_tm_align_outfiles_distinct :
  forall (query template_dir out_dir : string) (stems : list string),
    Sh.plain query = true -> Sh.plain template_dir = true ->
    Sh.plain out_dir = true ->
    forallb (fun stem => Glob.stem_ok stem && Sh.plain stem) stems = true ->
    NoDup stems ->
    let target stem := outfile query (Glob.pdb_path template_dir stem) out_dir in
    (forall stem, In stem stems ->
       option_map Sh.stdout_to
         (Sh.parse (tmalign_command query (Glob.pdb_path template_dir stem) out_dir))
       = Some (Some (target stem)))
    /\ NoDup (map target stems).
Proof.
  intros query template_dir out_dir stems Hq Htd Ho Hok Hnd target.
  rewrite forallb_forall in Hok.
  assert (Hs : forall stem, In stem stems ->
                 Glob.stem_ok stem = true /\ Sh.plain stem = true).
  { intros stem Hin. apply andb_true_iff. now apply Hok. }
  split.
  - intros stem Hin. destruct (Hs stem Hin) as [_ Hp].
    rewrite parse_tmalign_command; auto. now apply pdb_path_plain.
  - apply NoDup_map_inj_in; [|exact Hnd].
    intros x y Hx Hy H. unfold target, outfile in H.
    apply join_inj in H; try apply outfile_name_no_sep.
    apply sapp_inv_head in H. apply (sapp_inv_head "_") in H.
    apply sapp_inv_tail in H.
    fold (query_root (Glob.pdb_path template_dir x)) in H.
    fold (query_root (Glob.pdb_path template_dir y)) in H.
    rewrite !query_root_pdb_path in H by (now apply Hs). exact H.
Qed.

Lemma run_tm_align_outfiles_distinct_witness :
  (forall stem, In stem ["t1"; "t2"; "t1.v2"] ->
     option_map Sh.stdout_to
       (Sh.parse (tmalign_command "q/qA.pdb" (Glob.pdb_path "t" stem) "c-tm/qA"))
     = Some (Some (outfile "q/qA.pdb" (Glob.pdb_path "t" stem) "c-tm/qA")))
  /\ NoDup (map (fun stem => outfile "q/qA.pdb" (Glob.pdb_path "t" stem) "c-tm/qA")
                ["t1"; "t2"; "t1.v2"]).
Proof.
  apply (run_tm_align_outfiles_distinct "q/qA.pdb" "t" "c-tm/qA"
           ["t1"; "t2"; "t1.v2"]); try reflexivity.
  repeat constructor; simpl; intuition discriminate.
Defined.

(** X3. In a run of [main] that no exception ends, for a query
    [q/Q.pdb] and a template [t/T.pdb] that [glob] lists, with plain
    names [Q] and [T]: [main] asks for the folder [c-tm/Q], runs
    [TMalign q/Q.pdb t/T.pdb > c-tm/Q/Q_T.aln], which the shell reads as
    an alignment written to [c-tm/Q/Q_T.aln], and runs
    [cat c-tm/Q/*.aln > c-tm/all/Q.aln], which the shell reads as the
    files of the pattern [c-tm/Q/*.aln] written to [c-tm/all/Q.aln];
    [Q_T.aln] is a visible [.aln] name without separator, one that the
    star of the pattern stands for. *)
Theorem main_aligns_into_the_directory_it_concatenates :
  forall (os_says : string -> option error)
         (glob0 : string -> error + list string)
         (glob_at : string -> string -> error + list string)
         (cfg : config) (files : list (string * string))
         (queries templs : list string) (qs ts : string),
    Glob.stem_ok qs = true -> Sh.plain qs = true ->
    Glob.stem_ok ts = true -> Sh.plain ts = true ->
    glob0 "q/*.pdb" = inr queries -> In (Glob.pdb_path "q" qs) queries ->
    glob_at (Glob.pdb_path "q" qs) "t/*.pdb" = inr templs ->
    In (Glob.pdb_path "t" ts) templs ->
    failure (fst (main os_says glob0 glob_at cfg files)) = None ->
    let done := actions (fst (main os_says glob0 glob_at cfg files)) in
    let align := ("TMalign q/" ++ qs ++ ".pdb t/" ++ ts ++ ".pdb > c-tm/"
                    ++ qs ++ "/" ++ (qs ++ "_" ++ ts) ++ ".aln")%string in
    let cat := ("cat c-tm/" ++ qs ++ "/*.aln > c-tm/all/" ++ qs ++ ".aln")%string in
    In (MakeDirs ("c-tm/" ++ qs)) done
    /\ In (System align) done
    /\ Sh.parse align =
         Some (Sh.mk_simple_command
                 [Sh.Literal "TMalign"; Sh.Literal ("q/" ++ qs ++ ".pdb");
                  Sh.Literal ("t/" ++ ts ++ ".pdb")]
                 (Some ("c-tm/" ++ qs ++ "/" ++ (qs ++ "_" ++ ts) ++ ".aln")%string))
    /\ Glob.stem_ok (qs ++ "_" ++ ts) = true
    /\ In (System cat) done
    /\ Sh.parse cat =
         Some (Sh.mk_simple_command
                 [Sh.Literal "cat"; Sh.Pattern ("c-tm/" ++ qs ++ "/*.aln")]
                 (Some ("c-tm/all/" ++ qs ++ ".aln")%string)).
Proof.
  intros os_says glob0 glob_at cfg files queries templs qs ts
         Hq Hqp Ht Htp Hg0 Hinq Hgt Hint Hf done align cat.
  destruct (main_done os_says glob0 glob_at cfg files queries _ templs
              Hg0 Hinq Hgt Hf) as (Hmk & Hal & Hcat & _).
  fold done in Hmk, Hal, Hcat.
  rewrite out_dir_of_listed in Hmk, Hal by exact Hq.
  assert (Hcmd : tmalign_command (Glob.pdb_path "q" qs) (Glob.pdb_path "t" ts)
                                 ("c-tm/" ++ qs) = align).
  { unfold tmalign_command.
    rewrite <- (out_dir_of_listed qs Hq), outfile_listed by assumption.
    unfold align, Glob.pdb_path. simpl. now rewrite !sapp_assoc. }
  assert (Hout : outfile (Glob.pdb_path "q" qs) (Glob.pdb_path "t" ts)
                         ("c-tm/" ++ qs) =
                 ("c-tm/" ++ qs ++ "/" ++ (qs ++ "_" ++ ts) ++ ".aln")%string).
  { rewrite <- (out_dir_of_listed qs Hq). now apply outfile_listed. }
  destruct (parse_cat_command qs Hq Hqp) as [Hcc Hpc].
  split; [exact Hmk|]. split; [|split; [|split; [|split]]].
  - rewrite <- Hcmd. now apply Hal.
  - rewrite <- Hcmd, parse_tmalign_command.
    + now rewrite Hout.
    + now apply (pdb_path_plain "q").
    + now apply (pdb_path_plain "t").
    + now apply out_dir_plain.
  - now apply stem_ok_joined.
  - unfold cat. now rewrite <- Hcc.
  - unfold cat. now rewrite <- Hcc, Hpc.
Qed.

Lemma main_aligns_into_the_directory_it_concatenates_witness :
  let done :=
    actions (fst (main Scenario.os_says Scenario.glob0 Scenario.glob_at
                       Scenario.cfg Scenario.files)) in
  In (MakeDirs "c-tm/qA") done
  /\ In (System "TMalign q/qA.pdb t/t2.pdb > c-tm/qA/qA_t2.aln") done
  /\ Sh.parse "TMalign q/qA.pdb t/t2.pdb > c-tm/qA/qA_t2.aln" =
       Some (Sh.mk_simple_command
               [Sh.Literal "TMalign"; Sh.Literal "q/qA.pdb"; Sh.Literal "t/t2.pdb"]
               (Some "c-tm/qA/qA_t2.aln"))
  /\ Glob.stem_ok "qA_t2" = true
  /\ In (System "cat c-tm/qA/*.aln > c-tm/all/qA.aln") done
  /\ Sh.parse "cat c-tm/qA/*.aln > c-tm/all/qA.aln" =
       Some (Sh.mk_simple_command
               [Sh.Literal "cat"; Sh.Pattern "c-tm/qA/*.aln"]
               (Some "c-tm/all/qA.aln")).
Proof.
  apply (main_aligns_into_the_directory_it_concatenates
           Scenario.os_says Scenario.glob0 Scenario.glob_at
           Scenario.cfg Scenario.files
           ["q/qA.pdb"; "q/qB.pdb"] ["t/t1.pdb"; "t/t2.pdb"] "qA" "t2");
    try reflexivity; simpl; auto.
Defined.

(** X4. In a run of [main] that no exception ends, the file that the
    shell redirects the [cat] of a listed query [q/Q.pdb] to, [Q] being
    a plain name, is [c-tm/all/Q.aln], a file that the pattern of
    [parse_and_save] lists; its base name there is [Q], and every record
    parsed from it carries the file name [Q.pdb] of the query in its
    query field. Such a run ends with [parse_and_save]. *)
Theorem combined_file_is_read_back_under_the_query_name :
  forall (os_says : string -> option error)
         (glob0 : string -> error + list string)
         (glob_at : string -> string -> error + list string)
         (cfg : config) (files : list (string * string))
         (queries templs : list string) (qs : string),
    Glob.stem_ok qs = true -> Sh.plain qs = true ->
    glob0 "q/*.pdb" = inr queries -> In (Glob.pdb_path "q" qs) queries ->
    glob_at (Glob.pdb_path "q" qs) "t/*.pdb" = inr templs ->
    failure (fst (main os_says glob0 glob_at cfg files)) = None ->
    let qpath := Glob.pdb_path "q" qs in
    In (System (cat_command qpath))
       (actions (fst (main os_says glob0 glob_at cfg files)))
    /\ option_map Sh.stdout_to (Sh.parse (cat_command qpath)) =
       Some (Some (Glob.aln_path qs))
    /\ basename_of (Glob.aln_path qs) = qs
    /\ (forall text r,
           In r (parse_records (basename_of (Glob.aln_path qs)) text) ->
           query r = Path.basename qpath)
    /\ snd (main os_says glob0 glob_at cfg files) =
       Some (parse_and_save cfg files).
Proof.
  intros os_says glob0 glob_at cfg files queries templs qs
         Hq Hqp Hg0 Hin Hgt Hf qpath.
  destruct (main_done os_says glob0 glob_at cfg files queries _ templs
              Hg0 Hin Hgt Hf) as (_ & _ & Hcat & Hsnd).
  destruct (parse_cat_command qs Hq Hqp) as [_ Hpc].
  split; [exact Hcat|]. split; [|split; [|split]].
  - unfold qpath. now rewrite Hpc.
  - now apply basename_of_aln_path.
  - intros text r Hr. rewrite basename_of_aln_path in Hr by exact Hq.
    unfold parse_records in Hr. apply in_map_iff in Hr.
    destruct Hr as (block & <- & _). simpl.
    unfold qpath. now rewrite basename_pdb_path.
  - exact Hsnd.
Qed.

Lemma combined_file_is_read_back_under_the_query_name_witness :
  In (System (cat_command "q/qA.pdb"))
     (actions (fst (main Scenario.os_says Scenario.glob0 Scenario.glob_at
                         Scenario.cfg Scenario.files)))
  /\ option_map Sh.stdout_to (Sh.parse (cat_command "q/qA.pdb")) =
     Some (Some "c-tm/all/qA.aln")
  /\ basename_of "c-tm/all/qA.aln" = "qA"
  /\ (forall text r,
         In r (parse_records (basename_of "c-tm/all/qA.aln") text) ->
         query r = "qA.pdb")
  /\ snd (main Scenario.os_says Scenario.glob0 Scenario.glob_at
               Scenario.cfg Scenario.files) =
     Some (parse_and_save Scenario.cfg Scenario.files).
Proof.
  apply (combined_file_is_read_back_under_the_query_name
           Scenario.os_says Scenario.glob0 Scenario.glob_at
           Scenario.cfg Scenario.files
           ["q/qA.pdb"; "q/qB.pdb"] ["t/t1.pdb"; "t/t2.pdb"] "qA");
    try reflexivity; simpl; auto.
Defined.

(** X5. For a listed query [q/Q.pdb] and a listed template [t/T.pdb]
    with plain names, the file that the shell redirects the alignment
    to lies in [c-tm/all], the folder whose [.aln] files
    [parse_and_save] reads as combined files, exactly when the query is
    [q/all.pdb]; the alignment is then [c-tm/all/all_T.aln], which
    [parse_and_save] lists and reads under the base name [all_T]. *)
Theorem alignments_reach_the_combined_directory_iff_query_is_all :
  forall qs ts : string,
    Glob.stem_ok qs = true -> Sh.plain qs = true ->
    Glob.stem_ok ts = true -> Sh.plain ts = true ->
    let qpath := Glob.pdb_path "q" qs in
    let tpath := Glob.pdb_path "t" ts in
    let out := outfile qpath tpath (out_dir_of qpath) in
    option_map Sh.stdout_to
      (Sh.parse (tmalign_command qpath tpath (out_dir_of qpath))) = Some (Some out)
    /\ (Path.dirname out = "c-tm/all" <-> qs = "all")
    /\ (qs = "all" ->
        out = Glob.aln_path ("all_" ++ ts)
        /\ Glob.stem_ok ("all_" ++ ts) = true
        /\ basename_of out = ("all_" ++ ts)%string).
Proof.
  intros qs ts Hq Hqp Ht Htp qpath tpath out.
  assert (Hout : out = ("c-tm/" ++ qs ++ "/" ++ (qs ++ "_" ++ ts) ++ ".aln")%string)
    by (apply outfile_listed; assumption).
  assert (Hname : contains "/" ((qs ++ "_" ++ ts) ++ ".aln") = false).
  { rewrite contains_char_app, (stem_no_sep _ (stem_ok_joined qs ts Hq Ht)).
    reflexivity. }
  assert (Hdir : Path.dirname out = ("c-tm/" ++ qs)%string).
  { rewrite Hout. rewrite <- (sapp_assoc "c-tm/" qs).
    apply dirname_in_dir; [discriminate| |exact Hname].
    apply (ends_with_sep_app_no_sep "c-tm/" qs);
      [now apply stem_ok_nonempty|now apply stem_no_sep]. }
  split; [|split].
  - rewrite parse_tmalign_command; [reflexivity| | |].
    + now apply (pdb_path_plain "q").
    + now apply (pdb_path_plain "t").
    + unfold qpath. rewrite out_dir_of_listed by exact Hq. now apply out_dir_plain.
  - rewrite Hdir. split.
    + intros H. now apply (sapp_inv_head "c-tm/") in H.
    + now intros ->.
  - intros ->. assert (Hj : Glob.stem_ok ("all_" ++ ts) = true)
      by (apply (stem_ok_joined "all" ts); [reflexivity|exact Ht]).
    assert (Ho : out = Glob.aln_path ("all_" ++ ts)) by (rewrite Hout; reflexivity).
    split; [exact Ho|]. split; [exact Hj|].
    rewrite Ho. now apply basename_of_aln_path.
Qed.

Lemma alignments_reach_the_combined_directory_iff_query_is_all_witness :
  let out := outfile "q/all.pdb" "t/t1.pdb" (out_dir_of "q/all.pdb") in
  option_map Sh.stdout_to
    (Sh.parse (tmalign_command "q/all.pdb" "t/t1.pdb" (out_dir_of "q/all.pdb")))
    = Some (Some out)
  /\ (Path.dirname out = "c-tm/all" <-> "all" = "all")
  /\ ("all" = "all" ->
      out = Glob.aln_path "all_t1"
      /\ Glob.stem_ok "all_t1" = true
      /\ basename_of out = "all_t1").
Proof.
  apply (alignments_reach_the_combined_directory_iff_query_is_all "all" "t1");
    reflexivity.
Defined.

(** ** The tables of [parse_and_save] *)

(** X6. The stack table is a head of the sorted table: the rows that
    reach the threshold are the first rows of the sorted table, as many
    as the count registry records, and no row after them reaches the
    threshold. *)
Theorem stack_is_the_head_of_the_sorted_table :
  forall (cfg : config) (base text : string),
    let k := List.length (stack_table cfg base text) in
    stack_table cfg base text = firstn k (sorted_table base text)
    /\ forall r, In r (skipn k (sorted_table base text)) ->
         PyFloat.leb (score_threshold cfg) (chosen r) = false.
Proof.
  intros cfg base text k.
  assert (E : stack_table cfg base text = firstn k (sorted_table base text))
    by apply at_least_sorted_prefix.
  split; [exact E|].
  intros r Hr.
  destruct (PyFloat.leb (score_threshold cfg) (chosen r)) eqn:Hle; [|reflexivity].
  exfalso.
  set (f := fun r => PyFloat.leb (score_threshold cfg) (chosen r)).
  assert (Hstack : stack_table cfg base text = filter f (sorted_table base text))
    by reflexivity.
  assert (Hsplit : filter f (sorted_table base text) =
                   filter f (firstn k (sorted_table base text))
                   ++ filter f (skipn k (sorted_table base text)))
    by (rewrite <- filter_app, firstn_skipn; reflexivity).
  assert (Hhead : filter f (firstn k (sorted_table base text)) =
                  firstn k (sorted_table base text)).
  { rewrite <- E, Hstack, filter_filter. apply filter_ext. intros x. apply andb_diag. }
  rewrite Hhead, <- E, <- Hstack in Hsplit.
  apply (f_equal (@List.length record)) in Hsplit. rewrite length_app in Hsplit.
  assert (Hin : In r (filter f (skipn k (sorted_table base text))))
    by (apply filter_In; split; [exact Hr|exact Hle]).
  destruct (filter f (skipn k (sorted_table base text))); [destruct Hin|].
  simpl in Hsplit. lia.
Qed.

(** X7. The count recorded for a combined file is the number of its
    blocks whose chosen score reaches the threshold, whatever order the
    sort leaves them in; it is at most the number of blocks. *)
Theorem stack_count_is_the_number_of_blocks_at_threshold :
  forall (cfg : config) (f : string * string),
    snd (count_of cfg f) =
      List.length
        (filter (fun block =>
                   PyFloat.leb (score_threshold cfg)
                               (chosen (parse_block (base_of f) block)))
                (blocks (snd f)))
    /\ snd (count_of cfg f) <= List.length (blocks (snd f)).
Proof.
  intros cfg f.
  assert (E : snd (count_of cfg f) =
              List.length
                (filter (fun block =>
                           PyFloat.leb (score_threshold cfg)
                                       (chosen (parse_block (base_of f) block)))
                        (blocks (snd f)))).
  { unfold count_of, stack_table, sorted_table, Pandas.at_least. cbn [snd].
    rewrite <- (Permutation_length
                  (Permutation_filter _ _ _
                     (sort_values_perm (parse_records (base_of f) (snd f))))).
    unfold parse_records. rewrite filter_map_comm. apply length_map. }
  split; [exact E|]. rewrite E. apply filter_length_le.
Qed.

(** X8. With a higher threshold the stack table is a head of the stack
    table of the lower threshold: raising the threshold only drops rows
    from the end. *)
Theorem higher_threshold_keeps_a_head_of_the_stack :
  forall (cfg1 cfg2 : config) (base text : string),
    PyFloat.leb (score_threshold cfg1) (score_threshold cfg2) = true ->
    List.length (stack_table cfg2 base text)
      <= List.length (stack_table cfg1 base text)
    /\ stack_table cfg2 base text =
       firstn (List.length (stack_table cfg2 base text))
              (stack_table cfg1 base text).
Proof.
  intros cfg1 cfg2 base text Hle.
  set (S := sorted_table base text).
  assert (Hsub : stack_table cfg2 base text =
                 filter (fun r => PyFloat.leb (score_threshold cfg2) (chosen r))
                        (stack_table cfg1 base text)).
  { unfold stack_table, Pandas.at_least. fold S.
    rewrite filter_filter. apply filter_ext. intros r.
    destruct (PyFloat.leb (score_threshold cfg2) (chosen r)) eqn:H2;
      [|now rewrite andb_false_r].
    now rewrite (leb_trans _ _ _ Hle H2). }
  assert (Hlen : List.length (stack_table cfg2 base text)
                 <= List.length (stack_table cfg1 base text))
    by (rewrite Hsub; apply filter_length_le).
  split; [exact Hlen|].
  transitivity (firstn (List.length (stack_table cfg2 base text))
                  (firstn (List.length (stack_table cfg1 base text)) S)).
  - rewrite firstn_firstn, Nat.min_l by exact Hlen.
    apply at_least_sorted_prefix.
  - f_equal. symmetry. apply at_least_sorted_prefix.
Qed.

Lemma higher_threshold_keeps_a_head_of_the_stack_witness :
  List.length (stack_table Scenario.cfg "qA" Scenario.qA_text)
    <= List.length (stack_table Scenario.other_cfg "qA" Scenario.qA_text)
  /\ stack_table Scenario.cfg "qA" Scenario.qA_text =
     firstn (List.length (stack_table Scenario.cfg "qA" Scenario.qA_text))
            (stack_table Scenario.other_cfg "qA" Scenario.qA_text).
Proof.
  apply (higher_threshold_keeps_a_head_of_the_stack
           Scenario.other_cfg Scenario.cfg "qA" Scenario.qA_text).
  vm_compute. reflexivity.
Defined.

(** X9. Every file that the loop of [parse_and_save] writes is the
    table, the sorted table or the stack of one of the combined files,
    and lies directly in the folder made for its kind before the loop;
    the folder asked for again in every turn is [c-tm/all_tab_sorted]. *)
Theorem per_query_files_stay_in_the_folders_made :
  forall (cfg : config) (files : list (string * string)),
    folders_of_parse_and_save files =
      [MakeDirs "c-tm/all_tab"; MakeDirs "c-tm/all_tab_sorted";
       MakeDirs "tm-stacks"]
      ++ repeat (MakeDirs "c-tm/all_tab_sorted") (List.length files)
    /\ forall w, In w (written (process_files cfg init_state files)) ->
         exists f, In f files
           /\ ((path_of w = tab_path (base_of f)
                /\ Path.dirname (path_of w) = "c-tm/all_tab")
               \/ (path_of w = sorted_path (base_of f)
                   /\ Path.dirname (path_of w) = "c-tm/all_tab_sorted")
               \/ (path_of w = stack_path (base_of f)
                   /\ Path.dirname (path_of w) = "tm-stacks")).
Proof.
  intros cfg files. split.
  - unfold folders_of_parse_and_save, create_folder. cbn [app]. do 3 f_equal.
    induction files as [|f files IH]; [reflexivity|].
    cbn [flat_map app List.length repeat]. unfold base_of at 1.
    rewrite dirname_sorted_path. now rewrite IH.
  - intros w Hw. rewrite written_process_files in Hw. cbn [written init_state app] in Hw.
    apply in_flat_map in Hw. destruct Hw as (f & Hf & Hw).
    exists f. split; [exact Hf|].
    apply (in_map path_of) in Hw.
    destruct (paths_of_writes cfg f) as [E|E]; rewrite E in Hw; simpl in Hw;
      unfold base_of in *.
    + destruct Hw as [<-|[<-|[]]].
      * left. split; [reflexivity|apply dirname_tab_path].
      * right. left. split; [reflexivity|apply dirname_sorted_path].
    + destruct Hw as [<-|[<-|[<-|[]]]].
      * left. split; [reflexivity|apply dirname_tab_path].
      * right. left. split; [reflexivity|apply dirname_sorted_path].
      * right. right. split; [reflexivity|apply dirname_stack_path].
Qed.

(** X10. When the combined files have distinct base names, a run with
    the default parameters writes no path twice: no output overwrites
    another. *)
Theorem no_output_path_is_written_twice :
  forall (date : string) (files : list (string * string)),
    NoDup (map base_of files) ->
    NoDup (map path_of (files_written (parse_and_save (default_config date) files))).
Proof.
  intros date files Hnd. set (cfg := default_config date).
  assert (Hper : NoDup (map path_of (written (process_files cfg init_state files)))).
  { rewrite written_process_files. now apply NoDup_paths. }
  unfold parse_and_save. fold cfg.
  destruct (Pandas.concat _) as [e|combo]; cbn [files_written]; [exact Hper|].
  rewrite map_app. apply NoDup_app; [exact Hper| |].
  - repeat constructor; simpl; [|tauto].
    intros [H|[]]. unfold summary_path in H. simpl in H. discriminate H.
  - intros p Hp Hq. rewrite written_process_files in Hp.
    cbn [written init_state app] in Hp.
    apply in_map_iff in Hp. destruct Hp as (w & <- & Hw).
    apply in_flat_map in Hw. destruct Hw as (f & _ & Hw).
    apply (in_map path_of) in Hw. apply path_owner in Hw.
    unfold tab_path, sorted_path, stack_path in Hw.
    simpl in Hq. unfold summary_path in Hq. simpl in Hq.
    destruct Hq as [Hq|[Hq|[]]]; rewrite <- Hq in Hw;
      destruct Hw as [Hw|[Hw|Hw]]; discriminate Hw.
Qed.

Lemma no_output_path_is_written_twice_witness :
  NoDup (map path_of
             (files_written (parse_and_save (default_config "20261103")
                                            Scenario.files))).
Proof.
  apply (no_output_path_is_written_twice "20261103" Scenario.files).
  assert (E : map base_of Scenario.files = ["qA"; "qB"])
    by (vm_compute; reflexivity).
  rewrite E. repeat constructor; simpl; intuition discriminate.
Defined.

(** X11. A run over at least one combined file ends with the global
    table and the counts; the global table is the sorted tables one
    after the other, holds the records of all blocks of all files, each
    once, and has as many rows as there are blocks. *)
Theorem global_summary_holds_every_record_once :
  forall (cfg : config) (files : list (string * string)),
    files <> [] ->
    exists pre combo counts,
      files_written (parse_and_save cfg files) =
        pre ++ [WriteTable (summary_path cfg "_all_results_") true combo;
                WriteCounts (summary_path cfg "_stack_counts_") counts]
      /\ combo = List.concat (map sorted_of files)
      /\ Permutation combo
           (flat_map (fun f => parse_records (base_of f) (snd f)) files)
      /\ List.length combo =
         list_sum (map (fun f => List.length (blocks (snd f))) files).
Proof.
  intros cfg files Hne. rewrite (parse_and_save_nonempty cfg files Hne).
  cbn [files_written]. do 3 eexists. split; [reflexivity|]. split; [reflexivity|].
  assert (HP : Permutation (List.concat (map sorted_of files))
                 (flat_map (fun f => parse_records (base_of f) (snd f)) files)).
  { clear Hne. induction files as [|f files IH]; [constructor|].
    cbn [map List.concat flat_map]. apply Permutation_app; [|exact IH].
    symmetry. apply sort_values_perm. }
  split; [exact HP|].
  rewrite (Permutation_length HP). clear.
  induction files as [|f files IH]; [reflexivity|].
  cbn [flat_map map list_sum]. rewrite length_app, IH, length_parse_records.
  reflexivity.
Qed.

Lemma global_summary_holds_every_record_once_witness :
  exists pre combo counts,
    files_written (parse_and_save Scenario.cfg Scenario.files) =
      pre ++ [WriteTable (summary_path Scenario.cfg "_all_results_") true combo;
              WriteCounts (summary_path Scenario.cfg "_stack_counts_") counts]
    /\ combo = List.concat (map sorted_of Scenario.files)
    /\ Permutation combo
         (flat_map (fun f => parse_records (base_of f) (snd f)) Scenario.files)
    /\ List.length combo =
       list_sum (map (fun f => List.length (blocks (snd f))) Scenario.files).
Proof.
  apply (global_summary_holds_every_record_once Scenario.cfg Scenario.files).
  discriminate.
Defined.

(** X12. In the sorted table of a combined file every row has a chosen
    score at least that of every row after it. *)
Theorem sorted_table_is_ordered_throughout :
  forall (base text : string) (l1 l2 l3 : list record) (r1 r2 : record),
    sorted_table base text = l1 ++ r1 :: l2 ++ r2 :: l3 ->
    PyFloat.leb (chosen r2) (chosen r1) = true.
Proof.
  intros base text l1 l2 l3 r1 r2 E.
  pose proof (sort_values_descending (parse_records base text)) as Hd.
  pose proof (Permutation_Forall (sort_values_perm (parse_records base text))
                (parse_records_present base text)) as Hp.
  fold (sorted_table base text) in Hd, Hp. rewrite E in Hd, Hp.
  apply descending_suffix in Hd.
  apply Forall_app in Hp. destruct Hp as [_ Hp].
  assert (Hin : In r2 (l2 ++ r2 :: l3)) by (apply in_or_app; right; now left).
  pose proof (descending_head_max _ _ Hd Hp r2 Hin) as Hlt.
  rewrite Forall_forall in Hp.
  apply ltb_false_leb; [| |exact Hlt].
  - apply present_not_nan, Hp. now left.
  - apply present_not_nan, Hp. now right.
Qed.

Lemma sorted_table_is_ordered_throughout_witness :
  exists r1 r2,
    sorted_table "qA" Scenario.qA_text = [] ++ r1 :: [] ++ r2 :: []
    /\ PyFloat.leb (chosen r2) (chosen r1) = true.
Proof.
  assert (E : exists r1 r2,
             sorted_table "qA" Scenario.qA_text = [] ++ r1 :: [] ++ r2 :: []).
  { do 2 eexists. vm_compute. reflexivity. }
  destruct E as (r1 & r2 & E). exists r1, r2. split; [exact E|].
  exact (sorted_table_is_ordered_throughout
           "qA" Scenario.qA_text [] [] [] r1 r2 E).
Defined.

(** ** The fields of a record *)

(** X13. The [except] branch that sets the chosen score to 0.0 is taken
    exactly when a TM-score string that was found holds more than one
    point or no digit; otherwise both strings have a value and the
    chosen score is the larger one. *)
Theorem chosen_falls_back_exactly_on_ill_formed_scores :
  forall (base block : string),
    let r := parse_block base block in
    let bad (s : string) := s <> "" /\ ill_formed s = true in
    (try_chosen (TM1 r) (TM2 r) = None <-> bad (TM1 r) \/ bad (TM2 r))
    /\ (bad (TM1 r) \/ bad (TM2 r) -> chosen r = zero)
    /\ (~ (bad (TM1 r) \/ bad (TM2 r)) ->
        exists a b, score_or_zero (TM1 r) = Some a
                    /\ score_or_zero (TM2 r) = Some b
                    /\ chosen r = py_max a b).
Proof.
  intros base block r bad.
  assert (H1 : all_chars is_num_char (TM1 r) = true) by apply tm_group_is_numeric.
  assert (H2 : all_chars is_num_char (TM2 r) = true) by apply tm_group_is_numeric.
  assert (Hs : forall s, all_chars is_num_char s = true ->
                         (score_or_zero s = None <-> bad s)).
  { intros s Hn. unfold bad. destruct s as [|a s].
    - simpl. split; [discriminate|intros [H _]; congruence].
    - change (score_or_zero (String a s)) with (py_float (String a s)).
      rewrite (py_float_none_iff _ Hn). split; [intros H; split; [discriminate|exact H]|tauto]. }
  assert (Hc : chosen r = chosen_of (TM1 r) (TM2 r)) by reflexivity.
  assert (Ht : try_chosen (TM1 r) (TM2 r) = None <-> bad (TM1 r) \/ bad (TM2 r)).
  { unfold try_chosen. rewrite <- (Hs _ H1), <- (Hs _ H2).
    destruct (score_or_zero (TM1 r)), (score_or_zero (TM2 r));
      split; intros H; try discriminate; try reflexivity; auto;
      destruct H; discriminate. }
  split; [exact Ht|]. split.
  - intros H. apply Ht in H. rewrite Hc. unfold chosen_of. now rewrite H.
  - intros H. rewrite Hc. unfold chosen_of, try_chosen in *.
    destruct (score_or_zero (TM1 r)) as [a|] eqn:Ea.
    + destruct (score_or_zero (TM2 r)) as [b|] eqn:Eb.
      * exists a, b. auto.
      * exfalso. apply H, Ht. reflexivity.
    + exfalso. apply H, Ht. reflexivity.
Qed.

(** X14. The template identifier, the two lengths, the RMSD and the
    sequence identity are each the value at the first place of the block
    where the label is followed, after optional white space, by a
    character of the field's class: the whole run of such characters.
    The field is empty (the template field the bare [.pdb]) exactly when
    the block has no such place. *)
Theorem fields_hold_the_first_value_after_their_label :
  forall (base block : string),
    let r := parse_block base block in
    ((no_value "Name of Chain_2:" is_name_char block /\ template r = ".pdb")
     \/ exists id, template r = (id ++ ".pdb")%string
                   /\ first_value "Name of Chain_2:" is_name_char block id)
    /\ ((no_value "Length of Chain_1:" is_digit block /\ qlen r = "")
        \/ first_value "Length of Chain_1:" is_digit block (qlen r))
    /\ ((no_value "Length of Chain_2:" is_digit block /\ tlen r = "")
        \/ first_value "Length of Chain_2:" is_digit block (tlen r))
    /\ ((no_value "RMSD=" is_num_char block /\ RMSD r = "")
        \/ first_value "RMSD=" is_num_char block (RMSD r))
    /\ ((no_value "Seq_ID=n_identical/n_aligned=" is_num_char block
         /\ ident r = "")
        \/ first_value "Seq_ID=n_identical/n_aligned=" is_num_char block
                       (ident r)).
Proof.
  intros base block r. split; [|split; [|split; [|split]]].
  - destruct (simple_field_first "Name of Chain_2:" is_name_char block)
      as [[H1 H2]|H].
    + left. split; [exact H1|]. unfold r, parse_block, template_id. cbn [template].
      fold (field Pat.name2 block). unfold Pat.name2. now rewrite H2.
    + right. exists (template_id block). split; [reflexivity|exact H].
  - apply (simple_field_first "Length of Chain_1:" is_digit block).
  - apply (simple_field_first "Length of Chain_2:" is_digit block).
  - apply (simple_field_first "RMSD=" is_num_char block).
  - apply (simple_field_first "Seq_ID=n_identical/n_aligned=" is_num_char block).
Qed.

(** X15. A TM-score field that is not empty is a run of digits and
    points that the block holds after [TM-score=], followed by the
    remark [(if normalized by length of Chain_N, ...)] up to a closing
    parenthesis on the same line. *)
Theorem tm_scores_come_from_normalisation_lines :
  forall (base block : string),
    let r := parse_block base block in
    ((Re.search Pat.tm1 block = None /\ TM1 r = "")
     \/ tm_line "Chain_1" block (TM1 r))
    /\ ((Re.search Pat.tm2 block = None /\ TM2 r = "")
        \/ tm_line "Chain_2" block (TM2 r)).
Proof.
  intros base block r. split.
  - apply (tm_field "Chain_1" block).
  - apply (tm_field "Chain_2" block).
Qed.

(** X16. A combined file gives records only if it holds a banner line;
    a text in which [TM-align] does not occur, such as the message of a
    shell that did not find the program, gives an empty table, an empty
    sorted table and an empty stack. *)
Theorem records_need_a_banner_line :
  forall (base text : string),
    (parse_records base text <> [] -> banner_line text)
    /\ (contains "TM-align" text = false ->
        parse_records base text = []
        /\ sorted_table base text = []
        /\ forall cfg, stack_table cfg base text = []).
Proof.
  intros base text.
  assert (Hnone : Re.search Pat.banner text = None -> parse_records base text = []).
  { intros Hs. unfold parse_records, blocks.
    destruct (split_segments Pat.banner banner_match_nonempty text)
      as (first & others & E & Hseg).
    rewrite E. destruct (Segments_none _ _ _ _ Hseg Hs) as [_ ->]. reflexivity. }
  assert (Hshape : parse_records base text <> [] -> banner_line text).
  { intros Hne. destruct (Re.search Pat.banner text) as [[[i n] g]|] eqn:Hs.
    - now apply banner_match_shape in Hs.
    - exfalso. apply Hne. now apply Hnone. }
  split; [exact Hshape|].
  intros Hc.
  assert (E : parse_records base text = []).
  { destruct (parse_records base text) eqn:E; [reflexivity|].
    destruct Hshape as (pre & stars & ws & rest & stars' & post & -> & _);
      [discriminate|].
    replace (pre ++ stars ++ ws ++ "TM-align" ++ rest ++ stars' ++ post)%string
      with ((pre ++ stars ++ ws) ++ "TM-align" ++ rest ++ stars' ++ post)%string
      in Hc by (rewrite !sapp_assoc; reflexivity).
    rewrite contains_middle in Hc. discriminate. }
  split; [exact E|]. unfold stack_table, sorted_table. rewrite E.
  split; [reflexivity|intros cfg; reflexivity].
Qed.
